(** * tempreg: the polling engine of the sensor bus logger

    A shallow embedding of [main.go]: the frame codec ([WriteStrPort],
    [ReadStrPort]), the device session ([getValue]), the two retry loops
    ([getSerialNumber], [getMeasurement]), the address-list parser
    ([extractAdresses]) and the scan loop of [main].

    Conventions.
    - A Go [byte] is an [N]; addition on bytes wraps modulo 256.
    - A Go [string] is the list of its bytes.
    - The fixed-size global arrays are lists; an index outside the list is
      the Go run-time panic "index out of range".
    - The serial port, the clock and the database are one abstract world,
      reached through the operations of [Environment].
    - Logging ([slog], [log.Printf]) changes no program state and is left
      out, and with it the [showValues] flag that only guards log calls. *)

From Stdlib Require Import ZArith List Lia Bool String Ascii.
From stdpp Require Import base list.
Import ListNotations.
Open Scope Z_scope.

(** ** Constants *)

Definition MAXNUMADR : Z := 32.
Definition ACK : Z := 6.
Definition NAK : Z := 21.
Definition ETX : N := 3.
Definition TXBUFFLEN : Z := 2200.
Definition RXBUFFLEN : Z := 255.

(** ** Bytes and strings *)

(** A byte is an unsigned number; what Go keeps below 256 by its type is
    kept here by writing the wrap-around out where the code can overflow. *)
Definition byte := N.
Definition gostring := list byte.

(** Unsigned 8-bit addition, as Go's [+] on [byte]. *)
Definition byte_add (a b : byte) : byte := ((a + b) mod 256)%N.

(** The bytes of a literal. *)
Fixpoint bytes_of (s : string) : gostring :=
  match s with
  | EmptyString => []
  | String c r => N_of_ascii c :: bytes_of r
  end.

(** The running XOR of the codec: [bcc ^= b] for each byte in order. *)
Definition xor_all (l : list byte) : byte := fold_left N.lxor l 0%N.

(** Arrays: reading and writing a cell.  For reading, [None] is the index
    panic; a write is only ever made to a cell that was read or addressed
    just before. *)
Definition idx {A} (l : list A) (i : Z) : option A :=
  if i <? 0 then None else l !! Z.to_nat i.

Definition upd {A} (l : list A) (i : Z) (v : A) : list A :=
  if i <? 0 then l else <[Z.to_nat i := v]> l.

(** ** Errors *)

Inductive error : Type :=
| ErrBufferSize       (* "message exceeds buffer size" *)
| ErrTooLongETX       (* "message too long for ETX" *)
| ErrTooLongBCC       (* "message too long for BCC" *)
| ErrWriteFailed      (* "write failed: ..." *)
| ErrIncompleteWrite (expected wrote : Z)
| ErrReadTimeout      (* "read timeout: ..." *)
| ErrSerialRead       (* "serial read error: ..." *)
| ErrNoData           (* "no data read" *)
| ErrBCC.             (* "BCC verification failed" *)

(** A Go [error] value: [None] is [nil]. *)
Definition goerror := option error.

(** ** Frame codec: the request side of WriteStrPort *)

(** The copy loop of [WriteStrPort]: [a] is the write cursor, [buf] the
    filled prefix [txbuff[:a]], [bcc] the running checksum. *)
Fixpoint write_chars (chars : list byte) (a : Z) (bcc : byte) (buf : list byte)
  : error + (Z * byte * list byte) :=
  match chars with
  | [] => inr (a, bcc, buf)
  | c :: rest =>
      if TXBUFFLEN - 2 <=? a then inl ErrBufferSize
      else write_chars rest (a + 1) (N.lxor bcc c) (buf ++ [c])
  end.

(** Everything [WriteStrPort] does before it calls [port.Write]: the result
    is the slice [txbuff[:a]] handed to the port. *)
Definition build_frame (chars : gostring) (adr : byte) : error + list byte :=
  let bcc := 0%N in
  let buf := [byte_add adr 128%N] in
  let a := 1 in
  match write_chars chars a bcc buf with
  | inl e => inl e
  | inr (a, bcc, buf) =>
      if TXBUFFLEN - 1 <=? a then inl ErrTooLongETX
      else
        let buf := buf ++ [ETX] in
        let bcc := N.lxor bcc ETX in
        let a := a + 1 in
        if TXBUFFLEN <=? a then inl ErrTooLongBCC
        else inr (buf ++ [bcc])
  end.

(** ** Frame codec: the response side of ReadStrPort *)

(** What [port.Read] gave back: an error (a timeout or another one), or the
    [iIn] bytes it stored at the front of the receive buffer. *)
Inductive read_result : Type :=
| ReadTimeout
| ReadFailed
| ReadBytes (raw : list byte).

(** [ReadStrPort] after the read: [raw] holds [result[0..iIn)].  The string
    it returns is the empty literal of line 434. *)
Definition check_frame (raw : list byte) : error + (byte * gostring) :=
  let iIn := Z.of_nat (length raw) in
  if iIn <=? 0 then inl ErrNoData
  else
    let bcc := xor_all (firstn (Z.to_nat (iIn - 1)) raw) in
    match idx raw (iIn - 1) with
    | None => inl ErrNoData
    | Some last =>
        if negb (bcc =? last)%N then inl ErrBCC
        else
          let result := upd raw (iIn - 1) 0%N in
          match idx result 0 with
          | None => inl ErrNoData
          | Some first => inr (first, [])
          end
    end.

Definition read_frame (r : read_result) : error + (byte * gostring) :=
  match r with
  | ReadTimeout => inl ErrReadTimeout
  | ReadFailed => inl ErrSerialRead
  | ReadBytes raw => check_frame raw
  end.

(** ** The payload filter of getValue *)

(** [unicode.IsPrint] and [unicode.IsSpace] on a rune below 256, after the
    Latin-1 table of Go's [unicode] package. *)
Definition IsPrint (r : Z) : bool :=
  ((32 <=? r) && (r <=? 126)) || ((161 <=? r) && (r <=? 255) && negb (r =? 173)).

Definition IsSpace (r : Z) : bool :=
  ((9 <=? r) && (r <=? 13)) || (r =? 32) || (r =? 133) || (r =? 160).

(** [bytes.IndexByte]: [None] for -1. *)
Fixpoint IndexByte (buf : list byte) (c : byte) : option nat :=
  match buf with
  | [] => None
  | b :: rest =>
      if (b =? c)%N then Some O
      else match IndexByte rest c with
           | Some n => Some (S n)
           | None => None
           end
  end.

(** The filter loop: stops at [ETX], keeps printable, space and zero. *)
Fixpoint filter_loop (buf : list byte) : list byte :=
  match buf with
  | [] => []
  | b :: rest =>
      if (b =? ETX)%N then []
      else
        let r := Z.of_N b in
        if IsPrint r || IsSpace r || (b =? 0)%N then b :: filter_loop rest
        else filter_loop rest
  end.

(** Lines 525-545 of [getValue]: what becomes [*resultStr]. *)
Definition post_process (bufStr : gostring) : gostring :=
  let buf := bufStr in
  let buf := match IndexByte buf ETX with
             | Some etxPos => firstn etxPos buf
             | None => buf
             end in
  filter_loop buf.

(** The decoding half of one query: the read check, then the filter. *)
Definition decodeResponse (raw : list byte) : error + (byte * gostring) :=
  match check_frame raw with
  | inl e => inl e
  | inr (readChar, bufStr) => inr (readChar, post_process bufStr)
  end.

(** The encoding half: the frame given to the port. *)
Definition encodeRequest (command : gostring) (address : byte) : error + list byte :=
  build_frame command address.

(** ** Program state *)

(** The package-level variables the polling engine reads and writes.
    [minScanDelay] is [minScanDelaySeconds] already converted to the
    [time.Duration] (nanoseconds) the scan loop compares against; a
    [time.Time] is the number of nanoseconds since the zero [Time]. *)
Record Globals : Type := mkGlobals {
  maxRetrys : Z;
  minScanDelay : Z;
  numScans : Z;
  retryCnt : list Z;
  serNoStr : list gostring;
  valueStr : list gostring;
  scanAddress : list byte;
  adrCounter : Z;
  numAdresses : Z;
  timestamp : list Z;
  msgSent : list Z;
  msgReceived : list Z;
  msgNAK : list Z
}.

Definition set_retryCnt (v : list Z) (g : Globals) : Globals :=
  mkGlobals (maxRetrys g) (minScanDelay g) (numScans g) v (serNoStr g)
    (valueStr g) (scanAddress g) (adrCounter g) (numAdresses g)
    (timestamp g) (msgSent g) (msgReceived g) (msgNAK g).

Definition set_serNoStr (v : list gostring) (g : Globals) : Globals :=
  mkGlobals (maxRetrys g) (minScanDelay g) (numScans g) (retryCnt g) v
    (valueStr g) (scanAddress g) (adrCounter g) (numAdresses g)
    (timestamp g) (msgSent g) (msgReceived g) (msgNAK g).

Definition set_valueStr (v : list gostring) (g : Globals) : Globals :=
  mkGlobals (maxRetrys g) (minScanDelay g) (numScans g) (retryCnt g)
    (serNoStr g) v (scanAddress g) (adrCounter g) (numAdresses g)
    (timestamp g) (msgSent g) (msgReceived g) (msgNAK g).

Definition set_scanAddress (v : list byte) (g : Globals) : Globals :=
  mkGlobals (maxRetrys g) (minScanDelay g) (numScans g) (retryCnt g)
    (serNoStr g) (valueStr g) v (adrCounter g) (numAdresses g)
    (timestamp g) (msgSent g) (msgReceived g) (msgNAK g).

Definition set_adrCounter (v : Z) (g : Globals) : Globals :=
  mkGlobals (maxRetrys g) (minScanDelay g) (numScans g) (retryCnt g)
    (serNoStr g) (valueStr g) (scanAddress g) v (numAdresses g)
    (timestamp g) (msgSent g) (msgReceived g) (msgNAK g).

Definition set_numAdresses (v : Z) (g : Globals) : Globals :=
  mkGlobals (maxRetrys g) (minScanDelay g) (numScans g) (retryCnt g)
    (serNoStr g) (valueStr g) (scanAddress g) (adrCounter g) v
    (timestamp g) (msgSent g) (msgReceived g) (msgNAK g).

Definition set_timestamp (v : list Z) (g : Globals) : Globals :=
  mkGlobals (maxRetrys g) (minScanDelay g) (numScans g) (retryCnt g)
    (serNoStr g) (valueStr g) (scanAddress g) (adrCounter g) (numAdresses g)
    v (msgSent g) (msgReceived g) (msgNAK g).

Definition set_msgSent (v : list Z) (g : Globals) : Globals :=
  mkGlobals (maxRetrys g) (minScanDelay g) (numScans g) (retryCnt g)
    (serNoStr g) (valueStr g) (scanAddress g) (adrCounter g) (numAdresses g)
    (timestamp g) v (msgReceived g) (msgNAK g).

Definition set_msgReceived (v : list Z) (g : Globals) : Globals :=
  mkGlobals (maxRetrys g) (minScanDelay g) (numScans g) (retryCnt g)
    (serNoStr g) (valueStr g) (scanAddress g) (adrCounter g) (numAdresses g)
    (timestamp g) (msgSent g) v (msgNAK g).

Definition set_msgNAK (v : list Z) (g : Globals) : Globals :=
  mkGlobals (maxRetrys g) (minScanDelay g) (numScans g) (retryCnt g)
    (serNoStr g) (valueStr g) (scanAddress g) (adrCounter g) (numAdresses g)
    (timestamp g) (msgSent g) (msgReceived g) v.

(** The variables as the Go declarations initialise them ([numScans] and
    the delay are the defaults of lines 58-61; the arrays are zeroed). *)
Definition initial_globals : Globals :=
  let n := Z.to_nat MAXNUMADR in
  mkGlobals 25 60000000000 1
    (repeat 0 n) (repeat [] n) (repeat [] n) (repeat 0%N n) 0 0
    (repeat 0 n) (repeat 0 n) (repeat 0 n) (repeat 0 n).

(** Every array has its declared length [MAXNUMADR]. *)
Definition arrays_ok (g : Globals) : Prop :=
  let n := Z.to_nat MAXNUMADR in
  length (retryCnt g) = n /\ length (serNoStr g) = n /\
  length (valueStr g) = n /\ length (scanAddress g) = n /\
  length (timestamp g) = n /\ length (msgSent g) = n /\
  length (msgReceived g) = n /\ length (msgNAK g) = n.

(** [x++] on an [int64]: two's complement wrap-around. *)
Definition int64_incr (x : Z) : Z :=
  (x + 1 + 2 ^ 63) mod 2 ^ 64 - 2 ^ 63.

(** A [*string] argument of [getValue]: the cell it points to. *)
Inductive strref : Type :=
| SerNoRef (i : Z)
| ValueRef (i : Z).

Definition store (p : strref) (v : gostring) (g : Globals) : Globals :=
  match p with
  | SerNoRef i => set_serNoStr (upd (serNoStr g) i v) g
  | ValueRef i => set_valueStr (upd (valueStr g) i v) g
  end.

(** ** The world outside the program *)

(** What [port.Write] gave back: an error, or the count it wrote. *)
Inductive write_result : Type :=
| WriteFailed
| Wrote (n : Z).

(** The serial line, the clock and the database, as state transformers on
    a world [W].  The open port is part of the world. *)
Class Environment (W : Type) : Type := {
  port_Write : list byte -> W -> write_result * W;
  port_Read : W -> read_result * W;
  port_Close : W -> W;
  serial_OpenPort : W -> bool * W;
  time_Now : W -> Z;
  time_Sleep : Z -> W -> W;
  writeToPostgres : gostring -> gostring -> Z -> W -> W
}.

Definition Millisecond : Z := 1000000.
Definition maxDuration : Z := 2 ^ 63 - 1.
Definition minDuration : Z := - 2 ^ 63.

(** [Time.Sub] saturates at the ends of [Duration]. *)
Definition saturate (d : Z) : Z := Z.max minDuration (Z.min maxDuration d).

(** ** Outcomes and the state monad of the engine *)

Inductive outcome (W A : Type) : Type :=
| Done (a : A) (g : Globals) (w : W)   (* returned *)
| Panic                                 (* index out of range *)
| Diverge.                              (* loop budget of the model spent *)

Arguments Done {W A} a g w.
Arguments Panic {W A}.
Arguments Diverge {W A}.

Definition M (W A : Type) : Type := Globals -> W -> outcome W A.

Definition ret {W A} (a : A) : M W A := fun g w => Done a g w.

Definition bind {W A B} (m : M W A) (k : A -> M W B) : M W B :=
  fun g w =>
    match m g w with
    | Done a g' w' => k a g' w'
    | Panic => Panic
    | Diverge => Diverge
    end.

Definition panic {W A} : M W A := fun _ _ => Panic.
Definition diverge {W A} : M W A := fun _ _ => Diverge.
Definition get {W} : M W Globals := fun g w => Done g g w.
Definition modify {W} (f : Globals -> Globals) : M W unit :=
  fun g w => Done tt (f g) w.
Definition world {W A} (f : W -> A * W) : M W A :=
  fun g w => let '(a, w') := f w in Done a g w'.
Definition effect {W} (f : W -> W) : M W unit := fun g w => Done tt g (f w).

(** Reading an array cell, or the panic. *)
Definition load {W A} (arr : Globals -> list A) (i : Z) : M W A :=
  fun g w => match idx (arr g) i with
             | Some v => Done v g w
             | None => Panic
             end.

Declare Scope engine_scope.
Delimit Scope engine_scope with engine.
Notation "x <- m ;; k" := (bind m (fun x => k))
  (at level 100, m at next level, right associativity) : engine_scope.
Notation "m ;; k" := (bind m (fun _ => k))
  (at level 100, right associativity) : engine_scope.

(** ** Where a command stands *)

(** The retry counter of the device under the cursor. *)
Definition cur_retry (g : Globals) : option Z := idx (retryCnt g) (adrCounter g).

(** The loop of a command ran out of attempts: its guard is false. *)
Definition exhausted (g : Globals) : Prop :=
  exists rc, cur_retry g = Some rc /\ maxRetrys g <= rc.

(** The cursor names a configured device whose bus address fits the
    counter arrays. *)
Definition ready (g : Globals) : Prop :=
  arrays_ok g /\
  0 <= adrCounter g < MAXNUMADR /\
  exists adr, idx (scanAddress g) (adrCounter g) = Some adr /\
              Z.of_N adr < MAXNUMADR.

Section Engine.

Context {W : Type} `{Environment W}.
Local Open Scope engine_scope.

(** ** The port methods *)

(** [WriteStrPort]: build the frame, write it, compare the count. *)
Definition WriteStrPort (chars : gostring) (adr : byte) : M W goerror :=
  match build_frame chars adr with
  | inl e => ret (Some e)
  | inr frame =>
      let a := Z.of_nat (length frame) in
      r <- world (port_Write frame) ;;
      match r with
      | WriteFailed => ret (Some ErrWriteFailed)
      | Wrote n =>
          if negb (n =? a) then ret (Some (ErrIncompleteWrite a n))
          else ret None
      end
  end.

(** [ReadStrPort]: one read, then the checks. *)
Definition ReadStrPort : M W (error + (byte * gostring)) :=
  r <- world port_Read ;;
  ret (read_frame r).

(** ** Device session: getValue *)

Definition getValue (resultStr : strref) (cmdStr : gostring) (adr : byte)
  : M W (Z * goerror) :=
  modify (store resultStr []) ;;
  werr <- WriteStrPort cmdStr adr ;;
  match werr with
  | Some e => ret (0, Some e)
  | None =>
      sent <- load msgSent (Z.of_N adr) ;;
      modify (fun g =>
        set_msgSent (upd (msgSent g) (Z.of_N adr) (int64_incr sent)) g) ;;
      effect (time_Sleep (485 * Millisecond)) ;;
      r <- ReadStrPort ;;
      match r with
      | inl e => ret (0, Some e)
      | inr (readChar, bufStr) =>
          received <- load msgReceived (Z.of_N adr) ;;
          modify (fun g =>
            set_msgReceived
              (upd (msgReceived g) (Z.of_N adr) (int64_incr received)) g) ;;
          modify (store resultStr (post_process bufStr)) ;;
          ret (Z.of_N readChar, None)
      end
  end.

(** ** Retry controller *)

Definition is_nil (e : goerror) : bool :=
  match e with None => true | Some _ => false end.

(** [arr[adrCounter]]: the cell of the shared scan cursor. *)
Definition load_cur {A} (arr : Globals -> list A) : M W A :=
  g <- get ;; load arr (adrCounter g).

(** [retryCnt[adrCounter]++]: the loop's post statement.  The guard keeps
    the counter below [maxRetrys], itself an [int], so [int] never wraps
    here. *)
Definition retry_post : M W unit :=
  rc <- load_cur retryCnt ;;
  modify (fun g => set_retryCnt (upd (retryCnt g) (adrCounter g) (rc + 1)) g).

(** [msgNAK[adrCounter]++]. *)
Definition nak_incr : M W unit :=
  n <- load_cur msgNAK ;;
  modify (fun g => set_msgNAK (upd (msgNAK g) (adrCounter g) (int64_incr n)) g).

Definition cmd_SN : gostring := bytes_of "SN ?".
Definition cmd_MEA : gostring := bytes_of "MEA CH 1 ?".

(** One call [getValue(&arr[adrCounter], cmd, scanAddress[adrCounter])]:
    taking the address of the cell and reading the bus address both index
    with the cursor. *)
Definition query (ref : Z -> strref) (arr : Globals -> list gostring)
    (cmd : gostring) : M W (Z * goerror) :=
  g <- get ;;
  _ <- load arr (adrCounter g) ;;
  adr <- load scanAddress (adrCounter g) ;;
  getValue (ref (adrCounter g)) cmd adr.

(** The success tests of the two loops, as written in the source. *)
Definition sn_success (portStatus : Z) (err : goerror) : bool :=
  is_nil err && (0 <=? portStatus).

Definition mea_success (portStatus : Z) (err : goerror) : bool :=
  is_nil err && (portStatus =? ACK).

(** How one round of a retry loop ends: by [break], or by reaching the
    post statement (through [continue] or the end of the body) with the
    values of [portStatus] and [err] it leaves behind. *)
Inductive round_end : Type :=
| Break (err : goerror)
| Next (portStatus : Z) (err : goerror).

(** The body of the loop of [getSerialNumber], lines 452-467. *)
Definition sn_round : M W round_end :=
  r <- query SerNoRef serNoStr cmd_SN ;;
  let '(portStatus, err) := r in
  if sn_success portStatus err then ret (Break err)
  else if portStatus =? NAK then nak_incr ;; ret (Next portStatus err)
  else ret (Next portStatus err).

(** The body of the loop of [getMeasurement], lines 482-493. *)
Definition mea_round : M W round_end :=
  r <- query ValueRef valueStr cmd_MEA ;;
  let '(portStatus, err) := r in
  if mea_success portStatus err then
    _ <- load_cur timestamp ;;
    now <- world (fun w => (time_Now w, w)) ;;
    modify (fun g => set_timestamp (upd (timestamp g) (adrCounter g) now) g) ;;
    ret (Break err)
  else if portStatus =? NAK then nak_incr ;; ret (Next portStatus err)
  else ret (Next portStatus err).

(** [for ; retryCnt[adrCounter] < maxRetrys; retryCnt[adrCounter]++ { body }]
    followed by [return err]; [portStatus] and [err] are the function's
    variables, carried from one round to the next. *)
Fixpoint retry_loop (body : M W round_end) (fuel : nat)
    (portStatus : Z) (err : goerror) : M W goerror :=
  match fuel with
  | O => diverge
  | S fuel =>
      g <- get ;;
      rc <- load_cur retryCnt ;;
      if rc <? maxRetrys g then
        c <- body ;;
        match c with
        | Break err => ret err
        | Next portStatus err =>
            retry_post ;; retry_loop body fuel portStatus err
        end
      else ret err
  end.

(** Rounds the model grants a retry loop: one more than it can use. *)
Definition retry_fuel (g : Globals) : nat := S (Z.to_nat (maxRetrys g)).

Definition getSerialNumber : M W goerror :=
  _ <- load_cur serNoStr ;;
  modify (fun g => set_serNoStr (upd (serNoStr g) (adrCounter g) []) g) ;;
  _ <- load_cur retryCnt ;;
  modify (fun g => set_retryCnt (upd (retryCnt g) (adrCounter g) 0) g) ;;
  g <- get ;;
  retry_loop sn_round (retry_fuel g) 0 None.

(** [getMeasurement]: the dummy read, then the loop; [retryCnt] is not
    reset here. *)
Definition getMeasurement : M W goerror :=
  _ <- ReadStrPort ;;
  g <- get ;;
  retry_loop mea_round (retry_fuel g) 0 None.

(** ** Scan scheduler: the loop of main *)

(** [time.Since(t)]. *)
Definition time_Since (w : W) (t : Z) : Z := saturate (time_Now w - t).

(** The address loop, lines 148-160; the cursor is the global
    [adrCounter]. *)
Fixpoint scan_loop (fuel : nat) : M W unit :=
  match fuel with
  | O => diverge
  | S fuel =>
      g <- get ;;
      if adrCounter g <? numAdresses g then
        _ <- getSerialNumber ;;
        _ <- getMeasurement ;;
        effect (time_Sleep (100 * Millisecond)) ;;
        modify (fun g => set_adrCounter (adrCounter g + 1) g) ;;
        scan_loop fuel
      else ret tt
  end.

(** The database loop, lines 167-173; its cursor [i] is a local variable
    that shadows the global one. *)
Fixpoint persist_loop (fuel : nat) (i : Z) : M W unit :=
  match fuel with
  | O => diverge
  | S fuel =>
      g <- get ;;
      if i <? numAdresses g then
        sn <- load serNoStr i ;;
        v <- load valueStr i ;;
        t <- load timestamp i ;;
        effect (writeToPostgres sn v t) ;;
        persist_loop fuel (i + 1)
      else ret tt
  end.

Definition scan_fuel (g : Globals) : nat := S (Z.to_nat (numAdresses g)).

(** The loop guard of line 122. *)
Definition scanning (g : Globals) (numScansMain : Z) : bool :=
  (numScans g =? 0) || (0 <? numScansMain).

(** The main loop, lines 122-179.  [numScansMain] and [lastScan] are the
    locals of [main]; the loop returns when its guard fails, and then
    [main] returns and the process ends. *)
Fixpoint main_loop (fuel : nat) (numScansMain lastScan : Z) : M W unit :=
  match fuel with
  | O => diverge
  | S fuel =>
      g <- get ;;
      if scanning g numScansMain then
        since <- world (fun w => (time_Since w lastScan, w)) ;;
        if since <? minScanDelay g then
          effect (time_Sleep (250 * Millisecond)) ;;
          main_loop fuel numScansMain lastScan
        else
          let numScansMain :=
            if 0 <? numScansMain then numScansMain - 1 else numScansMain in
          opened <- world serial_OpenPort ;;
          if negb opened then main_loop fuel numScansMain lastScan
          else
            _ <- ReadStrPort ;;
            modify (set_adrCounter 0) ;;
            scan_loop (scan_fuel g) ;;
            lastScan <- world (fun w => (time_Now w, w)) ;;
            persist_loop (scan_fuel g) 0 ;;
            effect port_Close ;;
            main_loop fuel numScansMain lastScan
      else ret tt
  end.

(** Lines 110-122 of [main]: zero the counters, copy the scan budget, and
    enter the loop with the zero [Time] as [lastScan]. *)
Definition main_scan (fuel : nat) : M W unit :=
  modify (fun g =>
    let n := Z.to_nat MAXNUMADR in
    set_msgSent (repeat 0 n)
      (set_msgReceived (repeat 0 n) (set_msgNAK (repeat 0 n) g))) ;;
  g <- get ;;
  main_loop fuel (numScans g) 0.

(** ** Notions used to state the properties of the loops *)

(** What the loop needs of its body: it returns, keeps the state ready
    and leaves the retry counter and its bound alone. *)
Definition steady (body : M W round_end) : Prop :=
  forall g w, ready g ->
    exists c g1 w1,
      body g w = Done c g1 w1 /\ ready g1 /\
      cur_retry g1 = cur_retry g /\ maxRetrys g1 = maxRetrys g.

(** The globals as [getSerialNumber] leaves them before its loop. *)
Definition sn_start (g : Globals) : Globals :=
  let g1 := set_serNoStr (upd (serNoStr g) (adrCounter g) []) g in
  set_retryCnt (upd (retryCnt g1) (adrCounter g1) 0) g1.

End Engine.

(** ** Configuration: the address list *)

Section Config.

(** The range tables [unicode.Digit] and [unicode.White_Space] above
    Latin-1 are data of Go's [unicode] package; the parser is modelled for
    any such tables. *)
Variable Digit_table : Z -> bool.
Variable White_Space_table : Z -> bool.

(** [unicode.IsDigit] and [unicode.IsSpace] on any rune. *)
Definition IsDigit (r : Z) : bool :=
  if r <=? 255 then (48 <=? r) && (r <=? 57) else Digit_table r.

Definition IsSpace_rune (r : Z) : bool :=
  if r <=? 255 then IsSpace r else White_Space_table r.

(** The [strings.Map] call: keep digits, commas and blanks. *)
Definition clean (astr : list Z) : list Z :=
  filter (fun r => IsDigit r || (r =? 44) || (r =? 32) = true) astr.

(** [strings.Split(s, ",")]: [cur] is the part being read, reversed. *)
Fixpoint split_comma (s : list Z) (cur : list Z) : list (list Z) :=
  match s with
  | [] => [rev cur]
  | r :: rest =>
      if r =? 44 then rev cur :: split_comma rest []
      else split_comma rest (r :: cur)
  end.

Fixpoint trim_left (s : list Z) : list Z :=
  match s with
  | [] => []
  | r :: rest => if IsSpace_rune r then trim_left rest else s
  end.

Definition TrimSpace (s : list Z) : list Z :=
  rev (trim_left (rev (trim_left s))).

(** [strconv.ParseUint(s, 10, 8)]: [None] when it returns an error (empty,
    a character that is no ASCII digit, or a value above 255). *)
Fixpoint parse_digits (s : list Z) (acc : Z) : option Z :=
  match s with
  | [] => Some acc
  | c :: rest =>
      if (48 <=? c) && (c <=? 57) then parse_digits rest (acc * 10 + (c - 48))
      else None
  end.

Definition ParseUint8 (s : list Z) : option Z :=
  match s with
  | [] => None
  | _ =>
      match parse_digits s 0 with
      | Some v => if v <=? 255 then Some v else None
      | None => None
      end
  end.

(** The [range] loop of [extractAdresses]; [None] is the index panic. *)
Fixpoint address_loop (parts : list (list Z)) (i : Z) (g : Globals)
  : option Globals :=
  match parts with
  | [] => Some g
  | part :: rest =>
      if MAXNUMADR <=? i then Some g
      else
        let part := TrimSpace part in
        match part with
        | [] => address_loop rest (i + 1) g
        | _ =>
            match ParseUint8 part with
            | Some val =>
                match idx (scanAddress g) (numAdresses g) with
                | None => None
                | Some _ =>
                    let g := set_scanAddress
                               (upd (scanAddress g) (numAdresses g)
                                  (Z.to_N (val mod 256))) g in
                    let g := set_numAdresses (numAdresses g + 1) g in
                    address_loop rest (i + 1) g
                end
            | None => address_loop rest (i + 1) g
            end
        end
  end.

Definition extractAdresses (astr : list Z) (g : Globals) : option Globals :=
  address_loop (split_comma (clean astr) []) 0 g.

(** Three decimal digits for a number below 1000. *)
Definition decimal3 (v : Z) : list Z :=
  [48 + v / 100; 48 + (v / 10) mod 10; 48 + v mod 10].

(** Does the parser, given the digits of [n], store [n] in slot 0? *)
Definition stored_first (n : nat) : bool :=
  match extractAdresses (decimal3 (Z.of_nat n)) initial_globals with
  | Some g' =>
      (numAdresses g' =? 1) &&
      match idx (scanAddress g') 0 with
      | Some a => (a =? N.of_nat n)%N
      | None => false
      end
  | None => false
  end.

End Config.

(** ** Configuration: quoted values and continuation lines *)

(** The double quote. *)
Definition quote : byte := 34%N.

(** [strings.LastIndex] for a one-byte needle: [None] for -1. *)
Fixpoint LastIndexByte (s : list byte) (c : byte) : option nat :=
  match s with
  | [] => None
  | b :: rest =>
      match LastIndexByte rest c with
      | Some n => Some (S n)
      | None => if (b =? c)%N then Some O else None
      end
  end.

(** [extractQuotedValue]: the text between the first and the last quote. *)
Definition extractQuotedValue (s : gostring) : gostring :=
  match IndexByte s quote with
  | None => []
  | Some start =>
      match LastIndexByte s quote with
      | None => []
      | Some end_ =>
          if (end_ <=? start)%nat then []
          else skipn (start + 1) (firstn end_ s)
      end
  end.

(** [strings.Contains] with the quote as needle. *)
Definition has_quote (line : gostring) : bool :=
  match IndexByte line quote with
  | Some _ => true
  | None => false
  end.

(** The loop of [extractAddresses], lines 296-302.  The scanner is the list
    of the lines it has yet to deliver; [result] grows by every line read,
    and the loop stops after the first line read that holds a quote. *)
Fixpoint scan_until_quote (scanner : list gostring) (result : gostring)
  : gostring * list gostring :=
  match scanner with
  | [] => (result, [])
  | line :: rest =>
      let result := result ++ line in
      if has_quote line then (result, rest)
      else scan_until_quote rest result
  end.

(** [extractAddresses]: the value, and the scanner as it is left. *)
Definition extractAddresses (firstLine : gostring) (scanner : list gostring)
  : gostring * list gostring :=
  let '(result, scanner') := scan_until_quote scanner firstLine in
  (extractQuotedValue result, scanner').

(** The runes of an ASCII literal. *)
Definition runes_of (s : string) : list Z := map Z.of_N (bytes_of s).

(** *** Address lists as they are written *)

(** The number a run of decimal digits stands for. *)
Definition digit_value (ds : list Z) : Z :=
  fold_left (fun acc c => acc * 10 + (c - 48)) ds 0.

(** A run of ASCII digits. *)
Definition all_digits (ds : list Z) : Prop :=
  Forall (fun c => 48 <= c <= 57) ds.

(** One entry of a list: digits (none for a blank entry) with [a] blanks
    before and [b] blanks after. *)
Definition entry (e : nat * list Z * nat) : list Z :=
  let '(a, ds, b) := e in repeat 32 a ++ ds ++ repeat 32 b.

Definition entry_digits (e : nat * list Z * nat) : list Z := snd (fst e).

(** Entries joined by commas. *)
Fixpoint join_commas (parts : list (list Z)) : list Z :=
  match parts with
  | [] => []
  | [p] => p
  | p :: rest => p ++ [44] ++ join_commas rest
  end.

(** The addresses one expects a list of entries to give: the values of the
    entries that are not blank and do not exceed 255, in order. *)
Fixpoint accepted (es : list (nat * list Z * nat)) : list byte :=
  match es with
  | [] => []
  | e :: rest =>
      match entry_digits e with
      | [] => accepted rest
      | ds =>
          if digit_value ds <=? 255 then Z.to_N (digit_value ds) :: accepted rest
          else accepted rest
      end
  end.

(** ** Configuration: loadConfig *)

(** The settings [loadConfig] keeps outside the scan state: the database
    access data and the serial device. *)
Record Settings : Type := mkSettings {
  db_Host : gostring;
  db_User : gostring;
  db_Passwd : gostring;
  db_Name : gostring;
  serialDeviceStr : gostring
}.

Definition initial_settings : Settings := mkSettings [] [] [] [] [].

Definition set_minScanDelay (v : Z) (g : Globals) : Globals :=
  mkGlobals (maxRetrys g) v (numScans g) (retryCnt g)
    (serNoStr g) (valueStr g) (scanAddress g) (adrCounter g) (numAdresses g)
    (timestamp g) (msgSent g) (msgReceived g) (msgNAK g).

Definition set_numScans (v : Z) (g : Globals) : Globals :=
  mkGlobals (maxRetrys g) (minScanDelay g) v (retryCnt g)
    (serNoStr g) (valueStr g) (scanAddress g) (adrCounter g) (numAdresses g)
    (timestamp g) (msgSent g) (msgReceived g) (msgNAK g).

(** [strings.HasPrefix] and [strings.Contains]. *)
Fixpoint HasPrefix (s prefix : gostring) : bool :=
  match prefix, s with
  | [], _ => true
  | _ :: _, [] => false
  | p :: prefix', c :: s' => (c =? p)%N && HasPrefix s' prefix'
  end.

Fixpoint Contains (s substr : gostring) : bool :=
  HasPrefix s substr ||
  match s with
  | [] => false
  | _ :: s' => Contains s' substr
  end.

(** The digits of [strconv.ParseInt]: [None] for a byte that is no digit. *)
Fixpoint parse_int_digits (s : list byte) (acc : Z) : option Z :=
  match s with
  | [] => Some acc
  | c :: rest =>
      if (48 <=? c)%N && (c <=? 57)%N
      then parse_int_digits rest (acc * 10 + (Z.of_N c - 48))
      else None
  end.

(** [strconv.ParseInt(s, 10, 64)]: an optional sign, then digits; [None]
    when it returns an error (no digits, a foreign byte, or a value
    outside [int64]). *)
Definition ParseInt64 (s : gostring) : option Z :=
  let '(neg, ds) :=
    match s with
    | c :: rest =>
        if (c =? 43)%N then (false, rest)
        else if (c =? 45)%N then (true, rest)
        else (false, s)
    | [] => (false, [])
    end in
  match ds with
  | [] => None
  | _ =>
      match parse_int_digits ds 0 with
      | None => None
      | Some v =>
          let v := if neg then - v else v in
          if (- 2 ^ 63 <=? v) && (v <=? 2 ^ 63 - 1) then Some v else None
      end
  end.

(** What the line loop of [loadConfig] carries: the settings, the globals
    and its local [scanAddressesStr]. *)
Record ConfigState : Type := mkConfigState {
  cs_settings : Settings;
  cs_globals : Globals;
  cs_addresses : gostring
}.

(** How [loadConfig] ends once the file is open. *)
Inductive config_result : Type :=
| ConfigLoaded                 (* nil, the scanner having met no error *)
| ConfigNoAddresses.           (* "no scan addresses configured" *)

Section LoadConfig.

(** Library functions taken as they are: [strconv.ParseFloat] followed by
    the conversion to a [time.Duration] that line 125 of [main] applies to
    the seconds ([None] when [ParseFloat] returns an error), the runes
    [strings.Map] reads from a string, and the two [unicode] tables. *)
Variable ParseFloat_duration : gostring -> option Z.
Variable runes : gostring -> list Z.
Variable Digit_table : Z -> bool.
Variable White_Space_table : Z -> bool.

(** One line of the file, as the [switch] of lines 245-266 treats it.  The
    scanner is the list of the lines still to come. *)
Definition config_line (line : gostring) (scanner : list gostring)
    (st : ConfigState) : ConfigState * list gostring :=
  let db := cs_settings st in
  let g := cs_globals st in
  if Contains line (bytes_of "db.host") then
    (mkConfigState
       (mkSettings (extractQuotedValue line) (db_User db) (db_Passwd db)
          (db_Name db) (serialDeviceStr db)) g (cs_addresses st), scanner)
  else if Contains line (bytes_of "db.user") then
    (mkConfigState
       (mkSettings (db_Host db) (extractQuotedValue line) (db_Passwd db)
          (db_Name db) (serialDeviceStr db)) g (cs_addresses st), scanner)
  else if Contains line (bytes_of "db.passwd") then
    (mkConfigState
       (mkSettings (db_Host db) (db_User db) (extractQuotedValue line)
          (db_Name db) (serialDeviceStr db)) g (cs_addresses st), scanner)
  else if Contains line (bytes_of "db.name") then
    (mkConfigState
       (mkSettings (db_Host db) (db_User db) (db_Passwd db)
          (extractQuotedValue line) (serialDeviceStr db)) g (cs_addresses st),
     scanner)
  else if Contains line (bytes_of "SerialDevice") then
    (mkConfigState
       (mkSettings (db_Host db) (db_User db) (db_Passwd db) (db_Name db)
          (extractQuotedValue line)) g (cs_addresses st), scanner)
  else if Contains line (bytes_of "minScanDelaySeconds") then
    match ParseFloat_duration (extractQuotedValue line) with
    | Some val =>
        (mkConfigState db (set_minScanDelay val g) (cs_addresses st), scanner)
    | None => (st, scanner)
    end
  else if Contains line (bytes_of "numberOfScans") then
    match ParseInt64 (extractQuotedValue line) with
    | Some val =>
        (mkConfigState db (set_numScans val g) (cs_addresses st), scanner)
    | None => (st, scanner)
    end
  else if Contains line (bytes_of "scanAddresses") then
    let '(value, scanner') := extractAddresses line scanner in
    (mkConfigState db g value, scanner')
  else (st, scanner).

(** The loop [for scanner.Scan()] of lines 243-267; [None] when the
    budget of the model is spent. *)
Fixpoint config_loop (fuel : nat) (scanner : list gostring) (st : ConfigState)
  : option ConfigState :=
  match fuel with
  | O => None
  | S fuel =>
      match scanner with
      | [] => Some st
      | line :: rest =>
          let '(st', rest') := config_line line rest st in
          config_loop fuel rest' st'
      end
  end.

(** The default of line 276. *)
Definition default_device : gostring := bytes_of "/dev/ttyUSB0".

(** What [loadConfig] gives back: how it ended, and the settings and
    globals it leaves. *)
Inductive config_outcome : Type :=
| ConfigDone (r : config_result) (db : Settings) (g : Globals)
| ConfigPanic
| ConfigDiverge.

(** [loadConfig] once the file is open and split into [lines], for a
    scanner that meets no read error. *)
Definition loadConfig (lines : list gostring) (db : Settings) (g : Globals)
  : config_outcome :=
  match config_loop (S (length lines)) lines (mkConfigState db g []) with
  | None => ConfigDiverge
  | Some st =>
      match cs_addresses st with
      | [] => ConfigDone ConfigNoAddresses (cs_settings st) (cs_globals st)
      | astr =>
          match extractAdresses Digit_table White_Space_table (runes astr)
                  (cs_globals st) with
          | None => ConfigPanic
          | Some g' =>
              let db' := cs_settings st in
              let db' :=
                match serialDeviceStr db' with
                | [] => mkSettings (db_Host db') (db_User db') (db_Passwd db')
                          (db_Name db') default_device
                | _ => db'
                end in
              ConfigDone ConfigLoaded db' g'
          end
      end
  end.

End LoadConfig.

(** ** Notions used to state further properties *)

(** The test of the filter loop of [getValue], line 540. *)
Definition keepable (b : byte) : bool :=
  IsPrint (Z.of_N b) || IsSpace (Z.of_N b) || (b =? 0)%N.

(** What the commands leave alone: the configuration and the cursor. *)
Definition same_setup (g g' : Globals) : Prop :=
  maxRetrys g' = maxRetrys g /\ minScanDelay g' = minScanDelay g /\
  numScans g' = numScans g /\ scanAddress g' = scanAddress g /\
  adrCounter g' = adrCounter g /\ numAdresses g' = numAdresses g /\
  (arrays_ok g -> arrays_ok g').

(** What the globals keep through the lines of the file: everything but
    the delay and the scan count. *)
Definition addresses_kept (g g' : Globals) : Prop :=
  numAdresses g' = numAdresses g /\ scanAddress g' = scanAddress g /\
  (arrays_ok g -> arrays_ok g').

(** Every configured slot holds a bus address that fits the counter
    arrays. *)
Definition well_configured (g : Globals) : Prop :=
  arrays_ok g /\
  0 <= numAdresses g <= MAXNUMADR /\
  forall k, 0 <= k < numAdresses g ->
    exists adr, idx (scanAddress g) k = Some adr /\ Z.of_N adr < MAXNUMADR.

Section SchedulerNotions.

Context {W : Type} `{Environment W}.

(** Handing the reading of slot [i] to the database. *)
Definition hand_over (g : Globals) (w : W) (i : nat) : W :=
  writeToPostgres (nth i (serNoStr g) []) (nth i (valueStr g) [])
    (nth i (timestamp g) 0) w.

End SchedulerNotions.

(** ** The states the program reaches *)



(** What [loadConfig] leaves of the globals [g0]: it writes the delay, the
    scan count, the address table and the number of addresses, and
    nothing else. *)
Definition config_frame (g0 g : Globals) : Prop :=
  maxRetrys g = maxRetrys g0 /\ retryCnt g = retryCnt g0 /\
  serNoStr g = serNoStr g0 /\ valueStr g = valueStr g0 /\
  adrCounter g = adrCounter g0 /\ timestamp g = timestamp g0 /\
  msgSent g = msgSent g0 /\ msgReceived g = msgReceived g0 /\
  msgNAK g = msgNAK g0.

(** The globals when [main] has loaded its configuration: the declared
    values, but for what the configuration sets. *)
Definition start_state (g : Globals) : Prop := config_frame initial_globals g.

(** Lines 110-115 of [main]: the traffic counters are set to zero. *)
Definition zero_counters (g : Globals) : Globals :=
  let n := Z.to_nat MAXNUMADR in
  set_msgSent (repeat 0 n)
    (set_msgReceived (repeat 0 n) (set_msgNAK (repeat 0 n) g)).

Section ReachableStates.

Context {W : Type} `{Environment W}.

(** The globals in which the program can call a command or find itself
    after one.  [main] starts from the loaded configuration and zeroes
    the traffic counters; after that the only writes to the globals are
    those of the scan cursor (line 148) and of the two commands,
    whatever the world answers. *)
Inductive reachable : Globals -> Prop :=
| reach_start (g : Globals) :
    start_state g -> reachable g
| reach_counters (g : Globals) :
    reachable g -> reachable (zero_counters g)
| reach_cursor (g : Globals) (k : Z) :
    reachable g -> reachable (set_adrCounter k g)
| reach_serial (g : Globals) (w : W) e g' w' :
    reachable g -> getSerialNumber g w = Done e g' w' -> reachable g'
| reach_measure (g : Globals) (w : W) e g' w' :
    reachable g -> getMeasurement g w = Done e g' w' -> reachable g'.

(** The clock advances while the program sleeps: whatever the time of the
    last scan, some number of the 250 ms sleeps of line 126 brings the
    delay test of line 125 to let the loop through. *)
Definition clock_advances (delay : Z) : Prop :=
  forall (w : W) (lastScan : Z), exists k : nat,
    (time_Since (Nat.iter k (time_Sleep (250 * Millisecond)) w) lastScan
       <? delay) = false.

End ReachableStates.

(** ** A scripted world *)

(** A test double for the serial line: reads are answered from a script (a
    timeout once it is used up), writes are logged and complete unless the
    script says otherwise, sleeping advances the clock, and the database
    keeps what it is handed. *)
Record Sim : Type := mkSim {
  sim_reads : list read_result;
  sim_writes : list write_result;
  sim_sent : list (list byte);
  sim_clock : Z;
  sim_opens : list bool;
  sim_db : list (gostring * gostring * Z)
}.

Definition sim_Write (frame : list byte) (w : Sim) : write_result * Sim :=
  match sim_writes w with
  | [] => (Wrote (Z.of_nat (length frame)),
           mkSim (sim_reads w) [] (sim_sent w ++ [frame]) (sim_clock w)
             (sim_opens w) (sim_db w))
  | r :: rest => (r,
           mkSim (sim_reads w) rest (sim_sent w ++ [frame]) (sim_clock w)
             (sim_opens w) (sim_db w))
  end.

Definition sim_Read (w : Sim) : read_result * Sim :=
  match sim_reads w with
  | [] => (ReadTimeout, w)
  | r :: rest => (r,
           mkSim rest (sim_writes w) (sim_sent w) (sim_clock w)
             (sim_opens w) (sim_db w))
  end.

Definition sim_Open (w : Sim) : bool * Sim :=
  match sim_opens w with
  | [] => (true, w)
  | b :: rest => (b,
           mkSim (sim_reads w) (sim_writes w) (sim_sent w) (sim_clock w)
             rest (sim_db w))
  end.

Definition sim_Sleep (d : Z) (w : Sim) : Sim :=
  mkSim (sim_reads w) (sim_writes w) (sim_sent w) (sim_clock w + d)
    (sim_opens w) (sim_db w).

Definition sim_Persist (sn v : gostring) (t : Z) (w : Sim) : Sim :=
  mkSim (sim_reads w) (sim_writes w) (sim_sent w) (sim_clock w)
    (sim_opens w) (sim_db w ++ [(sn, v, t)]).

#[global] Instance sim_env : Environment Sim := {|
  port_Write := sim_Write;
  port_Read := sim_Read;
  port_Close := fun w => w;
  serial_OpenPort := sim_Open;
  time_Now := sim_clock;
  time_Sleep := sim_Sleep;
  writeToPostgres := sim_Persist
|}.

(** A world whose reads follow [script], at clock [t]. *)
Definition scripted (script : list read_result) (t : Z) : Sim :=
  mkSim script [] [] t [] [].

(** A response frame: the bytes and their checksum. *)
Definition framed (body : list byte) : read_result :=
  ReadBytes (body ++ [xor_all body]).

(** The globals once the configuration named the bus addresses [adrs]. *)
Definition configured (adrs : list byte) : Globals :=
  set_numAdresses (Z.of_nat (length adrs))
    (set_scanAddress
       (adrs ++ repeat 0%N (Z.to_nat MAXNUMADR - length adrs)%nat) initial_globals).

(** ** Scenarios on the scripted world *)

(** One device at bus address 1 in scan slot 0. *)
Definition one_device : Globals := configured [1%N].

Definition nak_frame : read_result := framed [21%N].
Definition ack_frame : read_result := framed [6%N].

(** A device whose last reading is on record: serial number "SN001",
    value "23.5", taken at time 7. *)
Definition with_reading : Globals :=
  set_timestamp (upd (timestamp one_device) 0 7)
    (set_valueStr (upd (valueStr one_device) 0 (bytes_of "23.5"))
       (set_serNoStr (upd (serNoStr one_device) 0 (bytes_of "SN001"))
          one_device)).

(** ** The request frame in closed form *)

(** The frame of the specification's data model. *)
Definition request_frame (chars : gostring) (adr : byte) : list byte :=
  [N.lor adr 128%N] ++ chars ++ [ETX] ++ [xor_all (chars ++ [ETX])].

(** ** Tactics for running the engine *)

Ltac run :=
  unfold bind, ret, get, modify, effect, world, load, panic, diverge in *.

(** Evaluate a closed run and offer its final globals and world. *)
Ltac exists_run t :=
  let v := eval vm_compute in t in
  match v with
  | Done _ ?g ?w => exists g, w
  end.

Ltac by_eval := repeat split; vm_compute; reflexivity.

(** * Properties *)

(** ** The request frame *)

Lemma xor_all_app (l : list byte) (b : byte) :
  xor_all (l ++ [b]) = N.lxor (xor_all l) b.
Proof. unfold xor_all. now rewrite fold_left_app. Qed.

Lemma write_chars_inr chars : forall a bcc buf a' bcc' buf',
  write_chars chars a bcc buf = inr (a', bcc', buf') ->
  a' = a + Z.of_nat (length chars) /\
  bcc' = fold_left N.lxor chars bcc /\
  buf' = buf ++ chars.
Proof.
  induction chars as [|c rest IH]; simpl; intros a bcc buf a' bcc' buf' E.
  - inversion E; subst. rewrite app_nil_r. repeat split; lia.
  - destruct (TXBUFFLEN - 2 <=? a); [discriminate|].
    apply IH in E. destruct E as (-> & -> & ->).
    rewrite <- app_assoc. repeat split; simpl; lia.
Qed.

Lemma write_chars_fits chars : forall a bcc buf,
  a + Z.of_nat (length chars) <= TXBUFFLEN - 2 ->
  write_chars chars a bcc buf =
    inr (a + Z.of_nat (length chars), fold_left N.lxor chars bcc, buf ++ chars).
Proof.
  induction chars as [|c rest IH]; simpl; intros a bcc buf Hfit.
  - rewrite app_nil_r. do 3 f_equal. lia.
  - destruct (Z.leb_spec (TXBUFFLEN - 2) a) as [Hge|Hlt]; [lia|].
    rewrite IH by lia. rewrite <- app_assoc. simpl. do 3 f_equal. lia.
Qed.

Lemma write_chars_room chars : forall a bcc buf r,
  chars <> [] ->
  write_chars chars a bcc buf = inr r ->
  a + Z.of_nat (length chars) <= TXBUFFLEN - 2.
Proof.
  induction chars as [|c rest IH]; simpl; intros a bcc buf r Hne E; [congruence|].
  destruct (Z.leb_spec (TXBUFFLEN - 2) a) as [Hge|Hlt]; [discriminate|].
  destruct rest as [|c' rest'].
  - simpl. lia.
  - apply IH in E; [|discriminate]. simpl length in *. lia.
Qed.

Lemma marker_bit (adr : byte) :
  (adr <= 127)%N -> byte_add adr 128%N = N.lor adr 128%N.
Proof.
  intros Hadr. unfold byte_add.
  rewrite N.mod_small by lia.
  assert (Hland : N.land adr 128 = 0%N).
  { apply N.bits_inj. intros n.
    rewrite N.land_spec, N.bits_0.
    destruct (N.eq_dec n 7%N) as [->|Hne].
    - rewrite (N.testbit_odd adr 7%N), N.shiftr_div_pow2.
      change (2 ^ 7)%N with 128%N. rewrite N.div_small by lia. reflexivity.
    - change 128%N with (2 ^ 7)%N. rewrite N.pow2_bits_false by lia.
      apply andb_false_r. }
  rewrite N.add_nocarry_lxor by exact Hland.
  now apply N.lxor_lor.
Qed.

Lemma build_frame_fits chars adr :
  Z.of_nat (length chars) <= TXBUFFLEN - 3 ->
  build_frame chars adr =
    inr ([byte_add adr 128%N] ++ chars ++ [ETX] ++ [xor_all (chars ++ [ETX])]).
Proof.
  intros Hlen. unfold build_frame.
  rewrite write_chars_fits by lia.
  destruct (Z.leb_spec (TXBUFFLEN - 1) (1 + Z.of_nat (length chars))); [lia|].
  destruct (Z.leb_spec TXBUFFLEN (1 + Z.of_nat (length chars) + 1)); [lia|].
  rewrite xor_all_app. unfold xor_all.
  rewrite <- !app_assoc. reflexivity.
Qed.

Lemma build_frame_inr chars adr frame :
  build_frame chars adr = inr frame ->
  Z.of_nat (length chars) <= TXBUFFLEN - 3 /\
  frame = [byte_add adr 128%N] ++ chars ++ [ETX] ++ [xor_all (chars ++ [ETX])].
Proof.
  intros E.
  assert (Hlen : Z.of_nat (length chars) <= TXBUFFLEN - 3).
  { unfold build_frame in E.
    destruct (write_chars chars 1 0%N [byte_add adr 128%N]) as [e|r] eqn:Ew;
      [discriminate|].
    destruct chars as [|c rest]; [simpl; unfold TXBUFFLEN; lia|].
    apply write_chars_room in Ew; [lia|discriminate]. }
  split; [exact Hlen|].
  rewrite build_frame_fits in E by exact Hlen. now inversion E.
Qed.

Lemma build_frame_long chars adr :
  TXBUFFLEN - 3 < Z.of_nat (length chars) ->
  build_frame chars adr = inl ErrBufferSize.
Proof.
  intros Hlong. unfold build_frame.
  assert (Hgen : forall cs a bcc buf,
             TXBUFFLEN - 2 < a + Z.of_nat (length cs) ->
             a <= TXBUFFLEN - 2 ->
             write_chars cs a bcc buf = inl ErrBufferSize).
  { induction cs as [|c rest IH]; simpl; intros a bcc buf H1 H2; [lia|].
    destruct (Z.leb_spec (TXBUFFLEN - 2) a); [reflexivity|].
    apply IH; lia. }
  rewrite Hgen; [reflexivity|lia|unfold TXBUFFLEN; lia].
Qed.

(** ** The response frame *)

Lemma idx_last {A} (l : list A) (x : A) :
  idx (l ++ [x]) (Z.of_nat (length l)) = Some x.
Proof.
  unfold idx. destruct (Z.ltb_spec (Z.of_nat (length l)) 0); [lia|].
  rewrite Nat2Z.id. now apply list_lookup_middle.
Qed.

Lemma upd_last {A} (l : list A) (x y : A) :
  upd (l ++ [x]) (Z.of_nat (length l)) y = l ++ [y].
Proof.
  unfold upd. destruct (Z.ltb_spec (Z.of_nat (length l)) 0); [lia|].
  rewrite Nat2Z.id.
  replace (length l) with (length l + 0)%nat at 1 by lia.
  now rewrite insert_app_r.
Qed.

Lemma idx_head {A} (l : list A) (x : A) :
  idx (l ++ [x]) 0 = Some (hd x l).
Proof. unfold idx. simpl. now destruct l. Qed.

(** A frame of at least one byte passes exactly when its last byte is the
    XOR of the others; it then yields its first byte and no text. *)
Lemma check_frame_spec (body : list byte) (c : byte) :
  check_frame (body ++ [c]) =
    if (xor_all body =? c)%N then inr (hd 0%N body, []) else inl ErrBCC.
Proof.
  unfold check_frame.
  rewrite length_app, Nat2Z.inj_add. simpl length.
  destruct (Z.leb_spec (Z.of_nat (length body) + Z.of_nat 1) 0); [lia|].
  replace (Z.of_nat (length body) + Z.of_nat 1 - 1)
    with (Z.of_nat (length body)) by lia.
  rewrite Nat2Z.id, take_app_length, idx_last.
  destruct (xor_all body =? c)%N eqn:E; simpl; [|reflexivity].
  now rewrite upd_last, idx_head.
Qed.

Lemma post_process_nil : post_process [] = [].
Proof. reflexivity. Qed.

Lemma decodeResponse_spec (body : list byte) (c : byte) :
  decodeResponse (body ++ [c]) =
    if (xor_all body =? c)%N then inr (hd 0%N body, []) else inl ErrBCC.
Proof.
  unfold decodeResponse. rewrite check_frame_spec.
  now destruct (xor_all body =? c)%N.
Qed.

(** Whatever [check_frame] accepts, it hands on no text. *)
Lemma check_frame_no_text (raw : list byte) (s : byte) (t : gostring) :
  check_frame raw = inr (s, t) -> t = [].
Proof.
  destruct (rev raw) as [|c ydob] eqn:Er.
  - apply (f_equal (@rev N)) in Er. rewrite rev_involutive in Er. subst raw.
    discriminate.
  - apply (f_equal (@rev N)) in Er. rewrite rev_involutive in Er. subst raw.
    simpl rev. rewrite check_frame_spec.
    destruct (_ =? c)%N; [|discriminate]. now inversion 1.
Qed.

Lemma fold_lxor_shift (l : list byte) (a d : N) :
  fold_left N.lxor l (N.lxor a d) = N.lxor (fold_left N.lxor l a) d.
Proof.
  revert a. induction l as [|p l IH]; intros a; simpl; [reflexivity|].
  rewrite <- IH. f_equal.
  rewrite !N.lxor_assoc. f_equal. apply N.lxor_comm.
Qed.

(** Flipping bit [k] of one byte changes the XOR of the list. *)
Lemma xor_all_flip (pre post : list byte) (b : byte) (k : N) :
  xor_all (pre ++ N.lxor b (2 ^ k) :: post) =
  N.lxor (xor_all (pre ++ b :: post)) (2 ^ k).
Proof.
  unfold xor_all. rewrite !fold_left_app. simpl.
  rewrite <- N.lxor_assoc. apply fold_lxor_shift.
Qed.

Lemma lxor_pow2_neq (x k : N) : N.lxor x (2 ^ k) <> x.
Proof.
  intros E.
  assert (E' : N.lxor (N.lxor x (2 ^ k)) x = 0%N)
    by (rewrite E; apply N.lxor_nilpotent).
  rewrite (N.lxor_comm x), N.lxor_assoc, N.lxor_nilpotent, N.lxor_0_r in E'.
  assert (2 ^ k <> 0)%N by (apply N.pow_nonzero; lia). contradiction.
Qed.

(** C8. For a device address in 0..127 the frame built for a command is the
    address with the marker bit set, the command bytes, the end-of-text
    byte and the XOR of command bytes and end-of-text byte (the address is
    left out of the checksum); a command of at most [TXBUFFLEN - 3] bytes
    always encodes, this frame is what [WriteStrPort] hands to the port, and
    a longer command is refused before anything is written. *)
Theorem request_frame_on_the_wire {W} `{Environment W}
    (chars : gostring) (adr : byte) :
  (adr <= 127)%N ->
  (forall frame, encodeRequest chars adr = inr frame ->
     frame = [N.lor adr 128%N] ++ chars ++ [ETX] ++ [xor_all (chars ++ [ETX])]) /\
  (Z.of_nat (length chars) <= TXBUFFLEN - 3 ->
     encodeRequest chars adr = inr (request_frame chars adr) /\
     forall g w,
       WriteStrPort chars adr g w =
         let '(r, w') := port_Write (request_frame chars adr) w in
         let a := Z.of_nat (length (request_frame chars adr)) in
         match r with
         | WriteFailed => Done (Some ErrWriteFailed) g w'
         | Wrote n =>
             Done (if n =? a then None else Some (ErrIncompleteWrite a n)) g w'
         end) /\
  (TXBUFFLEN - 3 < Z.of_nat (length chars) ->
     forall g w, WriteStrPort chars adr g w = Done (Some ErrBufferSize) g w).
Proof.
  intros Hadr. unfold encodeRequest, request_frame.
  rewrite <- (marker_bit adr Hadr).
  split; [|split].
  - intros frame E. now apply build_frame_inr in E.
  - intros Hlen. pose proof (build_frame_fits chars adr Hlen) as E.
    split; [exact E|].
    intros g w. unfold WriteStrPort. rewrite E.
    unfold bind, world, ret.
    destruct (port_Write _ w) as [r w'].
    destruct r as [|n]; [reflexivity|].
    now destruct (n =? _).
  - intros Hlong g w. unfold WriteStrPort.
    now rewrite build_frame_long.
Qed.

Lemma request_frame_on_the_wire_witness :
  encodeRequest cmd_SN 1%N = inr [129; 83; 78; 32; 63; 3; 1]%N.
Proof.
  destruct (request_frame_on_the_wire (W := Sim) cmd_SN 1%N) as (_ & Hfit & _).
  - lia.
  - destruct Hfit as [E _].
    + vm_compute. discriminate.
    + exact E.
Defined.

(** C7. A frame of at least one byte decodes only if its last byte is the
    XOR of all the bytes before it, and otherwise fails with the checksum
    error; so flipping one bit of any byte but the last of a frame whose
    checksum was right makes decoding fail with the checksum error.  A
    read of zero bytes fails with the no-data error. *)
Theorem checksum_gate {W} `{Environment W} (body : list byte) (c : byte) :
  ((exists s t, decodeResponse (body ++ [c]) = inr (s, t)) <-> c = xor_all body) /\
  (c <> xor_all body -> decodeResponse (body ++ [c]) = inl ErrBCC) /\
  (forall pre b post k,
     body = pre ++ b :: post -> c = xor_all body -> (k < 8)%N ->
     decodeResponse ((pre ++ N.lxor b (2 ^ k) :: post) ++ [c]) = inl ErrBCC) /\
  decodeResponse [] = inl ErrNoData /\
  (forall g w w',
     port_Read w = (ReadBytes [], w') ->
     ReadStrPort g w = Done (inl ErrNoData) g w').
Proof.
  repeat split.
  - intros (s & t & E). rewrite decodeResponse_spec in E.
    destruct (N.eqb_spec (xor_all body) c); [congruence|discriminate].
  - intros ->. rewrite decodeResponse_spec, N.eqb_refl. eauto.
  - intros Hne. rewrite decodeResponse_spec.
    destruct (N.eqb_spec (xor_all body) c); [congruence|reflexivity].
  - intros pre b post k -> -> Hk.
    rewrite decodeResponse_spec, xor_all_flip.
    destruct (N.eqb_spec (N.lxor (xor_all (pre ++ b :: post)) (2 ^ k))
                (xor_all (pre ++ b :: post))) as [E|]; [|reflexivity].
    now apply lxor_pow2_neq in E.
  - intros g w w' Hr. unfold ReadStrPort, bind, world, ret.
    now rewrite Hr.
Qed.

Lemma checksum_gate_witness :
  decodeResponse [6; 50; 51; 3; 4]%N = inr (6%N, []) /\
  decodeResponse [6; 50; 55; 3; 4]%N = inl ErrBCC.
Proof.
  destruct (checksum_gate (W := Sim) [6; 50; 51; 3]%N 4%N) as (_ & _ & Hflip & _).
  split; [reflexivity|].
  apply (Hflip [6; 50]%N 51%N [3]%N 2%N); [reflexivity|reflexivity|lia].
Defined.

(** C1 (the code departs from it). Every frame with a right checksum
    decodes to its first byte and the EMPTY text, whatever lies between
    the status byte and the end-of-text byte: [ReadStrPort] returns the
    empty string, so the filter of [getValue] never sees the payload. *)
Theorem decoded_text_is_empty (status : byte) (payload : list byte) :
  decodeResponse
    ((status :: payload ++ [ETX]) ++ [xor_all (status :: payload ++ [ETX])])
  = inr (status, []).
Proof. rewrite decodeResponse_spec, N.eqb_refl. reflexivity. Qed.

(** At the failing input: an ACK frame that echoes the command "SN ?". *)
Example decoded_text_lost :
  decodeResponse [6; 83; 78; 32; 63; 3; 7]%N = inr (6%N, []) /\
  post_process cmd_SN = cmd_SN.
Proof. split; reflexivity. Qed.

(** ** Arrays *)

Lemma idx_range {A} (l : list A) (i : Z) (x : A) :
  idx l i = Some x -> 0 <= i < Z.of_nat (length l).
Proof.
  unfold idx. destruct (Z.ltb_spec i 0); [discriminate|].
  intros E. apply lookup_lt_Some in E. lia.
Qed.

Lemma idx_in_range {A} (l : list A) (i : Z) :
  0 <= i < Z.of_nat (length l) -> exists x, idx l i = Some x.
Proof.
  intros Hi. unfold idx. destruct (Z.ltb_spec i 0); [lia|].
  destruct (lookup_lt_is_Some_2 l (Z.to_nat i)) as [x Hx]; [lia|eauto].
Qed.

Lemma idx_out_of_range {A} (l : list A) (i : Z) :
  Z.of_nat (length l) <= i -> idx l i = None.
Proof.
  intros Hi. unfold idx. destruct (Z.ltb_spec i 0); [reflexivity|].
  apply lookup_ge_None_2. lia.
Qed.

Lemma length_upd {A} (l : list A) (i : Z) (v : A) :
  length (upd l i v) = length l.
Proof. unfold upd. destruct (i <? 0); [reflexivity|apply length_insert]. Qed.

Lemma idx_upd_eq {A} (l : list A) (i : Z) (x v : A) :
  idx l i = Some x -> idx (upd l i v) i = Some v.
Proof.
  unfold idx, upd. destruct (Z.ltb_spec i 0); [discriminate|].
  intros E. apply list_lookup_insert_eq. now apply lookup_lt_Some in E.
Qed.

Lemma idx_upd_ne {A} (l : list A) (i j : Z) (v : A) :
  i <> j -> idx (upd l i v) j = idx l j.
Proof.
  intros Hne. unfold idx, upd.
  destruct (Z.ltb_spec j 0); [reflexivity|].
  destruct (Z.ltb_spec i 0); [reflexivity|].
  apply list_lookup_insert_ne. lia.
Qed.

Lemma upd_upd {A} (l : list A) (i : Z) (u v : A) :
  upd (upd l i u) i v = upd l i v.
Proof.
  unfold upd. destruct (i <? 0); [reflexivity|apply list_insert_insert_eq].
Qed.

(** ** The device session *)

Section EngineFacts.

Context {W : Type} `{Environment W}.

Lemma WriteStrPort_globals chars adr g w r g' w' :
  WriteStrPort chars adr g w = Done r g' w' -> g' = g.
Proof.
  unfold WriteStrPort. destruct (build_frame chars adr) as [e|frame]; run.
  - now inversion 1.
  - destruct (port_Write frame w) as [[|n] w1].
    + now inversion 1.
    + destruct (negb _); now inversion 1.
Qed.

Lemma WriteStrPort_returns chars adr g w :
  exists r w', WriteStrPort chars adr g w = Done r g w'.
Proof.
  unfold WriteStrPort. destruct (build_frame chars adr) as [e|frame]; run.
  - eauto.
  - destruct (port_Write frame w) as [[|n] w1]; [eauto|].
    destruct (negb _); eauto.
Qed.

Lemma ReadStrPort_returns g w :
  ReadStrPort g w = Done (read_frame (fst (port_Read w))) g (snd (port_Read w)).
Proof. unfold ReadStrPort. run. now destruct (port_Read w). Qed.

Lemma read_frame_no_text r s t : read_frame r = inr (s, t) -> t = [].
Proof.
  destruct r as [| |raw]; simpl; try discriminate.
  apply check_frame_no_text.
Qed.

(** What a returned [getValue] has done to the globals: the string cell is
    empty, the two traffic counters may have moved, nothing else has. *)
Lemma msgSent_store ref t g : msgSent (store ref t g) = msgSent g.
Proof. now destruct ref. Qed.

Lemma msgReceived_store ref t g : msgReceived (store ref t g) = msgReceived g.
Proof. now destruct ref. Qed.

Lemma getValue_shape ref cmd adr g w r g' w' :
  getValue ref cmd adr g w = Done r g' w' ->
  exists ms mr,
    g' = set_msgReceived mr (set_msgSent ms (store ref [] g)) /\
    length ms = length (msgSent g) /\
    length mr = length (msgReceived g) /\
    (0 <= fst r) /\
    (snd r <> None -> fst r = 0).
Proof.
  unfold getValue. unfold bind at 1. unfold modify at 1.
  unfold bind at 1.
  destruct (WriteStrPort_returns cmd adr (store ref [] g) w) as (werr & w1 & Ew).
  rewrite Ew. destruct werr as [e|].
  - run. inversion 1; subst. exists (msgSent g), (msgReceived g).
    split; [now destruct ref|]. simpl. repeat split; lia.
  - unfold bind at 1. unfold load at 1.
    rewrite msgSent_store.
    destruct (idx (msgSent g) (Z.of_N adr)) as [sent|] eqn:Es; [|discriminate].
    unfold bind at 1. unfold modify at 1.
    unfold bind at 1. unfold effect at 1.
    unfold bind at 1. rewrite ReadStrPort_returns.
    destruct (read_frame _) as [e|[readChar bufStr]] eqn:Er.
    + run. inversion 1; subst.
      exists (upd (msgSent g) (Z.of_N adr) (int64_incr sent)), (msgReceived g).
      split; [now destruct ref|]. rewrite length_upd. simpl. repeat split; lia.
    + apply read_frame_no_text in Er. subst bufStr.
      unfold bind at 1. unfold load at 1.
      replace (msgReceived (set_msgSent _ (store ref [] g)))
        with (msgReceived g) by now destruct ref.
      destruct (idx (msgReceived g) (Z.of_N adr)) as [received|] eqn:Erc;
        [|discriminate].
      run. inversion 1; subst.
      exists (upd (msgSent g) (Z.of_N adr) (int64_incr sent)),
             (upd (msgReceived g) (Z.of_N adr) (int64_incr received)).
      rewrite post_process_nil, !length_upd.
      split; [destruct ref; simpl; unfold set_msgReceived, set_msgSent,
                set_serNoStr, set_valueStr; simpl; now rewrite upd_upd|].
      cbn [fst snd]. repeat split; [lia|congruence].
Qed.

(** *** The retry loops *)

Lemma query_shape ref arr cmd (g : Globals) (w : W) r g' w' :
  query ref arr cmd g w = Done r g' w' ->
  exists x adr,
    idx (arr g) (adrCounter g) = Some x /\
    idx (scanAddress g) (adrCounter g) = Some adr /\
    getValue (ref (adrCounter g)) cmd adr g w = Done r g' w'.
Proof.
  unfold query. run.
  destruct (idx (arr g) (adrCounter g)) as [x|]; [|discriminate].
  destruct (idx (scanAddress g) (adrCounter g)) as [adr|]; [|discriminate].
  eauto.
Qed.

Lemma retry_post_shape (g : Globals) (w : W) g' w' :
  retry_post g w = Done tt g' w' ->
  exists rc,
    cur_retry g = Some rc /\
    g' = set_retryCnt (upd (retryCnt g) (adrCounter g) (rc + 1)) g /\ w' = w.
Proof.
  unfold retry_post, load_cur, cur_retry. run.
  destruct (idx (retryCnt g) (adrCounter g)) as [rc|]; [|discriminate].
  inversion 1; subst. eauto.
Qed.

Lemma nak_incr_shape (g : Globals) (w : W) g' w' :
  nak_incr g w = Done tt g' w' ->
  exists n,
    idx (msgNAK g) (adrCounter g) = Some n /\
    g' = set_msgNAK (upd (msgNAK g) (adrCounter g) (int64_incr n)) g /\ w' = w.
Proof.
  unfold nak_incr, load_cur. run.
  destruct (idx (msgNAK g) (adrCounter g)) as [n|]; [|discriminate].
  inversion 1; subst. eauto.
Qed.

(** A round of the serial-number loop breaks on every answer without an
    error and moves on, with status 0, on every error; it never reaches
    its NAK branch. *)
Lemma sn_round_shape g w c g1 w1 :
  sn_round g w = Done c g1 w1 ->
  exists r ms mr,
    query SerNoRef serNoStr cmd_SN g w = Done r g1 w1 /\
    g1 = set_msgReceived mr
           (set_msgSent ms (store (SerNoRef (adrCounter g)) [] g)) /\
    length ms = length (msgSent g) /\
    length mr = length (msgReceived g) /\
    ((snd r = None /\ c = Break None) \/
     (exists e, r = (0, Some e) /\ c = Next 0 (Some e))).
Proof.
  unfold sn_round. unfold bind at 1.
  destruct (query SerNoRef serNoStr cmd_SN g w) as [[ps err] g2 w2| |] eqn:Eq;
    try discriminate.
  pose proof Eq as Eq'.
  apply query_shape in Eq' as (x & adr & _ & _ & Eg).
  apply getValue_shape in Eg as (ms & mr & -> & Hms & Hmr & Hps & Herr).
  cbn [fst snd] in *.
  destruct err as [e|].
  - rewrite Herr by congruence. simpl. run. inversion 1; subst.
    exists (0, Some e), ms, mr. rewrite Herr in Eq by congruence.
    repeat split; eauto.
  - unfold sn_success. simpl.
    destruct (Z.leb_spec 0 ps); [|lia].
    run. inversion 1; subst.
    exists (ps, None), ms, mr. repeat split; eauto.
Qed.

(** A round of the measurement loop: it breaks, stamping the time, exactly
    on an ACK without error; otherwise it moves on, counting a NAK. *)
Lemma mea_round_shape g w c g1 w1 :
  mea_round g w = Done c g1 w1 ->
  exists ps err gq,
    query ValueRef valueStr cmd_MEA g w = Done (ps, err) gq w1 /\
    (exists ms mr,
       gq = set_msgReceived mr
              (set_msgSent ms (store (ValueRef (adrCounter g)) [] g)) /\
       length ms = length (msgSent g) /\
       length mr = length (msgReceived g)) /\
    ((mea_success ps err = true /\ c = Break err /\ err = None /\ ps = ACK /\
      exists t0,
        idx (timestamp g) (adrCounter g) = Some t0 /\
        g1 = set_timestamp (upd (timestamp g) (adrCounter g) (time_Now w1)) gq) \/
     (mea_success ps err = false /\ c = Next ps err /\ ps = NAK /\
      exists n,
        idx (msgNAK g) (adrCounter g) = Some n /\
        g1 = set_msgNAK (upd (msgNAK g) (adrCounter g) (int64_incr n)) gq) \/
     (mea_success ps err = false /\ c = Next ps err /\ ps <> NAK /\ g1 = gq)).
Proof.
  unfold mea_round. unfold bind at 1.
  destruct (query ValueRef valueStr cmd_MEA g w) as [[ps err] g2 w2| |] eqn:Eq;
    try discriminate.
  pose proof Eq as Eq'.
  apply query_shape in Eq' as (x & adr & _ & _ & Eg).
  apply getValue_shape in Eg as (ms & mr & -> & Hms & Hmr & Hps & Herr).
  cbn [fst snd] in *.
  destruct (mea_success ps err) eqn:Es.
  - unfold load_cur. run. simpl.
    destruct (idx (timestamp g) (adrCounter g)) as [t0|] eqn:Et; [|discriminate].
    inversion 1; subst.
    pose proof Es as Es'.
    unfold mea_success in Es'. apply andb_true_iff in Es' as [Hnil Hack].
    apply Z.eqb_eq in Hack. destruct err; [discriminate|].
    exists ps, None. eexists. split; [reflexivity|].
    split; [exists ms, mr; auto|]. left. repeat split; eauto.
  - destruct (Z.eqb_spec ps NAK) as [->|Hne].
    + unfold bind at 1.
      destruct (nak_incr _ w2) as [[] g3 w3| |] eqn:En; try discriminate.
      apply nak_incr_shape in En as (n & Hn & -> & ->).
      run. inversion 1; subst.
      exists NAK, err. eexists. split; [reflexivity|].
      split; [exists ms, mr; auto|]. right. left.
      repeat split; eauto.
    + run. inversion 1; subst.
      exists ps, err. eexists. split; [reflexivity|].
      split; [exists ms, mr; auto|]. right. right. auto.
Qed.

(** The proof rule of the retry loop: an invariant [Inv] kept by every
    round that moves on, and a result [Post] met at [break] and when the
    guard fails. *)
Lemma retry_loop_rule (body : M W round_end)
    (Inv : Z -> goerror -> Globals -> W -> Prop)
    (Post : goerror -> Globals -> W -> Prop) :
  (forall ps e g w rc c g1 w1,
      Inv ps e g w -> cur_retry g = Some rc -> rc < maxRetrys g ->
      body g w = Done c g1 w1 ->
      match c with
      | Break e' => Post e' g1 w1
      | Next ps' e' =>
          forall g2, retry_post g1 w1 = Done tt g2 w1 -> Inv ps' e' g2 w1
      end) ->
  (forall ps e g w rc,
      Inv ps e g w -> cur_retry g = Some rc -> maxRetrys g <= rc -> Post e g w) ->
  forall fuel ps e g w e' g' w',
    Inv ps e g w ->
    retry_loop body fuel ps e g w = Done e' g' w' ->
    Post e' g' w'.
Proof.
  intros Hstep Hexit.
  induction fuel as [|fuel IH]; intros ps e g w e' g' w' Hinv Hrun;
    [discriminate|].
  simpl in Hrun. unfold load_cur in Hrun. run.
  destruct (idx (retryCnt g) (adrCounter g)) as [rc|] eqn:Erc; [|discriminate].
  destruct (Z.ltb_spec rc (maxRetrys g)) as [Hlt|Hge].
  - destruct (body g w) as [c g1 w1| |] eqn:Eb; try discriminate.
    pose proof (Hstep ps e g w rc c g1 w1 Hinv Erc Hlt Eb) as Hc.
    destruct c as [eb|ps' e'0].
    + now inversion Hrun; subst.
    + destruct (retry_post g1 w1) as [[] g2 w2| |] eqn:Ep; try discriminate.
      pose proof Ep as Ep'. apply retry_post_shape in Ep' as (? & _ & _ & ->).
      eapply IH; [|exact Hrun]. now apply Hc.
  - inversion Hrun; subst. eapply Hexit; eauto.
Qed.

(** *** The loops return *)

Lemma ready_cell {A} (arr : Globals -> list A) (g : Globals) :
  ready g -> length (arr g) = Z.to_nat MAXNUMADR ->
  exists x, idx (arr g) (adrCounter g) = Some x.
Proof.
  intros (_ & Hcur & _) Hlen. apply idx_in_range.
  rewrite Hlen. unfold MAXNUMADR in *. lia.
Qed.

Lemma ready_session ref ms mr g :
  ready g ->
  length ms = length (msgSent g) -> length mr = length (msgReceived g) ->
  ready (set_msgReceived mr (set_msgSent ms (store ref [] g))).
Proof.
  intros (Hok & Hcur & Hadr) Hms Hmr.
  unfold ready, arrays_ok in *.
  destruct ref; simpl; rewrite ?length_upd; intuition congruence.
Qed.

Lemma ready_retryCnt v g :
  ready g -> ready (set_retryCnt (upd (retryCnt g) (adrCounter g) v) g).
Proof.
  intros (Hok & Hcur & Hadr). unfold ready, arrays_ok in *.
  simpl; rewrite ?length_upd; intuition congruence.
Qed.

Lemma ready_msgNAK v g :
  ready g -> ready (set_msgNAK (upd (msgNAK g) (adrCounter g) v) g).
Proof.
  intros (Hok & Hcur & Hadr). unfold ready, arrays_ok in *.
  simpl; rewrite ?length_upd; intuition congruence.
Qed.

Lemma ready_timestamp v g :
  ready g -> ready (set_timestamp (upd (timestamp g) (adrCounter g) v) g).
Proof.
  intros (Hok & Hcur & Hadr). unfold ready, arrays_ok in *.
  simpl; rewrite ?length_upd; intuition congruence.
Qed.

Lemma ready_serNoStr v g :
  ready g -> ready (set_serNoStr (upd (serNoStr g) (adrCounter g) v) g).
Proof.
  intros (Hok & Hcur & Hadr). unfold ready, arrays_ok in *.
  simpl; rewrite ?length_upd; intuition congruence.
Qed.

(** With room in the counter arrays for the address, [getValue] returns. *)
Lemma getValue_returns ref cmd adr g w :
  Z.of_N adr < Z.of_nat (length (msgSent g)) ->
  Z.of_N adr < Z.of_nat (length (msgReceived g)) ->
  exists r g' w', getValue ref cmd adr g w = Done r g' w'.
Proof.
  intros Hs Hr.
  unfold getValue. unfold bind at 1. unfold modify at 1.
  unfold bind at 1.
  destruct (WriteStrPort_returns cmd adr (store ref [] g) w) as (werr & w1 & Ew).
  rewrite Ew. destruct werr as [e|]; [run; eauto|].
  unfold bind at 1. unfold load at 1. rewrite msgSent_store.
  destruct (idx_in_range (msgSent g) (Z.of_N adr)) as [sent Es]; [lia|].
  rewrite Es.
  unfold bind at 1. unfold modify at 1.
  unfold bind at 1. unfold effect at 1.
  unfold bind at 1. rewrite ReadStrPort_returns.
  destruct (read_frame _) as [e|[readChar bufStr]]; [run; eauto|].
  unfold bind at 1. unfold load at 1.
  replace (msgReceived (set_msgSent _ (store ref [] g)))
    with (msgReceived g) by now destruct ref.
  destruct (idx_in_range (msgReceived g) (Z.of_N adr)) as [rcv Erc]; [lia|].
  rewrite Erc. run. eauto.
Qed.

Lemma query_returns ref arr cmd g w :
  ready g -> length (arr g) = Z.to_nat MAXNUMADR ->
  exists r g' w', query ref arr cmd g w = Done r g' w'.
Proof.
  intros Hready Harr.
  destruct (ready_cell arr g Hready Harr) as [x Hx].
  destruct Hready as (Hok & Hcur & adr & Hadr & Hlt).
  unfold query. run. rewrite Hx, Hadr.
  unfold arrays_ok in Hok.
  apply getValue_returns; unfold MAXNUMADR in *; lia.
Qed.

Lemma sn_round_steady : steady sn_round.
Proof.
  intros g w Hready.
  destruct (query_returns SerNoRef serNoStr cmd_SN g w Hready)
    as ([ps err] & gq & wq & Eq); [apply Hready|].
  destruct (sn_round g w) as [c g1 w1| |] eqn:Er.
  - exists c, g1, w1. split; [reflexivity|].
    apply sn_round_shape in Er as (r & ms & mr & _ & -> & Hms & Hmr & _).
    split; [now apply ready_session|]. split; reflexivity.
  - unfold sn_round in Er. unfold bind at 1 in Er. rewrite Eq in Er.
    apply query_shape in Eq as (? & ? & _ & _ & Eg).
    apply getValue_shape in Eg as (ms & mr & -> & _ & _ & Hps & Herr).
    cbn [fst snd] in *. unfold sn_success in Er.
    destruct err as [e|]; simpl in Er.
    + rewrite Herr in Er by congruence. discriminate.
    + destruct (Z.leb_spec 0 ps); [discriminate|lia].
  - unfold sn_round in Er. unfold bind at 1 in Er. rewrite Eq in Er.
    apply query_shape in Eq as (? & ? & _ & _ & Eg).
    apply getValue_shape in Eg as (ms & mr & -> & _ & _ & Hps & Herr).
    cbn [fst snd] in *. unfold sn_success in Er.
    destruct err as [e|]; simpl in Er.
    + rewrite Herr in Er by congruence. discriminate.
    + destruct (Z.leb_spec 0 ps); [discriminate|lia].
Qed.

Lemma mea_round_steady : steady mea_round.
Proof.
  intros g w Hready.
  destruct (query_returns ValueRef valueStr cmd_MEA g w Hready)
    as ([ps err] & gq & wq & Eq); [apply Hready|].
  pose proof Eq as Eq'.
  apply query_shape in Eq' as (? & ? & _ & _ & Eg).
  apply getValue_shape in Eg as (ms & mr & Hgq & Hms & Hmr & _).
  assert (Hrq : ready gq) by (subst gq; now apply ready_session).
  assert (Hcq : adrCounter gq = adrCounter g) by (now subst gq).
  destruct (mea_round g w) as [c g1 w1| |] eqn:Er.
  - exists c, g1, w1. split; [reflexivity|].
    apply mea_round_shape in Er
      as (ps' & err' & gq' & Eq2 & _ & Hcases).
    rewrite Eq in Eq2. inversion Eq2; subst ps' err' gq' w1. clear Eq2.
    subst gq.
    destruct Hcases as [(_ & _ & _ & _ & t0 & _ & ->)
                       |[(_ & _ & _ & n & _ & ->)|(_ & _ & _ & ->)]].
    + split; [exact (ready_timestamp _ _ Hrq)|]. split; reflexivity.
    + split; [exact (ready_msgNAK _ _ Hrq)|]. split; reflexivity.
    + split; [assumption|]. split; reflexivity.
  - exfalso. unfold mea_round in Er. unfold bind at 1 in Er. rewrite Eq in Er.
    destruct (mea_success ps err).
    + destruct (ready_cell timestamp gq Hrq) as [t0 Ht]; [apply Hrq|].
      unfold load_cur in Er. run. rewrite Ht in Er. discriminate.
    + destruct (ps =? NAK); [|discriminate].
      destruct (ready_cell msgNAK gq Hrq) as [n Hn]; [apply Hrq|].
      unfold nak_incr, load_cur in Er. run. rewrite Hn in Er. discriminate.
  - exfalso. unfold mea_round in Er. unfold bind at 1 in Er. rewrite Eq in Er.
    destruct (mea_success ps err).
    + destruct (ready_cell timestamp gq Hrq) as [t0 Ht]; [apply Hrq|].
      unfold load_cur in Er. run. rewrite Ht in Er. discriminate.
    + destruct (ps =? NAK); [|discriminate].
      destruct (ready_cell msgNAK gq Hrq) as [n Hn]; [apply Hrq|].
      unfold nak_incr, load_cur in Er. run. rewrite Hn in Er. discriminate.
Qed.

(** With a steady body the loop returns: every round that moves on brings
    the counter one step closer to [maxRetrys]. *)
Lemma retry_loop_returns (body : M W round_end) :
  steady body ->
  forall fuel ps e g w rc,
    ready g -> cur_retry g = Some rc ->
    (Z.to_nat (maxRetrys g - rc) < fuel)%nat ->
    exists e' g' w', retry_loop body fuel ps e g w = Done e' g' w'.
Proof.
  intros Hbody.
  induction fuel as [|fuel IH]; intros ps e g w rc Hready Hrc Hfuel; [lia|].
  simpl. unfold load_cur. run. unfold cur_retry in Hrc. rewrite Hrc.
  destruct (Z.ltb_spec rc (maxRetrys g)) as [Hlt|Hge]; [|eauto].
  destruct (Hbody g w Hready) as (c & g1 & w1 & -> & Hr1 & Hc1 & Hm1).
  destruct c as [eb|ps' e'']; [eauto|].
  unfold retry_post, load_cur. run.
  unfold cur_retry in Hc1. rewrite Hc1, Hrc.
  eapply (IH ps' e'' _ w1 (rc + 1)).
  - now apply ready_retryCnt.
  - unfold cur_retry. simpl. eapply idx_upd_eq. rewrite Hc1. exact Hrc.
  - simpl. rewrite Hm1. lia.
Qed.

(** *** The two commands *)

Lemma getSerialNumber_unfold (g : Globals) (w : W) :
  ready g ->
  getSerialNumber g w = retry_loop sn_round (retry_fuel g) 0 None (sn_start g) w.
Proof.
  intros Hready.
  destruct (ready_cell serNoStr g Hready) as [s0 Hs]; [apply Hready|].
  destruct (ready_cell retryCnt g Hready) as [r0 Hr]; [apply Hready|].
  unfold getSerialNumber, load_cur. run. rewrite Hs. simpl. rewrite Hr.
  reflexivity.
Qed.

Lemma getMeasurement_unfold (g : Globals) (w : W) :
  getMeasurement g w =
    retry_loop mea_round (retry_fuel g) 0 None g (snd (port_Read w)).
Proof.
  unfold getMeasurement. unfold bind at 1. rewrite ReadStrPort_returns.
  reflexivity.
Qed.

Lemma ready_sn_start g : ready g -> ready (sn_start g).
Proof.
  intros Hready. unfold sn_start.
  exact (ready_retryCnt 0 _ (ready_serNoStr [] g Hready)).
Qed.

Lemma cur_retry_sn_start g : ready g -> cur_retry (sn_start g) = Some 0.
Proof.
  intros Hready.
  destruct (ready_cell retryCnt g Hready) as [r0 Hr]; [apply Hready|].
  unfold cur_retry, sn_start. simpl. eapply idx_upd_eq. exact Hr.
Qed.

(** [getSerialNumber] returns whenever the cursor is in order. *)
Lemma getSerialNumber_returns (g : Globals) (w : W) :
  ready g ->
  exists e g' w', getSerialNumber g w = Done e g' w'.
Proof.
  intros Hready. rewrite getSerialNumber_unfold by assumption.
  eapply retry_loop_returns.
  - exact sn_round_steady.
  - now apply ready_sn_start.
  - now apply cur_retry_sn_start.
  - unfold retry_fuel. simpl. lia.
Qed.

(** [getMeasurement] returns whenever the cursor is in order. *)
Lemma getMeasurement_returns (g : Globals) (w : W) rc :
  ready g -> cur_retry g = Some rc -> 0 <= rc ->
  exists e g' w', getMeasurement g w = Done e g' w'.
Proof.
  intros Hready Hrc Hpos. rewrite getMeasurement_unfold.
  eapply retry_loop_returns.
  - exact mea_round_steady.
  - assumption.
  - exact Hrc.
  - unfold retry_fuel. lia.
Qed.

(** What every return of [getSerialNumber] satisfies. *)
Lemma getSerialNumber_post (g : Globals) (w : W) e g' w' :
  ready g ->
  getSerialNumber g w = Done e g' w' ->
  timestamp g' = timestamp g /\
  valueStr g' = valueStr g /\
  serNoStr g' = upd (serNoStr g) (adrCounter g) [] /\
  msgNAK g' = msgNAK g /\
  (exhausted g' -> 0 < maxRetrys g ->
   e <> None /\
   exists gq wq gq',
     query SerNoRef serNoStr cmd_SN gq wq = Done (0, e) gq' w').
Proof.
  intros Hready Hrun. rewrite getSerialNumber_unfold in Hrun by assumption.
  pose (g0 := sn_start g).
  pose (Fields := fun g1 : Globals =>
    timestamp g1 = timestamp g /\ valueStr g1 = valueStr g /\
    serNoStr g1 = upd (serNoStr g) (adrCounter g) [] /\
    msgNAK g1 = msgNAK g /\
    adrCounter g1 = adrCounter g /\ maxRetrys g1 = maxRetrys g).
  pose (Last := fun (e1 : goerror) (w1 : W) =>
    e1 <> None /\
    exists gq wq gq',
      query SerNoRef serNoStr cmd_SN gq wq = Done (0, e1) gq' w1).
  pose (Inv := fun (ps : Z) (e1 : goerror) (g1 : Globals) (w1 : W) =>
    Fields g1 /\
    exists rc, cur_retry g1 = Some rc /\ 0 <= rc /\ (0 < rc -> Last e1 w1)).
  pose (Post := fun (e1 : goerror) (g1 : Globals) (w1 : W) =>
    Fields g1 /\ (exhausted g1 -> 0 < maxRetrys g -> Last e1 w1)).
  assert (HInv0 : Inv 0 None (sn_start g) w).
  { split.
    - unfold Fields, sn_start. simpl. repeat split.
    - exists 0. split; [now apply cur_retry_sn_start|]. split; lia. }
  assert (HPost : Post e g' w').
  { apply (fun Hs He => retry_loop_rule sn_round Inv Post Hs He
                          _ _ _ _ _ _ _ _ HInv0 Hrun).
    - intros ps e1 g1 w1 rc c g2 w2 (HF & rc' & Hrc' & Hpos & Hlast) Hrc Hlt Hb.
      destruct HF as (Ht & Hv & Hs & Hn & Hc & Hm).
      apply sn_round_shape in Hb
        as (r & ms & mr & Hq & -> & _ & _ & Hcases).
      assert (HF2 : Fields (set_msgReceived mr
                      (set_msgSent ms (store (SerNoRef (adrCounter g1)) [] g1)))).
      { unfold Fields. simpl. rewrite Hs, Hc, upd_upd. repeat split; auto. }
      destruct Hcases as [(_ & ->)|(e2 & -> & ->)].
      + split; [exact HF2|].
        intros (rcx & Hx & Hge) _. exfalso.
        unfold cur_retry in *. simpl in Hx, Hge. rewrite Hrc in Hx.
        inversion Hx; subst. lia.
      + intros g3 Hp. apply retry_post_shape in Hp as (rc2 & Hrc2 & -> & _).
        unfold cur_retry in Hrc2. simpl in Hrc2.
        unfold cur_retry in Hrc. rewrite Hrc in Hrc2. inversion Hrc2; subst rc2.
        split; [exact HF2|].
        exists (rc + 1). split; [|split].
        * unfold cur_retry. simpl. eapply idx_upd_eq. exact Hrc.
        * unfold cur_retry in Hrc'. rewrite Hrc in Hrc'.
          inversion Hrc'; subst. lia.
        * intros _. split; [congruence|eauto].
    - intros ps e1 g1 w1 rc (HF & rc' & Hrc' & Hpos & Hlast) Hrc Hge.
      split; [exact HF|]. intros _ Hmax. apply Hlast.
      rewrite Hrc in Hrc'. inversion Hrc'; subst.
      destruct HF as (_ & _ & _ & _ & _ & Hm). lia. }
  destruct HPost as ((Ht & Hv & Hs & Hn & _ & _) & Hex). auto.
Qed.

(** What a return of [getMeasurement] satisfies when it ran out of
    attempts; [rc] is the retry counter it found. *)
Lemma getMeasurement_post (g : Globals) (w : W) rc e g' w' :
  cur_retry g = Some rc ->
  getMeasurement g w = Done e g' w' ->
  exhausted g' ->
  timestamp g' = timestamp g /\
  serNoStr g' = serNoStr g /\
  (rc < maxRetrys g ->
   valueStr g' = upd (valueStr g) (adrCounter g) [] /\
   exists gq wq ps gq',
     query ValueRef valueStr cmd_MEA gq wq = Done (ps, e) gq' w' /\
     mea_success ps e = false).
Proof.
  intros Hrc0 Hrun. rewrite getMeasurement_unfold in Hrun.
  pose (Fields := fun g1 : Globals =>
    timestamp g1 = timestamp g /\ serNoStr g1 = serNoStr g /\
    adrCounter g1 = adrCounter g /\ maxRetrys g1 = maxRetrys g).
  pose (Last := fun (ps : Z) (e1 : goerror) (g1 : Globals) (w1 : W) =>
    valueStr g1 = upd (valueStr g) (adrCounter g) [] /\
    exists gq wq gq',
      query ValueRef valueStr cmd_MEA gq wq = Done (ps, e1) gq' w1 /\
      mea_success ps e1 = false).
  pose (Inv := fun (ps : Z) (e1 : goerror) (g1 : Globals) (w1 : W) =>
    Fields g1 /\
    exists rc1, cur_retry g1 = Some rc1 /\ rc <= rc1 /\
      (rc1 = rc -> valueStr g1 = valueStr g) /\
      (rc < rc1 -> Last ps e1 g1 w1)).
  pose (Post := fun (e1 : goerror) (g1 : Globals) (w1 : W) =>
    exhausted g1 ->
    Fields g1 /\
    (rc < maxRetrys g ->
     valueStr g1 = upd (valueStr g) (adrCounter g) [] /\
     exists gq wq ps gq',
       query ValueRef valueStr cmd_MEA gq wq = Done (ps, e1) gq' w1 /\
       mea_success ps e1 = false)).
  assert (HInv0 : Inv 0 None g (snd (port_Read w))).
  { split; [unfold Fields; repeat split|].
    exists rc. split; [exact Hrc0|]. split; [lia|]. split; [auto|lia]. }
  assert (HPost : Post e g' w').
  { apply (fun Hs He => retry_loop_rule mea_round Inv Post Hs He
                          _ _ _ _ _ _ _ _ HInv0 Hrun).
    - intros ps e1 g1 w1 rc1 c g2 w2
        (HF & rc' & Hrc' & Hle & Hsame & Hlast) Hrc1 Hlt Hb.
      rewrite Hrc1 in Hrc'. inversion Hrc'; subst rc'. clear Hrc'.
      destruct HF as (Ht & Hs & Hc & Hm).
      apply mea_round_shape in Hb
        as (ps2 & e2 & gq & Hq & (ms & mr & -> & _ & _) & Hcases).
      destruct Hcases as [(_ & -> & _ & _ & t0 & _ & ->)
                         |[(Hns & -> & _ & n & _ & ->)|(Hns & -> & _ & ->)]].
      + intros (rcx & Hx & Hge). exfalso.
        unfold cur_retry in *. simpl in Hx, Hge. rewrite Hrc1 in Hx.
        inversion Hx; subst. lia.
      + intros g3 Hp. apply retry_post_shape in Hp as (rc2 & Hrc2 & -> & _).
        unfold cur_retry in Hrc2. simpl in Hrc2.
        unfold cur_retry in Hrc1. rewrite Hrc1 in Hrc2.
        inversion Hrc2; subst rc2.
        split; [unfold Fields; simpl; repeat split; auto|].
        exists (rc1 + 1). split; [|split; [lia|split; [lia|]]].
        * unfold cur_retry. simpl. eapply idx_upd_eq. exact Hrc1.
        * intros _. split; [|eauto].
          simpl. rewrite Hc.
          destruct (Z.eq_dec rc1 rc) as [E|E].
          -- now rewrite Hsame.
          -- destruct Hlast as [-> _]; [lia|]. apply upd_upd.
      + intros g3 Hp. apply retry_post_shape in Hp as (rc2 & Hrc2 & -> & _).
        unfold cur_retry in Hrc2. simpl in Hrc2.
        unfold cur_retry in Hrc1. rewrite Hrc1 in Hrc2.
        inversion Hrc2; subst rc2.
        split; [unfold Fields; simpl; repeat split; auto|].
        exists (rc1 + 1). split; [|split; [lia|split; [lia|]]].
        * unfold cur_retry. simpl. eapply idx_upd_eq. exact Hrc1.
        * intros _. split; [|eauto].
          simpl. rewrite Hc.
          destruct (Z.eq_dec rc1 rc) as [E|E].
          -- now rewrite Hsame.
          -- destruct Hlast as [-> _]; [lia|]. apply upd_upd.
    - intros ps e1 g1 w1 rc1 (HF & rc' & Hrc' & Hle & Hsame & Hlast) Hrc1 Hge _.
      rewrite Hrc1 in Hrc'. inversion Hrc'; subst rc'.
      split; [exact HF|]. intros Hlt.
      destruct HF as (_ & _ & _ & Hm).
      destruct Hlast as (Hv & gq & wq & gq' & Hq & Hns); [lia|].
      split; [exact Hv|]. eauto 6. }
  intros Hex. destruct (HPost Hex) as ((Ht & Hs & _ & _) & Hlast). auto.
Qed.

End EngineFacts.

Lemma ready_one_device : ready one_device.
Proof.
  split; [|split].
  - unfold arrays_ok. repeat split; reflexivity.
  - vm_compute. split; [discriminate|reflexivity].
  - exists 1%N. split; reflexivity.
Qed.

(** The loss of the text seen from the command: the device answers the
    serial-number query with ACK and the text "SN001"; the command
    succeeds, and the serial number on record is the empty string. *)
Example serial_number_text_lost :
  exists g' w',
    getSerialNumber one_device
      (scripted [framed (6%N :: bytes_of "SN001" ++ [ETX])] 0)
      = Done None g' w' /\
    idx (serNoStr g') 0 = Some [] /\
    idx (msgReceived g') 1 = Some 1.
Proof.
  exists_run (getSerialNumber one_device
                (scripted [framed (6%N :: bytes_of "SN001" ++ [ETX])] 0)).
  by_eval.
Qed.

(** ** Success tests of the two commands *)

(** C9. The two loops test success differently.  After a query without
    error the serial-number round breaks exactly when the status is at
    least 0, the measurement round exactly when it is ACK; a measurement
    answer with any other status moves on to the next attempt. *)
Theorem success_predicates {W} `{Environment W} (g : Globals) (w : W) :
  ready g ->
  (forall s, sn_success s None = (0 <=? s) /\ mea_success s None = (s =? ACK)) /\
  (forall s gq wq,
     query SerNoRef serNoStr cmd_SN g w = Done (s, None) gq wq ->
     ((exists e g1 w1, sn_round g w = Done (Break e) g1 w1) <-> 0 <= s)) /\
  (forall s gq wq,
     query ValueRef valueStr cmd_MEA g w = Done (s, None) gq wq ->
     ((exists e g1 w1, mea_round g w = Done (Break e) g1 w1) <-> s = ACK) /\
     (s <> ACK -> exists g1, mea_round g w = Done (Next s None) g1 wq)).
Proof.
  intros Hready. split; [|split].
  - intros s. split; reflexivity.
  - intros s gq wq Hq.
    destruct (sn_round_steady g w Hready) as (c & g1 & w1 & Hr & _).
    pose proof Hr as Hr'.
    apply sn_round_shape in Hr' as (r & ms & mr & Hq' & _ & _ & _ & Hcases).
    rewrite Hq in Hq'. inversion Hq'; subst r.
    pose proof Hq as Hq2.
    apply query_shape in Hq2 as (? & ? & _ & _ & Hg).
    apply getValue_shape in Hg as (? & ? & _ & _ & _ & Hs & _).
    destruct Hcases as [(_ & ->)|(e & Hbad & _)]; [|discriminate].
    split; [intros _; exact Hs|intros _; eauto].
  - intros s gq wq Hq.
    destruct (mea_round_steady g w Hready) as (c & g1 & w1 & Hr & _).
    pose proof Hr as Hr'.
    apply mea_round_shape in Hr' as (ps & err & gq' & Hq' & _ & Hcases).
    rewrite Hq in Hq'. inversion Hq'; subst ps err gq' w1.
    destruct Hcases as [(_ & -> & _ & Hack & _)
                       |[(Hns & -> & _)|(Hns & -> & _)]].
    + split; [split; [auto|eauto]|intros Hne; contradiction].
    + unfold mea_success in Hns. simpl in Hns.
      apply Z.eqb_neq in Hns.
      split; [split; [|contradiction]|eauto].
      intros (e & g2 & w2 & Hb). rewrite Hr in Hb. discriminate.
    + unfold mea_success in Hns. simpl in Hns.
      apply Z.eqb_neq in Hns.
      split; [split; [|contradiction]|eauto].
      intros (e & g2 & w2 & Hb). rewrite Hr in Hb. discriminate.
Qed.

Lemma success_predicates_witness :
  exists g1 w1,
    mea_round one_device (scripted [framed [65%N]] 0) = Done (Next 65 None) g1 w1.
Proof.
  destruct (success_predicates (W := Sim) one_device (scripted [framed [65%N]] 0)
              ready_one_device) as (_ & _ & Hmea).
  destruct (query ValueRef valueStr cmd_MEA one_device (scripted [framed [65%N]] 0))
    as [[s e] gq wq| |] eqn:Eq; vm_compute in Eq; try discriminate.
  inversion Eq; subst s e. clear Eq.
  destruct (Hmea 65 gq wq eq_refl) as [_ Hnext].
  destruct Hnext as [g1 Hg1]; [discriminate|].
  exists g1, wq. exact Hg1.
Defined.

(** ** Running out of attempts *)

Section NoAttempt.

Context {W : Type} `{Environment W}.



End NoAttempt.




(** The same on a line without a device: the serial-number command uses
    up its 25 attempts on timeouts and returns the timeout; the
    measurement command that follows finds the counter at 25, sends no
    frame at all and returns nil. *)
Example silent_device_measurement_makes_no_query :
  exists g1 w1 w2,
    getSerialNumber one_device (scripted [] 0)
      = Done (Some ErrReadTimeout) g1 w1 /\
    cur_retry g1 = Some 25 /\ maxRetrys g1 = 25 /\
    length (sim_sent w1) = 25%nat /\
    getMeasurement g1 w1 = Done None g1 w2 /\
    length (sim_sent w2) = 25%nat.
Proof.
  exists_run (getSerialNumber one_device (scripted [] 0)).
  match goal with
  | |- exists w2, _ /\ _ /\ _ /\ _ /\ getMeasurement ?g ?w = _ /\ _ =>
      let v := eval vm_compute in (getMeasurement g w) in
      match v with Done _ _ ?w2 => exists w2 end
  end.
  by_eval.
Qed.

(** ** The reading on record when a command ran out of attempts *)





Section ReachableFacts.

Context {W : Type} `{Environment W}.












(** The address loop and the loop of [main] stay within the reachable
    states. *)
Lemma scan_loop_reachable (fuel : nat) :
  forall (g : Globals) (w : W) g' w',
    reachable (W := W) g ->
    scan_loop fuel g w = Done tt g' w' -> reachable (W := W) g'.
Proof.
  induction fuel as [|fuel IH]; intros g w g' w' Hreach Hrun; [discriminate|].
  simpl in Hrun. unfold bind at 1 in Hrun. unfold get at 1 in Hrun.
  destruct (adrCounter g <? numAdresses g).
  - unfold bind at 1 in Hrun.
    destruct (getSerialNumber g w) as [e1 g1 w1| |] eqn:E1; try discriminate.
    unfold bind at 1 in Hrun.
    destruct (getMeasurement g1 w1) as [e2 g2 w2| |] eqn:E2; try discriminate.
    run. apply IH in Hrun; [exact Hrun|].
    apply reach_cursor.
    eapply reach_measure; [|exact E2].
    eapply reach_serial; [|exact E1]. exact Hreach.
  - run. now inversion Hrun; subst.
Qed.

Lemma persist_loop_globals (fuel : nat) :
  forall i (g : Globals) (w : W) g' w',
    persist_loop fuel i g w = Done tt g' w' -> g' = g.
Proof.
  induction fuel as [|fuel IH]; intros i g w g' w' Hrun; [discriminate|].
  simpl in Hrun. run.
  destruct (i <? numAdresses g); [|now inversion Hrun].
  destruct (idx (serNoStr g) i); [|discriminate].
  destruct (idx (valueStr g) i); [|discriminate].
  destruct (idx (timestamp g) i); [|discriminate].
  now apply IH in Hrun.
Qed.

Lemma main_loop_reachable (fuel : nat) :
  forall n lastScan (g : Globals) (w : W) g' w',
    reachable (W := W) g ->
    main_loop fuel n lastScan g w = Done tt g' w' -> reachable (W := W) g'.
Proof.
  induction fuel as [|fuel IH]; intros n lastScan g w g' w' Hreach Hrun;
    [discriminate|].
  cbn [main_loop] in Hrun. unfold bind at 1 in Hrun. unfold get at 1 in Hrun.
  destruct (scanning g n); [|unfold ret in Hrun; now inversion Hrun; subst].
  unfold bind at 1 in Hrun. unfold world at 1 in Hrun.
  destruct (time_Since w lastScan <? minScanDelay g).
  - unfold bind at 1 in Hrun. unfold effect at 1 in Hrun.
    now apply IH in Hrun.
  - unfold bind at 1 in Hrun. unfold world at 1 in Hrun.
    destruct (serial_OpenPort w) as [opened w1].
    destruct opened; cbn [negb] in Hrun; [|now apply IH in Hrun].
    unfold bind at 1 in Hrun. rewrite ReadStrPort_returns in Hrun.
    unfold bind at 1 in Hrun. unfold modify at 1 in Hrun.
    unfold bind at 1 in Hrun.
    destruct (scan_loop (scan_fuel g) (set_adrCounter 0 g) _)
      as [[] g2 w2| |] eqn:Es; try discriminate.
    apply scan_loop_reachable in Es; [|now apply reach_cursor].
    unfold bind at 1 in Hrun. unfold world at 1 in Hrun.
    unfold bind at 1 in Hrun.
    destruct (persist_loop (scan_fuel g) 0 g2 w2)
      as [[] g3 w3| |] eqn:Ep; try discriminate.
    apply persist_loop_globals in Ep. subst g3.
    unfold bind at 1 in Hrun. unfold effect at 1 in Hrun.
    now apply IH in Hrun.
Qed.

Lemma main_scan_reachable (fuel : nat) (g : Globals) (w : W) g' w' :
  start_state g ->
  main_scan fuel g w = Done tt g' w' -> reachable (W := W) g'.
Proof.
  intros Hstart. unfold main_scan. run. intros Hrun.
  apply main_loop_reachable in Hrun; [exact Hrun|].
  apply (reach_counters g). now apply reach_start.
Qed.

End ReachableFacts.

Section StartState.

Variable ParseFloat_duration : gostring -> option Z.
Variable runes : gostring -> list Z.
Variable Digit_table : Z -> bool.
Variable White_Space_table : Z -> bool.

Lemma config_frame_refl (g : Globals) : config_frame g g.
Proof. unfold config_frame. repeat split; reflexivity. Qed.

Lemma config_frame_trans (g1 g2 g3 : Globals) :
  config_frame g1 g2 -> config_frame g2 g3 -> config_frame g1 g3.
Proof. unfold config_frame. intuition congruence. Qed.

Lemma address_loop_frame (parts : list (list Z)) :
  forall i g g',
    address_loop White_Space_table parts i g = Some g' -> config_frame g g'.
Proof.
  induction parts as [|part rest IH]; intros i g g' Hrun; simpl in Hrun.
  - inversion Hrun; subst. apply config_frame_refl.
  - destruct (MAXNUMADR <=? i);
      [inversion Hrun; subst; apply config_frame_refl|].
    destruct (TrimSpace White_Space_table part) as [|c part']; [eauto|].
    destruct (ParseUint8 (c :: part')) as [val|]; [|eauto].
    destruct (idx (scanAddress g) (numAdresses g)); [|discriminate].
    apply IH in Hrun.
    eapply config_frame_trans; [|exact Hrun].
    unfold config_frame. simpl. repeat split; reflexivity.
Qed.

Lemma config_line_frame (line : gostring) (scanner : list gostring)
    (st : ConfigState) :
  config_frame (cs_globals st)
    (cs_globals (fst (config_line ParseFloat_duration line scanner st))).
Proof.
  unfold config_line.
  repeat match goal with
  | |- context [if ?b then _ else _] => destruct b
  | |- context [match ParseFloat_duration ?x with _ => _ end] =>
      destruct (ParseFloat_duration x)
  | |- context [match ParseInt64 ?x with _ => _ end] =>
      destruct (ParseInt64 x)
  | |- context [let '(_, _) := extractAddresses ?l ?s in _] =>
      destruct (extractAddresses l s)
  end;
  simpl; unfold config_frame; simpl; repeat split; reflexivity.
Qed.

Lemma config_loop_frame (fuel : nat) :
  forall scanner st st',
    config_loop ParseFloat_duration fuel scanner st = Some st' ->
    config_frame (cs_globals st) (cs_globals st').
Proof.
  induction fuel as [|fuel IH]; intros scanner st st' Hrun; [discriminate|].
  destruct scanner as [|line rest]; simpl in Hrun.
  - inversion Hrun; subst. apply config_frame_refl.
  - pose proof (config_line_frame line rest st) as Hline.
    destruct (config_line ParseFloat_duration line rest st) as [st1 rest1].
    simpl in Hline. apply IH in Hrun.
    eapply config_frame_trans; eauto.
Qed.

(** Whatever the file holds, [loadConfig] run on the declared globals
    leaves a start state. *)
Lemma loadConfig_start_state (lines : list gostring) (db : Settings)
    r db' g' :
  loadConfig ParseFloat_duration runes Digit_table White_Space_table
    lines db initial_globals = ConfigDone r db' g' ->
  start_state g'.
Proof.
  unfold loadConfig, start_state.
  destruct (config_loop ParseFloat_duration (S (length lines)) lines
              (mkConfigState db initial_globals [])) as [st|] eqn:E;
    [|discriminate].
  apply config_loop_frame in E. simpl in E.
  destruct (cs_addresses st) as [|c astr].
  - inversion 1; subst. exact E.
  - destruct (extractAdresses Digit_table White_Space_table
                (runes (c :: astr)) (cs_globals st)) as [g1|] eqn:Ex;
      [|discriminate].
    inversion 1; subst.
    unfold extractAdresses in Ex. apply address_loop_frame in Ex.
    eapply config_frame_trans; eauto.
Qed.

End StartState.




(** The same on the state the silent line leaves: the measurement
    command that follows the exhausted serial-number command finds the
    counter at 25, and the reading is as it was. *)
Example exhausted_measurement_keeps_reading :
  exists g1 w1 w2,
    getSerialNumber one_device (scripted [] 0)
      = Done (Some ErrReadTimeout) g1 w1 /\
    getMeasurement g1 w1 = Done None g1 w2 /\
    cur_retry g1 = Some 25 /\ maxRetrys g1 = 25 /\
    idx (serNoStr g1) 0 = Some [] /\ idx (valueStr g1) 0 = Some [] /\
    idx (timestamp g1) 0 = Some 0.
Proof.
  exists_run (getSerialNumber one_device (scripted [] 0)).
  match goal with
  | |- exists w2, _ /\ getMeasurement ?g ?w = _ /\ _ =>
      let v := eval vm_compute in (getMeasurement g w) in
      match v with Done _ _ ?w2 => exists w2 end
  end.
  by_eval.
Qed.

(** ** The retry budget and the NAK count *)

(** C2 (the code departs from it). [getMeasurement] does not reset
    [retryCnt]: it goes on from the count [getSerialNumber] left.  Here the
    serial-number command needs two attempts (a timeout, then an answer),
    and the measurement command is then answered by 24 NAK frames followed
    by an ACK frame, so N = 25.  The measurement loop makes only 24
    queries, never reads the ACK, stamps no time and returns nil. *)
Theorem measurement_budget_not_reset :
  exists g1 w1 g2 w2,
    getSerialNumber one_device
      (scripted ([ReadTimeout; ack_frame; ReadTimeout]
                   ++ repeat nak_frame 24 ++ [ack_frame]) 0)
      = Done None g1 w1 /\
    getMeasurement g1 w1 = Done None g2 w2 /\
    cur_retry g1 = Some 1 /\
    cur_retry g2 = Some 25 /\ maxRetrys g2 = 25 /\
    idx (msgNAK g2) 0 = Some 24 /\
    (length (sim_sent w2) - length (sim_sent w1) = 24)%nat /\
    sim_reads w2 = [ack_frame] /\
    timestamp g2 = timestamp g1.
Proof.
  exists_run (getSerialNumber one_device
                (scripted ([ReadTimeout; ack_frame; ReadTimeout]
                             ++ repeat nak_frame 24 ++ [ack_frame]) 0)).
  match goal with
  | |- exists g2 w2, _ /\ getMeasurement ?g ?w = _ /\ _ =>
      exists_run (getMeasurement g w)
  end.
  by_eval.
Qed.

(** With the counter at zero the same answers do succeed on attempt 25. *)
Example measurement_from_zero :
  exists g2 w2,
    getMeasurement one_device
      (scripted (ReadTimeout :: repeat nak_frame 24 ++ [ack_frame]) 0)
      = Done None g2 w2 /\
    cur_retry g2 = Some 24 /\
    idx (msgNAK g2) 0 = Some 24 /\
    length (sim_sent w2) = 25%nat /\
    idx (timestamp g2) 0 = Some (sim_clock w2).
Proof.
  exists_run (getMeasurement one_device
                (scripted (ReadTimeout :: repeat nak_frame 24 ++ [ack_frame]) 0)).
  by_eval.
Qed.

(** C3 (the code departs from it). A NAK frame without error ends the
    serial-number loop as a success: the test [portStatus >= 0] comes
    first and holds for every byte, so the NAK branch below it is never
    taken.  One query is made, the NAK counter stays at 0, and the answer
    that was to follow is left unread. *)
Theorem serial_number_accepts_nak :
  exists g' w',
    getSerialNumber one_device (scripted [nak_frame; ack_frame] 0)
      = Done None g' w' /\
    sn_success NAK None = true /\
    idx (msgNAK g') 0 = Some 0 /\
    cur_retry g' = Some 0 /\
    length (sim_sent w') = 1%nat /\
    sim_reads w' = [ack_frame].
Proof.
  exists_run (getSerialNumber one_device (scripted [nak_frame; ack_frame] 0)).
  by_eval.
Qed.

(** On every world, [getSerialNumber] leaves the NAK counters alone. *)
Lemma serial_number_never_counts_nak {W} `{Environment W}
    (g : Globals) (w : W) e g' w' :
  ready g -> getSerialNumber g w = Done e g' w' -> msgNAK g' = msgNAK g.
Proof.
  intros Hready Hrun.
  now destruct (getSerialNumber_post g w e g' w' Hready Hrun)
    as (_ & _ & _ & Hn & _).
Qed.

(** The measurement round does what C3 asks: a NAK without error adds one
    to the NAK counter of the slot and moves on to the post statement. *)
Lemma measurement_counts_nak {W} `{Environment W}
    (g : Globals) (w : W) gq wq :
  ready g ->
  query ValueRef valueStr cmd_MEA g w = Done (NAK, None) gq wq ->
  exists n,
    idx (msgNAK g) (adrCounter g) = Some n /\
    mea_round g w =
      Done (Next NAK None)
        (set_msgNAK (upd (msgNAK g) (adrCounter g) (int64_incr n)) gq) wq.
Proof.
  intros Hready Hq.
  destruct (mea_round_steady g w Hready) as (c & g1 & w1 & Hr & _).
  pose proof Hr as Hr'.
  apply mea_round_shape in Hr' as (ps & err & gq' & Hq' & _ & Hcases).
  rewrite Hq in Hq'. inversion Hq'; subst ps err gq' w1.
  destruct Hcases as [(_ & _ & _ & Hack & _)
                     |[(_ & -> & _ & n & Hn & ->)|(_ & _ & Hne & _)]].
  - discriminate.
  - exists n. split; [exact Hn|exact Hr].
  - contradiction.
Qed.

(** ** Which cell a counter lives in *)

(** After a write that went through, [getValue] counts in the cells of the
    bus address. *)
Lemma getValue_counts {W} `{Environment W}
    ref cmd (adr : byte) (g : Globals) (w w1 : W) sent rcv :
  WriteStrPort cmd adr (store ref [] g) w = Done None (store ref [] g) w1 ->
  idx (msgSent g) (Z.of_N adr) = Some sent ->
  idx (msgReceived g) (Z.of_N adr) = Some rcv ->
  exists r g' w',
    getValue ref cmd adr g w = Done r g' w' /\
    msgSent g' = upd (msgSent g) (Z.of_N adr) (int64_incr sent) /\
    (snd r = None ->
     msgReceived g' = upd (msgReceived g) (Z.of_N adr) (int64_incr rcv)) /\
    (snd r <> None -> msgReceived g' = msgReceived g).
Proof.
  intros Ew Es Erc.
  unfold getValue. unfold bind at 1. unfold modify at 1.
  unfold bind at 1. rewrite Ew.
  unfold bind at 1. unfold load at 1. rewrite msgSent_store, Es.
  unfold bind at 1. unfold modify at 1.
  unfold bind at 1. unfold effect at 1.
  unfold bind at 1. rewrite ReadStrPort_returns.
  destruct (read_frame _) as [e|[readChar bufStr]].
  - run. eexists _, _, _. split; [reflexivity|].
    cbn [snd]. rewrite msgSent_store.
    split; [now destruct ref|]. split; [discriminate|now destruct ref].
  - unfold bind at 1. unfold load at 1.
    replace (msgReceived (set_msgSent _ (store ref [] g)))
      with (msgReceived g) by now destruct ref.
    rewrite Erc. run. eexists _, _, _. split; [reflexivity|].
    cbn [snd]. rewrite msgSent_store.
    split; [now destruct ref|]. split; [now destruct ref|congruence].
Qed.

Section ConfigFacts.

Variable Digit_table : Z -> bool.
Variable White_Space_table : Z -> bool.

Lemma stored_first_all :
  forallb (stored_first Digit_table White_Space_table) (seq 0 256) = true.
Proof. vm_compute. reflexivity. Qed.

(** The parser takes every address from 0 to 255. *)
Lemma extractAdresses_accepts (v : Z) :
  0 <= v <= 255 ->
  exists g',
    extractAdresses Digit_table White_Space_table (decimal3 v) initial_globals
      = Some g' /\
    numAdresses g' = 1 /\
    idx (scanAddress g') 0 = Some (Z.to_N v).
Proof.
  intros Hv.
  pose proof stored_first_all as Hall.
  rewrite forallb_forall in Hall.
  specialize (Hall (Z.to_nat v)).
  assert (Hin : In (Z.to_nat v) (seq 0 256)) by (apply in_seq; lia).
  apply Hall in Hin. unfold stored_first in Hin.
  rewrite Z2Nat.id in Hin by lia.
  destruct (extractAdresses _ _ _ _) as [g'|]; [|discriminate].
  exists g'. split; [reflexivity|].
  apply andb_true_iff in Hin as [Hn Ha].
  apply Z.eqb_eq in Hn. split; [exact Hn|].
  destruct (idx (scanAddress g') 0) as [a|]; [|discriminate].
  apply N.eqb_eq in Ha. subst a. f_equal. lia.
Qed.

End ConfigFacts.

(** C10. The configuration takes any address from 0 to 255, but [getValue]
    counts sent and received messages in the cell of the bus address: with
    an address of 32 or more a write that went through is followed by the
    index panic on the 32-cell array, and with a smaller address the cells
    that move are those of the address.  The NAK counter is kept in the
    cell of the scan slot. *)
Theorem counters_indexed_by_bus_address {W} `{Environment W}
    (Digit_table White_Space_table : Z -> bool) :
  (forall v, 0 <= v <= 255 ->
     exists g',
       extractAdresses Digit_table White_Space_table (decimal3 v) initial_globals
         = Some g' /\
       numAdresses g' = 1 /\
       idx (scanAddress g') 0 = Some (Z.to_N v)) /\
  (forall ref cmd (adr : byte) (g : Globals) (w w1 : W),
     arrays_ok g -> MAXNUMADR <= Z.of_N adr ->
     WriteStrPort cmd adr (store ref [] g) w = Done None (store ref [] g) w1 ->
     getValue ref cmd adr g w = Panic) /\
  (forall ref cmd (adr : byte) (g : Globals) (w w1 : W),
     arrays_ok g -> Z.of_N adr < MAXNUMADR ->
     WriteStrPort cmd adr (store ref [] g) w = Done None (store ref [] g) w1 ->
     exists sent rcv r g' w',
       idx (msgSent g) (Z.of_N adr) = Some sent /\
       idx (msgReceived g) (Z.of_N adr) = Some rcv /\
       getValue ref cmd adr g w = Done r g' w' /\
       msgSent g' = upd (msgSent g) (Z.of_N adr) (int64_incr sent) /\
       (snd r = None ->
        msgReceived g' = upd (msgReceived g) (Z.of_N adr) (int64_incr rcv))) /\
  (forall (g : Globals) (w : W) n,
     idx (msgNAK g) (adrCounter g) = Some n ->
     nak_incr g w =
       Done tt (set_msgNAK (upd (msgNAK g) (adrCounter g) (int64_incr n)) g) w).
Proof.
  split; [|split; [|split]].
  - apply extractAdresses_accepts.
  - intros ref cmd adr g w w1 Hok Hadr Ew.
    unfold getValue. unfold bind at 1. unfold modify at 1.
    unfold bind at 1. rewrite Ew.
    unfold bind at 1. unfold load at 1. rewrite msgSent_store.
    rewrite idx_out_of_range; [reflexivity|].
    destruct Hok as (_ & _ & _ & _ & _ & Hs & _). rewrite Hs. exact Hadr.
  - intros ref cmd adr g w w1 Hok Hadr Ew.
    destruct Hok as (_ & _ & _ & _ & _ & Hs & Hr & _).
    destruct (idx_in_range (msgSent g) (Z.of_N adr)) as [sent Es];
      [rewrite Hs; lia|].
    destruct (idx_in_range (msgReceived g) (Z.of_N adr)) as [rcv Erc];
      [rewrite Hr; lia|].
    destruct (getValue_counts ref cmd adr g w w1 sent rcv Ew Es Erc)
      as (r & g' & w' & Hrun & Hsent & Hrcv & _).
    exists sent, rcv, r, g', w'. auto.
  - intros g w n Hn. unfold nak_incr, load_cur. run. now rewrite Hn.
Qed.

(** Bus address 200 in scan slot 0: the first query of the scan panics. *)
Lemma counters_indexed_by_bus_address_witness :
  getValue (SerNoRef 0) cmd_SN 200%N (configured [200%N]) (scripted [ack_frame] 0)
    = Panic.
Proof.
  destruct (counters_indexed_by_bus_address (W := Sim)
              (fun _ => false) (fun _ => false)) as (_ & Hpanic & _).
  eapply Hpanic.
  - unfold arrays_ok. repeat split; reflexivity.
  - vm_compute. discriminate.
  - vm_compute. reflexivity.
Defined.

(** Bus address 5 in scan slot 0, one NAK and then an ACK to the
    measurement command: the traffic counters move in cell 5, the NAK
    counter in cell 0. *)
Example counters_of_address_5 :
  exists g' w',
    getMeasurement (configured [5%N])
      (scripted [ReadTimeout; nak_frame; ack_frame] 0) = Done None g' w' /\
    idx (msgSent g') 5 = Some 2 /\ idx (msgReceived g') 5 = Some 2 /\
    idx (msgSent g') 0 = Some 0 /\
    idx (msgNAK g') 0 = Some 1 /\ idx (msgNAK g') 5 = Some 0.
Proof.
  exists_run (getMeasurement (configured [5%N])
                (scripted [ReadTimeout; nak_frame; ack_frame] 0)).
  by_eval.
Qed.

(** ** The scan budget *)

Section SchedulerFacts.

Context {W : Type} `{Environment W}.

Lemma retry_loop_numScans (body : M W round_end) :
  (forall g w c g1 w1, body g w = Done c g1 w1 -> numScans g1 = numScans g) ->
  forall fuel ps e g w e' g' w',
    retry_loop body fuel ps e g w = Done e' g' w' -> numScans g' = numScans g.
Proof.
  intros Hbody fuel ps e g w e' g' w' Hrun.
  apply (fun Hs He => retry_loop_rule body
           (fun _ _ g1 _ => numScans g1 = numScans g)
           (fun _ g1 _ => numScans g1 = numScans g)
           Hs He _ _ _ _ _ _ _ _ eq_refl Hrun).
  - intros ps1 e1 g1 w1 rc c g2 w2 Hinv _ _ Hb.
    apply Hbody in Hb. destruct c as [eb|ps2 e2]; [congruence|].
    intros g3 Hp. apply retry_post_shape in Hp as (? & _ & -> & _).
    simpl. congruence.
  - auto.
Qed.

Lemma sn_round_numScans (g : Globals) (w : W) c g1 w1 :
  sn_round g w = Done c g1 w1 -> numScans g1 = numScans g.
Proof.
  intros Hr. apply sn_round_shape in Hr as (? & ? & ? & _ & -> & _).
  reflexivity.
Qed.

Lemma mea_round_numScans (g : Globals) (w : W) c g1 w1 :
  mea_round g w = Done c g1 w1 -> numScans g1 = numScans g.
Proof.
  intros Hr.
  apply mea_round_shape in Hr as (? & ? & gq & _ & (? & ? & -> & _) & Hcases).
  destruct Hcases as [(_ & _ & _ & _ & ? & _ & ->)
                     |[(_ & _ & _ & ? & _ & ->)|(_ & _ & _ & ->)]];
    reflexivity.
Qed.

Lemma getSerialNumber_numScans (g : Globals) (w : W) e g' w' :
  getSerialNumber g w = Done e g' w' -> numScans g' = numScans g.
Proof.
  unfold getSerialNumber, load_cur. run.
  destruct (idx (serNoStr g) (adrCounter g)); [|discriminate].
  cbn [retryCnt adrCounter set_serNoStr].
  destruct (idx (retryCnt g) (adrCounter g)); [|discriminate].
  intros Hrun.
  apply (retry_loop_numScans sn_round sn_round_numScans) in Hrun.
  exact Hrun.
Qed.

Lemma getMeasurement_numScans (g : Globals) (w : W) e g' w' :
  getMeasurement g w = Done e g' w' -> numScans g' = numScans g.
Proof.
  rewrite getMeasurement_unfold.
  apply (retry_loop_numScans mea_round mea_round_numScans).
Qed.

Lemma scan_loop_numScans fuel : forall (g : Globals) (w : W) g' w',
  scan_loop fuel g w = Done tt g' w' -> numScans g' = numScans g.
Proof.
  induction fuel as [|fuel IH]; intros g w g' w' Hrun; [discriminate|].
  simpl in Hrun. unfold bind at 1 in Hrun. unfold get at 1 in Hrun.
  destruct (adrCounter g <? numAdresses g).
  - unfold bind at 1 in Hrun.
    destruct (getSerialNumber g w) as [e1 g1 w1| |] eqn:E1; try discriminate.
    unfold bind at 1 in Hrun.
    destruct (getMeasurement g1 w1) as [e2 g2 w2| |] eqn:E2; try discriminate.
    apply getSerialNumber_numScans in E1.
    apply getMeasurement_numScans in E2.
    run. apply IH in Hrun. simpl in Hrun. congruence.
  - run. now inversion Hrun.
Qed.

Lemma persist_loop_numScans fuel : forall i (g : Globals) (w : W) g' w',
  persist_loop fuel i g w = Done tt g' w' -> numScans g' = numScans g.
Proof.
  induction fuel as [|fuel IH]; intros i g w g' w' Hrun; [discriminate|].
  simpl in Hrun. run.
  destruct (i <? numAdresses g); [|now inversion Hrun].
  destruct (idx (serNoStr g) i); [|discriminate].
  destruct (idx (valueStr g) i); [|discriminate].
  destruct (idx (timestamp g) i); [|discriminate].
  now apply IH in Hrun.
Qed.

(** With [numScans = 0] the loop of [main] never returns, whatever budget
    the model grants it. *)
Lemma unbounded_scan_never_returns fuel :
  forall n lastScan (g : Globals) (w : W) g' w',
    numScans g = 0 -> main_loop fuel n lastScan g w <> Done tt g' w'.
Proof.
  induction fuel as [|fuel IH]; intros n lastScan g w g' w' Hzero Hrun;
    [discriminate|].
  cbn [main_loop] in Hrun. unfold bind at 1 in Hrun. unfold get at 1 in Hrun.
  unfold scanning in Hrun. rewrite Hzero in Hrun. cbn [Z.eqb orb] in Hrun.
  unfold bind at 1 in Hrun. unfold world at 1 in Hrun.
  destruct (time_Since w lastScan <? minScanDelay g).
  - unfold bind at 1 in Hrun. unfold effect at 1 in Hrun.
    now apply IH in Hrun.
  - unfold bind at 1 in Hrun. unfold world at 1 in Hrun.
    destruct (serial_OpenPort w) as [opened w1].
    destruct opened; cbn [negb] in Hrun; [|now apply IH in Hrun].
    unfold bind at 1 in Hrun. rewrite ReadStrPort_returns in Hrun.
    unfold bind at 1 in Hrun. unfold modify at 1 in Hrun.
    unfold bind at 1 in Hrun.
    destruct (scan_loop (scan_fuel g) (set_adrCounter 0 g) _)
      as [[] g2 w2| |] eqn:Es; try discriminate.
    apply scan_loop_numScans in Es. cbn [numScans set_adrCounter] in Es.
    unfold bind at 1 in Hrun. unfold world at 1 in Hrun.
    unfold bind at 1 in Hrun.
    destruct (persist_loop (scan_fuel g) 0 g2 w2)
      as [[] g3 w3| |] eqn:Ep; try discriminate.
    apply persist_loop_numScans in Ep.
    unfold bind at 1 in Hrun. unfold effect at 1 in Hrun.
    apply IH in Hrun; [exact Hrun|congruence].
Qed.

End SchedulerFacts.

(** * Further properties *)

(** ** Quoted values *)

Lemma IndexByte_first (pre rest : list byte) (c : byte) :
  ~ In c pre -> IndexByte (pre ++ c :: rest) c = Some (length pre).
Proof.
  induction pre as [|b pre IH]; simpl; intros Hnot.
  - now rewrite N.eqb_refl.
  - destruct (N.eqb_spec b c) as [->|_]; [tauto|].
    rewrite IH by tauto. reflexivity.
Qed.

Lemma IndexByte_absent (s : list byte) (c : byte) :
  ~ In c s -> IndexByte s c = None.
Proof.
  induction s as [|b s IH]; simpl; intros Hnot; [reflexivity|].
  destruct (N.eqb_spec b c) as [->|_]; [tauto|].
  rewrite IH by tauto. reflexivity.
Qed.

Lemma IndexByte_found (s : list byte) (c : byte) (n : nat) :
  IndexByte s c = Some n -> In c s.
Proof.
  revert n. induction s as [|b s IH]; simpl; intros n; [discriminate|].
  destruct (N.eqb_spec b c) as [->|_]; [auto|].
  destruct (IndexByte s c) as [m|]; [|discriminate].
  intros _. right. now apply (IH m).
Qed.

Lemma LastIndexByte_absent (s : list byte) (c : byte) :
  ~ In c s -> LastIndexByte s c = None.
Proof.
  induction s as [|b s IH]; simpl; intros Hnot; [reflexivity|].
  rewrite IH by tauto.
  destruct (N.eqb_spec b c) as [->|_]; [tauto|reflexivity].
Qed.

Lemma LastIndexByte_last (pre post : list byte) (c : byte) :
  ~ In c post -> LastIndexByte (pre ++ c :: post) c = Some (length pre).
Proof.
  intros Hnot. induction pre as [|b pre IH]; simpl.
  - rewrite LastIndexByte_absent by assumption. now rewrite N.eqb_refl.
  - now rewrite IH.
Qed.

(** X1. A line with a first quote, any text, and a last quote yields the
    text between the two, whatever stands before the first and after the
    last; quotes inside the text are kept. *)
Theorem extractQuotedValue_between (pre mid post : gostring) :
  ~ In quote pre -> ~ In quote post ->
  extractQuotedValue (pre ++ [quote] ++ mid ++ [quote] ++ post) = mid.
Proof.
  intros Hpre Hpost. unfold extractQuotedValue. simpl app.
  rewrite IndexByte_first by assumption.
  replace (pre ++ quote :: mid ++ quote :: post)
    with ((pre ++ quote :: mid) ++ quote :: post)
    by (rewrite <- app_assoc; reflexivity).
  rewrite LastIndexByte_last by assumption.
  assert (Hlen : (length (pre ++ quote :: mid) <=? length pre)%nat = false)
    by (apply Nat.leb_gt; rewrite length_app; simpl; lia).
  rewrite Hlen, take_app_length.
  replace (pre ++ quote :: mid) with ((pre ++ [quote]) ++ mid)
    by (rewrite <- app_assoc; reflexivity).
  replace (length pre + 1)%nat with (length (pre ++ [quote]))
    by (rewrite length_app; reflexivity).
  apply drop_app_length.
Qed.

Lemma extractQuotedValue_between_witness :
  extractQuotedValue (bytes_of "db.host = " ++ [quote] ++ bytes_of "localhost"
                        ++ [quote] ++ bytes_of ";")
  = bytes_of "localhost".
Proof.
  apply extractQuotedValue_between; vm_compute; intuition discriminate.
Defined.

(** X2. A line with no quote, or with a single one, yields the empty
    value. *)
Theorem extractQuotedValue_needs_two_quotes (s pre post : gostring) :
  (~ In quote s -> extractQuotedValue s = []) /\
  (~ In quote pre -> ~ In quote post ->
   extractQuotedValue (pre ++ quote :: post) = []).
Proof.
  split.
  - intros Hnot. unfold extractQuotedValue.
    now rewrite IndexByte_absent.
  - intros Hpre Hpost. unfold extractQuotedValue.
    rewrite IndexByte_first, LastIndexByte_last by assumption.
    now rewrite Nat.leb_refl.
Qed.

Lemma extractQuotedValue_needs_two_quotes_witness :
  extractQuotedValue (bytes_of "SerialDevice = " ++ quote :: bytes_of "/dev/ttyS0")
  = [].
Proof.
  apply (extractQuotedValue_needs_two_quotes []);
    vm_compute; intuition discriminate.
Defined.

(** ** Continuation lines of the address list *)

Lemma scan_until_quote_stops (before : list gostring) :
  forall (l : gostring) (after : list gostring) (result : gostring),
    Forall (fun x => has_quote x = false) before ->
    has_quote l = true ->
    scan_until_quote (before ++ l :: after) result
    = (result ++ concat before ++ l, after).
Proof.
  induction before as [|b before IH]; intros l after result Hno Hq; simpl.
  - now rewrite Hq.
  - inversion Hno as [|? ? Hb Hrest]; subst. rewrite Hb.
    rewrite IH by assumption. now rewrite <- !app_assoc.
Qed.

Lemma scan_until_quote_runs_out (scanner : list gostring) :
  forall result,
    Forall (fun x => has_quote x = false) scanner ->
    scan_until_quote scanner result = (result ++ concat scanner, []).
Proof.
  induction scanner as [|b scanner IH]; intros result Hno; simpl.
  - now rewrite app_nil_r.
  - inversion Hno as [|? ? Hb Hrest]; subst. rewrite Hb.
    rewrite IH by assumption. now rewrite <- app_assoc.
Qed.

(** X3. [extractAddresses] always reads on: whether or not the first line
    already holds the whole quoted list, it takes every following line up
    to and including the first one with a quote (or all of them, if none
    has one), and the value is cut from the first line and those lines
    joined. *)
Theorem extractAddresses_reads_on
    (firstLine : gostring) (before : list gostring)
    (l : gostring) (after : list gostring) :
  Forall (fun x => has_quote x = false) before ->
  (has_quote l = true ->
   extractAddresses firstLine (before ++ l :: after)
   = (extractQuotedValue (firstLine ++ concat before ++ l), after)) /\
  extractAddresses firstLine before
  = (extractQuotedValue (firstLine ++ concat before), []).
Proof.
  intros Hno. split.
  - intros Hq. unfold extractAddresses.
    now rewrite scan_until_quote_stops.
  - unfold extractAddresses. now rewrite scan_until_quote_runs_out.
Qed.

Lemma extractAddresses_reads_on_witness :
  extractAddresses (bytes_of "scanAddresses = " ++ [quote] ++ bytes_of "1,")
    [bytes_of "2,"; bytes_of "3" ++ [quote]; bytes_of "numberOfScans = 5"]
  = (bytes_of "1,2,3", [bytes_of "numberOfScans = 5"]).
Proof.
  destruct (extractAddresses_reads_on
              (bytes_of "scanAddresses = " ++ [quote] ++ bytes_of "1,")
              [bytes_of "2,"] (bytes_of "3" ++ [quote])
              [bytes_of "numberOfScans = 5"]) as [Hstop _].
  - repeat constructor.
  - exact (eq_trans (Hstop eq_refl) eq_refl).
Defined.

(** X4. So a list that is complete on its own line still swallows the
    next setting: the line after it is consumed, and the value runs from
    the first quote of the list to the last quote of that line. *)
Theorem extractAddresses_swallows_next_setting
    (key list_ key2 value2 tail2 : gostring) (after : list gostring) :
  ~ In quote key -> ~ In quote tail2 ->
  extractAddresses (key ++ [quote] ++ list_ ++ [quote])
    ((key2 ++ [quote] ++ value2 ++ [quote] ++ tail2) :: after)
  = (list_ ++ [quote] ++ key2 ++ [quote] ++ value2, after).
Proof.
  intros Hkey Htail.
  destruct (extractAddresses_reads_on (key ++ [quote] ++ list_ ++ [quote]) []
              (key2 ++ [quote] ++ value2 ++ [quote] ++ tail2) after
              (List.Forall_nil _)) as [Hstop _].
  simpl app in Hstop. simpl app.
  refine (eq_trans (Hstop _) _); cycle 1.
  - f_equal.
    replace ((key ++ quote :: list_ ++ [quote])
               ++ key2 ++ quote :: value2 ++ quote :: tail2)
      with (key ++ [quote] ++ (list_ ++ [quote] ++ key2 ++ [quote] ++ value2)
               ++ [quote] ++ tail2)
      by (simpl; rewrite <- !app_assoc; simpl; rewrite <- !app_assoc;
          reflexivity).
    now apply extractQuotedValue_between.
  - unfold has_quote.
    destruct (IndexByte (key2 ++ quote :: value2 ++ quote :: tail2) quote)
      as [n|] eqn:E; [reflexivity|].
    exfalso.
    assert (Hin : In quote (key2 ++ quote :: value2 ++ quote :: tail2))
      by (apply in_or_app; right; left; reflexivity).
    clear -E Hin. revert E Hin.
    generalize (key2 ++ quote :: value2 ++ quote :: tail2). intros s.
    induction s as [|b s IH]; simpl; [tauto|].
    destruct (N.eqb_spec b quote); [discriminate|].
    destruct (IndexByte s quote); [discriminate|].
    intros _ [Hb|Hs]; [congruence|]. now apply IH.
Qed.

Lemma extractAddresses_swallows_next_setting_witness :
  extractAddresses (bytes_of "scanAddresses = " ++ [quote] ++ bytes_of "1,2" ++ [quote])
    [bytes_of "numberOfScans = " ++ [quote] ++ bytes_of "5" ++ [quote] ++ [];
     bytes_of "SerialDevice = x"]
  = (bytes_of "1,2" ++ [quote] ++ bytes_of "numberOfScans = " ++ [quote]
       ++ bytes_of "5",
     [bytes_of "SerialDevice = x"]).
Proof.
  apply (extractAddresses_swallows_next_setting
           (bytes_of "scanAddresses = ") (bytes_of "1,2")
           (bytes_of "numberOfScans = ") (bytes_of "5") []);
    vm_compute; intuition discriminate.
Defined.

(** ** The address list *)

Section ParserFacts.

Variable Digit_table : Z -> bool.
Variable White_Space_table : Z -> bool.

Lemma globals_eta (g : Globals) :
  set_numAdresses (numAdresses g) (set_scanAddress (scanAddress g) g) = g.
Proof. now destruct g. Qed.

(** The loop stores in a free cell as long as the slots used do not
    outnumber the parts read. *)
Lemma address_loop_total (parts : list (list Z)) :
  forall i g,
    length (scanAddress g) = Z.to_nat MAXNUMADR ->
    0 <= numAdresses g <= i -> numAdresses g <= MAXNUMADR ->
    exists sa n,
      address_loop White_Space_table parts i g = Some (set_numAdresses n (set_scanAddress sa g)) /\
      numAdresses g <= n /\ n <= MAXNUMADR /\
      n <= numAdresses g + Z.of_nat (length parts) /\
      length sa = Z.to_nat MAXNUMADR.
Proof.
  induction parts as [|part parts IH]; intros i g Hlen Hn Hmax.
  - exists (scanAddress g), (numAdresses g). simpl.
    rewrite globals_eta. repeat split; (lia || assumption).
  - assert (Hskip : exists sa n,
               address_loop White_Space_table parts (i + 1) g
               = Some (set_numAdresses n (set_scanAddress sa g)) /\
               numAdresses g <= n /\ n <= MAXNUMADR /\
               n <= numAdresses g + Z.of_nat (length (part :: parts)) /\
               length sa = Z.to_nat MAXNUMADR).
    { destruct (IH (i + 1) g Hlen) as (sa & n & E & H1 & H2 & H3 & H4);
        [lia|assumption|].
      exists sa, n. simpl length. repeat split; (lia || assumption). }
    cbn [address_loop].
    destruct (Z.leb_spec MAXNUMADR i) as [Hfull|Hroom].
    + exists (scanAddress g), (numAdresses g).
      rewrite globals_eta. simpl length. repeat split; (lia || assumption).
    + destruct (TrimSpace White_Space_table part) as [|c trimmed] eqn:Et;
        [exact Hskip|].
      destruct (ParseUint8 (c :: trimmed)) as [val|]; [|exact Hskip].
      destruct (idx_in_range (scanAddress g) (numAdresses g)) as [old Hold];
        [rewrite Hlen; unfold MAXNUMADR in *; lia|].
      rewrite Hold.
      match goal with
      | |- context [address_loop _ parts (i + 1) ?g1] =>
          destruct (IH (i + 1) g1) as (sa & n & E & H1 & H2 & H3 & H4)
      end.
      * simpl. now rewrite length_upd.
      * simpl. lia.
      * simpl. lia.
      * exists sa, n. rewrite E. simpl in H1, H3. simpl length.
        split; [reflexivity|]. repeat split; (lia || assumption).
Qed.

(** X5. From the globals as declared, [extractAdresses] returns for every
    text: it never runs past the address array, it stores at most
    [MAXNUMADR] addresses and at most one per comma-separated part, and it
    changes nothing but the address array and the address count. *)
Theorem extractAdresses_total_and_bounded (astr : list Z) (g : Globals) :
  arrays_ok g -> numAdresses g = 0 ->
  exists sa n,
    extractAdresses Digit_table White_Space_table astr g
    = Some (set_numAdresses n (set_scanAddress sa g)) /\
    0 <= n <= MAXNUMADR /\
    length sa = length (scanAddress g) /\
    arrays_ok (set_numAdresses n (set_scanAddress sa g)).
Proof.
  intros Hok Hzero. unfold extractAdresses.
  pose proof Hok as (_ & _ & _ & Hsa & _).
  destruct (address_loop_total (split_comma (clean Digit_table astr) []) 0 g Hsa)
    as (sa & n & E & H1 & H2 & _ & H4).
  - lia.
  - unfold MAXNUMADR. lia.
  - exists sa, n. split; [exact E|]. split; [lia|].
    split; [congruence|].
    unfold arrays_ok in *. simpl. intuition.
Qed.

End ParserFacts.

Lemma extractAdresses_total_and_bounded_witness :
  exists sa n,
    extractAdresses (fun _ => false) (fun _ => false)
      (runes_of "1, 2, x, 300,,5") initial_globals
    = Some (set_numAdresses n (set_scanAddress sa initial_globals)) /\
    0 <= n <= MAXNUMADR.
Proof.
  destruct (extractAdresses_total_and_bounded (fun _ => false) (fun _ => false)
              (runes_of "1, 2, x, 300,,5") initial_globals)
    as (sa & n & E & Hn & _).
  - unfold arrays_ok. repeat split; reflexivity.
  - reflexivity.
  - exists sa, n. split; [exact E|exact Hn].
Defined.

Section ParserLimit.

Variable Digit_table : Z -> bool.
Variable White_Space_table : Z -> bool.

(** Only the first [MAXNUMADR - i] parts are looked at. *)
Lemma address_loop_firstn (parts : list (list Z)) :
  forall i g,
    0 <= i ->
    address_loop White_Space_table parts i g
    = address_loop White_Space_table
        (firstn (Z.to_nat (MAXNUMADR - i)) parts) i g.
Proof.
  induction parts as [|part parts IH]; intros i g Hi.
  - now rewrite firstn_nil.
  - destruct (Z.leb_spec MAXNUMADR i) as [Hfull|Hroom].
    + replace (Z.to_nat (MAXNUMADR - i)) with O by lia.
      cbn [firstn address_loop].
      destruct (Z.leb_spec MAXNUMADR i); [reflexivity|lia].
    + replace (Z.to_nat (MAXNUMADR - i))
        with (S (Z.to_nat (MAXNUMADR - (i + 1)))) by lia.
      cbn [firstn address_loop].
      destruct (Z.leb_spec MAXNUMADR i); [lia|].
      destruct (TrimSpace White_Space_table part) as [|c trimmed];
        [apply IH; lia|].
      destruct (ParseUint8 (c :: trimmed)) as [val|]; [|apply IH; lia].
      destruct (idx (scanAddress g) (numAdresses g)); [|reflexivity].
      apply IH. lia.
Qed.

Lemma split_comma_app (a b : list Z) :
  forall cur,
    split_comma (a ++ 44 :: b) cur = split_comma a cur ++ split_comma b [].
Proof.
  induction a as [|r a IH]; intros cur; simpl.
  - reflexivity.
  - destruct (r =? 44); simpl; now rewrite IH.
Qed.

Lemma split_comma_length (s : list Z) :
  forall cur, length (split_comma s cur) = S (count_occ Z.eq_dec s 44).
Proof.
  induction s as [|r s IH]; intros cur; simpl; [reflexivity|].
  destruct (Z.eqb_spec r 44) as [->|Hne].
  - destruct (Z.eq_dec 44 44); [|congruence]. simpl. now rewrite IH.
  - destruct (Z.eq_dec r 44); [congruence|]. apply IH.
Qed.

Lemma clean_app (a b : list Z) :
  clean Digit_table (a ++ b) = clean Digit_table a ++ clean Digit_table b.
Proof. unfold clean. apply filter_app. Qed.

Lemma clean_comma (s : list Z) :
  clean Digit_table (44 :: s) = 44 :: clean Digit_table s.
Proof.
  unfold clean. apply filter_cons_True.
  now rewrite orb_true_r.
Qed.

Lemma clean_commas (s : list Z) :
  count_occ Z.eq_dec (clean Digit_table s) 44 = count_occ Z.eq_dec s 44.
Proof.
  induction s as [|r s IH]; [reflexivity|].
  destruct (Z.eq_dec r 44) as [->|Hne].
  - rewrite clean_comma. simpl.
    destruct (Z.eq_dec 44 44); [|congruence]. now rewrite IH.
  - simpl count_occ at 2. destruct (Z.eq_dec r 44); [congruence|].
    unfold clean in *. rewrite filter_cons.
    destruct (decide _); [|exact IH].
    simpl. destruct (Z.eq_dec r 44); [congruence|exact IH].
Qed.

(** X6. What follows the 32nd entry of the list is ignored, and blank or
    unreadable entries count among the 32: a text with 31 or more commas
    gives the same result whatever is appended after one more comma. *)
Theorem extractAdresses_ignores_beyond_limit (s t : list Z) (g : Globals) :
  (31 <= count_occ Z.eq_dec s 44%Z)%nat ->
  extractAdresses Digit_table White_Space_table (s ++ [44] ++ t) g
  = extractAdresses Digit_table White_Space_table s g.
Proof.
  intros Hcommas. unfold extractAdresses.
  change (s ++ [44] ++ t) with (s ++ 44 :: t).
  rewrite clean_app, clean_comma, split_comma_app.
  rewrite address_loop_firstn by lia.
  rewrite (address_loop_firstn (split_comma (clean Digit_table s) [])) by lia.
  f_equal. apply take_app_le.
  rewrite split_comma_length, clean_commas.
  unfold MAXNUMADR. lia.
Qed.

End ParserLimit.

Lemma extractAdresses_ignores_beyond_limit_witness :
  extractAdresses (fun _ => false) (fun _ => false)
    (repeat 44 31 ++ [44] ++ runes_of "7") initial_globals
  = extractAdresses (fun _ => false) (fun _ => false)
      (repeat 44 31) initial_globals.
Proof.
  apply extractAdresses_ignores_beyond_limit.
  vm_compute. repeat constructor.
Defined.

Section ParserEntries.

Variable Digit_table : Z -> bool.
Variable White_Space_table : Z -> bool.

Lemma digit_is_kept (c : Z) :
  48 <= c <= 57 -> IsDigit Digit_table c || (c =? 44) || (c =? 32) = true.
Proof.
  intros Hc. unfold IsDigit.
  destruct (Z.leb_spec c 255); [|lia].
  destruct (Z.leb_spec 48 c); [|lia].
  destruct (Z.leb_spec c 57); [|lia]. reflexivity.
Qed.

Lemma digit_not_space (c : Z) :
  48 <= c <= 57 -> IsSpace_rune White_Space_table c = false.
Proof.
  intros Hc. unfold IsSpace_rune, IsSpace.
  destruct (Z.leb_spec c 255); [|lia].
  destruct (Z.leb_spec c 13); [lia|].
  destruct (Z.eqb_spec c 32); [lia|].
  destruct (Z.eqb_spec c 133); [lia|].
  destruct (Z.eqb_spec c 160); [lia|].
  now rewrite andb_false_r.
Qed.

Lemma blank_is_space : IsSpace_rune White_Space_table 32 = true.
Proof. reflexivity. Qed.

Lemma trim_left_blanks (a : nat) (s : list Z) :
  trim_left White_Space_table (repeat 32 a ++ s) = trim_left White_Space_table s.
Proof.
  induction a as [|a IH]; [reflexivity|].
  simpl repeat. simpl app. cbn [trim_left]. now rewrite blank_is_space.
Qed.

Lemma trim_left_digit (c : Z) (s : list Z) :
  48 <= c <= 57 -> trim_left White_Space_table (c :: s) = c :: s.
Proof. intros Hc. cbn [trim_left]. now rewrite digit_not_space. Qed.

Lemma rev_blanks (b : nat) : rev (repeat 32 b) = repeat 32 b.
Proof.
  induction b as [|b IH]; [reflexivity|].
  simpl. rewrite IH. clear IH.
  induction b as [|b IH]; [reflexivity|]. simpl. now rewrite IH.
Qed.

(** Trimming an entry leaves its digits. *)
Lemma TrimSpace_entry (a b : nat) (ds : list Z) :
  all_digits ds -> TrimSpace White_Space_table (entry (a, ds, b)) = ds.
Proof.
  intros Hds. unfold TrimSpace, entry.
  rewrite trim_left_blanks.
  destruct ds as [|c ds].
  - simpl app.
    replace (trim_left White_Space_table (repeat 32 b)) with (@nil Z).
    + reflexivity.
    + rewrite <- (app_nil_r (repeat 32 b)), trim_left_blanks. reflexivity.
  - inversion Hds as [|? ? Hc Hrest]; subst.
    simpl app. rewrite trim_left_digit by assumption.
    change (c :: ds ++ repeat 32 b) with ((c :: ds) ++ repeat 32 b).
    rewrite rev_app_distr, rev_blanks, trim_left_blanks.
    destruct (rev (c :: ds)) as [|d sd] eqn:Er.
    + apply (f_equal (@rev Z)) in Er. rewrite rev_involutive in Er.
      discriminate.
    + assert (Hd : 48 <= d <= 57).
      { assert (Hin : In d (c :: ds)).
        { apply in_rev. rewrite Er. now left. }
        unfold all_digits in Hds. rewrite List.Forall_forall in Hds.
        now apply Hds. }
      rewrite trim_left_digit by assumption.
      rewrite <- Er. apply rev_involutive.
Qed.

Lemma parse_digits_value (ds : list Z) :
  forall acc,
    all_digits ds ->
    parse_digits ds acc
    = Some (fold_left (fun acc c => acc * 10 + (c - 48)) ds acc).
Proof.
  induction ds as [|c ds IH]; intros acc Hds; simpl; [reflexivity|].
  inversion Hds as [|? ? Hc Hrest]; subst.
  destruct (Z.leb_spec 48 c); [|lia].
  destruct (Z.leb_spec c 57); [|lia]. simpl. now apply IH.
Qed.

Lemma fold_digits_nonneg (ds : list Z) :
  forall acc,
    all_digits ds -> 0 <= acc ->
    0 <= fold_left (fun acc c => acc * 10 + (c - 48)) ds acc.
Proof.
  induction ds as [|c ds IH]; intros acc Hds Hacc; simpl; [assumption|].
  inversion Hds as [|? ? Hc Hrest]; subst. apply IH; [assumption|lia].
Qed.

Lemma digit_value_nonneg (ds : list Z) : all_digits ds -> 0 <= digit_value ds.
Proof. intros Hds. apply fold_digits_nonneg; [assumption|lia]. Qed.

(** Digits parse to their value, unless it exceeds 255. *)
Lemma ParseUint8_digits (c : Z) (ds : list Z) :
  all_digits (c :: ds) ->
  ParseUint8 (c :: ds)
  = if digit_value (c :: ds) <=? 255 then Some (digit_value (c :: ds)) else None.
Proof.
  intros Hds. unfold ParseUint8.
  now rewrite parse_digits_value by assumption.
Qed.

(** The loop over well-formed entries stores the accepted values in the
    next free cells, in order. *)
Lemma address_loop_entries (es : list (nat * list Z * nat)) :
  forall i g,
    Forall (fun e => all_digits (entry_digits e)) es ->
    length (scanAddress g) = Z.to_nat MAXNUMADR ->
    0 <= numAdresses g <= i ->
    i + Z.of_nat (length es) <= MAXNUMADR ->
    exists g',
      address_loop White_Space_table (map entry es) i g = Some g' /\
      numAdresses g' = numAdresses g + Z.of_nat (length (accepted es)) /\
      length (scanAddress g') = Z.to_nat MAXNUMADR /\
      (forall j, 0 <= j < numAdresses g ->
                 idx (scanAddress g') j = idx (scanAddress g) j) /\
      (forall k v, accepted es !! k = Some v ->
                   idx (scanAddress g') (numAdresses g + Z.of_nat k) = Some v).
Proof.
  induction es as [|e es IH]; intros i g Hes Hlen Hn Hroom.
  - exists g. simpl. repeat split; auto; try lia.
    intros k v Hk. now rewrite lookup_nil in Hk.
  - inversion Hes as [|? ? He Hrest]; subst.
    simpl length in Hroom.
    assert (Hskip : accepted (e :: es) = accepted es ->
              TrimSpace White_Space_table (entry e) = [] \/
              (exists c ds, TrimSpace White_Space_table (entry e) = c :: ds /\
                            ParseUint8 (c :: ds) = None) ->
              exists g',
                address_loop White_Space_table (map entry (e :: es)) i g = Some g' /\
                numAdresses g' = numAdresses g + Z.of_nat (length (accepted (e :: es))) /\
                length (scanAddress g') = Z.to_nat MAXNUMADR /\
                (forall j, 0 <= j < numAdresses g ->
                           idx (scanAddress g') j = idx (scanAddress g) j) /\
                (forall k v, accepted (e :: es) !! k = Some v ->
                   idx (scanAddress g') (numAdresses g + Z.of_nat k) = Some v)).
    { intros Hacc Hcase. rewrite Hacc.
      destruct (IH (i + 1) g Hrest Hlen) as (g' & E & Hg'); [lia|lia|].
      exists g'. split; [|exact Hg'].
      cbn [map address_loop].
      destruct (Z.leb_spec MAXNUMADR i); [lia|].
      destruct Hcase as [->|(c & ds & -> & ->)]; exact E. }
    destruct e as [[a ds] b]. unfold entry_digits in He. simpl in He.
    pose proof (TrimSpace_entry a b ds He) as Ht.
    destruct ds as [|c ds].
    + apply Hskip; [reflexivity|now left].
    + pose proof (ParseUint8_digits c ds He) as Hp.
      destruct (Z.leb_spec (digit_value (c :: ds)) 255) as [Hfit|Hbig].
      * destruct (idx_in_range (scanAddress g) (numAdresses g)) as [old Hold];
          [rewrite Hlen; unfold MAXNUMADR in *; lia|].
        pose proof (digit_value_nonneg (c :: ds) He) as Hpos.
        remember (digit_value (c :: ds)) as v eqn:Hv.
        set (g1 := set_numAdresses (numAdresses g + 1)
                     (set_scanAddress
                        (upd (scanAddress g) (numAdresses g) (Z.to_N (v mod 256)))
                        g)).
        destruct (IH (i + 1) g1 Hrest) as (g' & E & Hn' & Hl' & Hold' & Hnew').
        -- subst g1. simpl. now rewrite length_upd.
        -- subst g1. simpl. lia.
        -- lia.
        -- exists g'. split; [|split; [|split; [|split]]].
           ++ cbn [map address_loop].
              destruct (Z.leb_spec MAXNUMADR i); [lia|].
              rewrite Ht, Hp, Hold. exact E.
           ++ rewrite Hn'. subst g1. cbn [accepted entry_digits fst snd].
              rewrite <- Hv.
              destruct (Z.leb_spec v 255); [|lia]. simpl. lia.
           ++ exact Hl'.
           ++ intros j Hj. rewrite Hold' by (subst g1; simpl; lia).
              subst g1. simpl. apply idx_upd_ne. lia.
           ++ intros k w Hk. cbn [accepted entry_digits fst snd] in Hk.
              rewrite <- Hv in Hk.
              destruct (Z.leb_spec v 255); [|lia].
              destruct k as [|k].
              ** simpl in Hk. inversion Hk; subst w.
                 rewrite Z.add_0_r.
                 rewrite Hold' by (subst g1; simpl; lia).
                 subst g1. simpl. rewrite Z.mod_small by lia.
                 eapply idx_upd_eq. exact Hold.
              ** simpl in Hk. apply Hnew' in Hk.
                 subst g1. simpl in Hk.
                 replace (numAdresses g + Z.of_nat (S k))
                   with (numAdresses g + 1 + Z.of_nat k) by lia.
                 exact Hk.
      * apply Hskip.
        -- cbn [accepted entry_digits fst snd].
           destruct (Z.leb_spec (digit_value (c :: ds)) 255); [lia|reflexivity].
        -- right. exists c, ds. split; [exact Ht|exact Hp].
Qed.

End ParserEntries.

Section ParserText.

Variable Digit_table : Z -> bool.
Variable White_Space_table : Z -> bool.

Lemma clean_kept (s : list Z) :
  Forall (fun r => r = 44 \/ r = 32 \/ 48 <= r <= 57) s ->
  clean Digit_table s = s.
Proof.
  unfold clean. induction s as [|r s IH]; intros Hs; [reflexivity|].
  inversion Hs as [|? ? Hr Hrest]; subst.
  rewrite filter_cons_True.
  - now rewrite IH.
  - destruct Hr as [->|[->|Hd]].
    + now rewrite orb_true_r.
    + now rewrite !orb_true_r.
    + now apply digit_is_kept.
Qed.

Lemma entry_runes (e : nat * list Z * nat) :
  all_digits (entry_digits e) ->
  Forall (fun r => r = 32 \/ 48 <= r <= 57) (entry e).
Proof.
  destruct e as [[a ds] b]. unfold entry_digits, entry. simpl.
  intros Hds. rewrite !List.Forall_app. repeat split.
  - apply List.Forall_forall. intros r Hr. apply repeat_spec in Hr. now left.
  - eapply List.Forall_impl; [|exact Hds]. intros r Hr. now right.
  - apply List.Forall_forall. intros r Hr. apply repeat_spec in Hr. now left.
Qed.

Lemma join_runes (es : list (nat * list Z * nat)) :
  Forall (fun e => all_digits (entry_digits e)) es ->
  Forall (fun r => r = 44 \/ r = 32 \/ 48 <= r <= 57)
    (join_commas (map entry es)).
Proof.
  induction es as [|e es IH]; intros Hes; [constructor|].
  inversion Hes as [|? ? He Hrest]; subst.
  assert (Hentry : Forall (fun r => r = 44 \/ r = 32 \/ 48 <= r <= 57) (entry e)).
  { eapply List.Forall_impl; [|apply entry_runes; exact He].
    intros r Hr. now right. }
  destruct es as [|e2 es]; [exact Hentry|].
  change (join_commas (map entry (e :: e2 :: es)))
    with (entry e ++ [44] ++ join_commas (map entry (e2 :: es))).
  rewrite !List.Forall_app. repeat split.
  - exact Hentry.
  - repeat constructor.
  - now apply IH.
Qed.

Lemma split_comma_run (d s : list Z) :
  forall cur,
    ~ In 44 d -> split_comma (d ++ s) cur = split_comma s (rev d ++ cur).
Proof.
  induction d as [|r d IH]; intros cur Hno; [reflexivity|].
  simpl app. cbn [split_comma].
  destruct (Z.eqb_spec r 44) as [->|_]; [exfalso; apply Hno; now left|].
  rewrite IH by (intros Hin; apply Hno; now right).
  simpl rev. now rewrite <- app_assoc.
Qed.

Lemma split_join (ps : list (list Z)) :
  Forall (fun p => ~ In 44 p) ps -> ps <> [] ->
  split_comma (join_commas ps) [] = ps.
Proof.
  induction ps as [|p ps IH]; intros Hps Hne; [congruence|].
  inversion Hps as [|? ? Hp Hrest]; subst.
  destruct ps as [|q ps].
  - simpl. rewrite <- (app_nil_r p) at 1.
    rewrite split_comma_run by assumption.
    simpl. now rewrite app_nil_r, rev_involutive.
  - change (join_commas (p :: q :: ps))
      with (p ++ 44 :: join_commas (q :: ps)).
    rewrite split_comma_run by assumption.
    cbn [split_comma]. simpl (44 =? 44).
    rewrite app_nil_r, rev_involutive. f_equal.
    apply IH; [assumption|discriminate].
Qed.

Lemma entry_no_comma (e : nat * list Z * nat) :
  all_digits (entry_digits e) -> ~ In 44 (entry e).
Proof.
  intros He Hin. pose proof (entry_runes e He) as Hr.
  rewrite List.Forall_forall in Hr. apply Hr in Hin. lia.
Qed.

(** X7. A list of at most 32 entries, each a run of digits with any blanks
    around it or blank altogether, gives exactly the values of the entries
    that are not blank and do not exceed 255, in order, in the scan slots
    from 0 on: an entry above 255 is left out, not cut down to a byte, and
    uses no slot. *)
Theorem extractAdresses_stores_entries (es : list (nat * list Z * nat)) :
  (length es <= 32)%nat ->
  Forall (fun e => all_digits (entry_digits e)) es ->
  exists g',
    extractAdresses Digit_table White_Space_table
      (join_commas (map entry es)) initial_globals = Some g' /\
    numAdresses g' = Z.of_nat (length (accepted es)) /\
    (forall k v, accepted es !! k = Some v ->
                 idx (scanAddress g') (Z.of_nat k) = Some v).
Proof.
  intros Hlen Hes. unfold extractAdresses.
  rewrite clean_kept by now apply join_runes.
  destruct es as [|e es].
  - exists initial_globals. simpl. repeat split.
    intros k v Hk. now rewrite lookup_nil in Hk.
  - rewrite split_join.
    + destruct (address_loop_entries White_Space_table (e :: es) 0
                  initial_globals Hes)
        as (g' & E & Hn & _ & _ & Hnew).
      * reflexivity.
      * simpl. lia.
      * unfold MAXNUMADR. lia.
      * exists g'. split; [exact E|]. split; [exact Hn|].
        intros k v Hk. apply Hnew in Hk. exact Hk.
    + apply List.Forall_forall. intros p Hp.
      apply in_map_iff in Hp as (e' & <- & He').
      apply entry_no_comma.
      rewrite List.Forall_forall in Hes. now apply Hes.
    + discriminate.
Qed.

End ParserText.

Lemma extractAdresses_stores_entries_witness :
  exists g',
    extractAdresses (fun _ => false) (fun _ => false)
      (runes_of "1, 300 ,,007") initial_globals = Some g' /\
    numAdresses g' = 2 /\
    idx (scanAddress g') 0 = Some 1%N /\
    idx (scanAddress g') 1 = Some 7%N.
Proof.
  destruct (extractAdresses_stores_entries (fun _ => false) (fun _ => false)
              [(0%nat, runes_of "1", 0%nat); (1%nat, runes_of "300", 1%nat);
               (0%nat, [], 0%nat); (0%nat, runes_of "007", 0%nat)])
    as (g' & E & Hn & Hnew).
  - simpl. lia.
  - repeat constructor; vm_compute; discriminate.
  - exists g'. split; [exact E|]. split; [exact Hn|].
    split; [exact (Hnew 0%nat 1%N eq_refl)|exact (Hnew 1%nat 7%N eq_refl)].
Defined.

(** ** The payload filter *)

Lemma keepable_not_ETX (b : byte) : keepable b = true -> b <> ETX.
Proof. intros Hk ->. discriminate. Qed.

Lemma filter_loop_filter (text : list byte) :
  ~ In ETX text -> filter_loop text = List.filter keepable text.
Proof.
  induction text as [|b text IH]; intros Hno; [reflexivity|].
  cbn [filter_loop List.filter].
  destruct (N.eqb_spec b ETX) as [->|_]; [exfalso; apply Hno; now left|].
  fold (keepable b).
  rewrite IH by (intros Hin; apply Hno; now right).
  reflexivity.
Qed.

(** X8. The filter of [getValue] in closed form: of a buffer it keeps the
    bytes before the first end-of-text byte that are printable, white
    space or zero, in order; everything from the end-of-text byte on is
    dropped. *)
Theorem post_process_closed_form (text rest : list byte) :
  ~ In ETX text ->
  post_process (text ++ ETX :: rest) = List.filter keepable text /\
  post_process text = List.filter keepable text.
Proof.
  intros Hno. unfold post_process. split.
  - rewrite IndexByte_first by assumption.
    rewrite take_app_length. now apply filter_loop_filter.
  - rewrite IndexByte_absent by assumption.
    now apply filter_loop_filter.
Qed.

Lemma post_process_closed_form_witness :
  post_process (bytes_of "23.5" ++ 7%N :: ETX :: bytes_of "junk")
  = bytes_of "23.5".
Proof.
  change (bytes_of "23.5" ++ 7%N :: ETX :: bytes_of "junk")
    with ((bytes_of "23.5" ++ [7%N]) ++ ETX :: bytes_of "junk").
  destruct (post_process_closed_form (bytes_of "23.5" ++ [7%N]) (bytes_of "junk"))
    as [Hcut _].
  - vm_compute. intuition discriminate.
  - exact Hcut.
Defined.

(** X9. A payload made of printable, white-space or zero bytes only, ended
    by the end-of-text byte, comes out of the filter unchanged, whatever
    follows the end-of-text byte. *)
Theorem post_process_recovers_text (text rest : list byte) :
  Forall (fun b => keepable b = true) text ->
  post_process (text ++ ETX :: rest) = text.
Proof.
  intros Hkeep.
  assert (Hno : ~ In ETX text).
  { intros Hin. rewrite List.Forall_forall in Hkeep.
    apply Hkeep in Hin. discriminate. }
  destruct (post_process_closed_form text rest Hno) as [-> _].
  induction text as [|b text IH]; [reflexivity|].
  inversion Hkeep as [|? ? Hb Hrest]; subst.
  simpl. rewrite Hb. f_equal. apply IH; [assumption|].
  intros Hin. apply Hno. now right.
Qed.

Lemma post_process_recovers_text_witness :
  post_process (bytes_of "SN001 rev.2" ++ ETX :: [200%N; 3%N]) = bytes_of "SN001 rev.2".
Proof.
  apply post_process_recovers_text.
  repeat constructor.
Defined.

(** ** The request frame and the response check together *)




Lemma marker_bit_toggles_all :
  forallb (fun n => (byte_add (N.of_nat n) 128 =? N.lxor (N.of_nat n) 128)%N)
    (seq 0 256) = true.
Proof. vm_compute. reflexivity. Qed.

(** X11. The address byte of a frame is the address with its top bit
    toggled, not set: for an address from 128 to 255 the addition wraps,
    so the byte sent is the address less 128 and carries no marker bit. *)
Theorem address_byte_wraps (chars : gostring) (adr : byte) (frame : list byte) :
  (adr < 256)%N ->
  build_frame chars adr = inr frame ->
  hd 0%N frame = N.lxor adr 128%N /\
  ((128 <= adr)%N -> hd 0%N frame = (adr - 128)%N /\ (hd 0%N frame < 128)%N).
Proof.
  intros Hadr E. apply build_frame_inr in E as [_ ->]. simpl hd.
  split.
  - pose proof marker_bit_toggles_all as Hall.
    rewrite forallb_forall in Hall.
    specialize (Hall (N.to_nat adr)).
    rewrite N2Nat.id in Hall. apply N.eqb_eq. apply Hall.
    apply in_seq. lia.
  - intros Hhigh. unfold byte_add.
    replace (adr + 128)%N with ((adr - 128) + 1 * 256)%N by lia.
    rewrite N.Div0.mod_add, N.mod_small by lia. split; lia.
Qed.

Lemma address_byte_wraps_witness :
  hd 0%N [72; 83; 78; 32; 63; 3; 1]%N = N.lxor 200%N 128%N.
Proof.
  destruct (address_byte_wraps cmd_SN 200%N [72; 83; 78; 32; 63; 3; 1]%N)
    as [Hhd _].
  - reflexivity.
  - reflexivity.
  - exact Hhd.
Defined.

(** ** What the commands leave alone *)

Lemma same_setup_refl (g : Globals) : same_setup g g.
Proof. unfold same_setup. intuition. Qed.

Lemma same_setup_trans (g1 g2 g3 : Globals) :
  same_setup g1 g2 -> same_setup g2 g3 -> same_setup g1 g3.
Proof. unfold same_setup. intuition congruence. Qed.

Lemma same_setup_session ref ms mr (g : Globals) :
  length ms = length (msgSent g) -> length mr = length (msgReceived g) ->
  same_setup g (set_msgReceived mr (set_msgSent ms (store ref [] g))).
Proof.
  intros Hms Hmr. unfold same_setup, arrays_ok.
  destruct ref; simpl; rewrite ?length_upd; intuition congruence.
Qed.

Lemma same_setup_retryCnt i v (g : Globals) :
  same_setup g (set_retryCnt (upd (retryCnt g) i v) g).
Proof.
  unfold same_setup, arrays_ok. simpl. rewrite ?length_upd. intuition.
Qed.

Lemma same_setup_msgNAK i v (g : Globals) :
  same_setup g (set_msgNAK (upd (msgNAK g) i v) g).
Proof.
  unfold same_setup, arrays_ok. simpl. rewrite ?length_upd. intuition.
Qed.

Lemma same_setup_timestamp i v (g : Globals) :
  same_setup g (set_timestamp (upd (timestamp g) i v) g).
Proof.
  unfold same_setup, arrays_ok. simpl. rewrite ?length_upd. intuition.
Qed.

Lemma same_setup_serNoStr i v (g : Globals) :
  same_setup g (set_serNoStr (upd (serNoStr g) i v) g).
Proof.
  unfold same_setup, arrays_ok. simpl. rewrite ?length_upd. intuition.
Qed.

(** X12. A call of [getValue] that returns has changed, besides the result
    string, only the two traffic counters: the retry counters, the NAK
    counters, the timestamps, the address table and the cursor are as
    before and the arrays keep their length.  The status it returns is
    never negative, and it is 0 whenever an error is returned. *)
Theorem getValue_leaves_alone {W} `{Environment W}
    ref cmd (adr : byte) (g : Globals) (w : W) r g' w' :
  getValue ref cmd adr g w = Done r g' w' ->
  same_setup g g' /\
  retryCnt g' = retryCnt g /\ timestamp g' = timestamp g /\
  msgNAK g' = msgNAK g /\
  0 <= fst r /\ (snd r <> None -> fst r = 0).
Proof.
  intros Hrun.
  apply getValue_shape in Hrun as (ms & mr & -> & Hms & Hmr & Hpos & Herr).
  split; [now apply same_setup_session|].
  destruct ref; simpl; auto.
Qed.

Lemma getValue_leaves_alone_witness :
  exists r g' w',
    getValue (ValueRef 0) cmd_MEA 1%N with_reading (scripted [] 0) = Done r g' w' /\
    timestamp g' = timestamp with_reading /\ fst r = 0.
Proof.
  exists (0, Some ErrReadTimeout).
  exists_run (getValue (ValueRef 0) cmd_MEA 1%N with_reading (scripted [] 0)).
  match goal with
  | |- ?run = Done ?r ?g ?w /\ _ =>
      assert (Hrun : run = Done (0, Some ErrReadTimeout) g w)
        by (vm_compute; reflexivity)
  end.
  destruct (getValue_leaves_alone _ _ _ _ _ _ _ _ Hrun)
    as (_ & _ & Ht & _ & _ & Hzero).
  split; [exact Hrun|]. split; [exact Ht|]. apply Hzero. discriminate.
Defined.

Section CommandFacts.

Context {W : Type} `{Environment W}.

Lemma sn_round_setup (g : Globals) (w : W) c g1 w1 :
  sn_round g w = Done c g1 w1 ->
  same_setup g g1 /\ cur_retry g1 = cur_retry g.
Proof.
  intros Hr.
  apply sn_round_shape in Hr as (? & ms & mr & _ & -> & Hms & Hmr & _).
  split; [now apply same_setup_session|reflexivity].
Qed.

Lemma mea_round_setup (g : Globals) (w : W) c g1 w1 :
  mea_round g w = Done c g1 w1 ->
  same_setup g g1 /\ cur_retry g1 = cur_retry g.
Proof.
  intros Hr.
  apply mea_round_shape in Hr
    as (? & ? & gq & _ & (ms & mr & -> & Hms & Hmr) & Hcases).
  pose proof (same_setup_session (ValueRef (adrCounter g)) ms mr g Hms Hmr)
    as Hq.
  destruct Hcases as [(_ & _ & _ & _ & ? & _ & ->)
                     |[(_ & _ & _ & ? & _ & ->)|(_ & _ & _ & ->)]].
  - split; [|reflexivity].
    eapply same_setup_trans; [exact Hq|].
    match goal with
    | |- same_setup ?gq (set_timestamp (upd _ ?i ?v) ?gq) =>
        exact (same_setup_timestamp i v gq)
    end.
  - split; [|reflexivity].
    eapply same_setup_trans; [exact Hq|].
    match goal with
    | |- same_setup ?gq (set_msgNAK (upd _ ?i ?v) ?gq) =>
        exact (same_setup_msgNAK i v gq)
    end.
  - split; [exact Hq|reflexivity].
Qed.

(** How a retry loop leaves the retry counter and the setup, given a body
    that leaves both alone. *)
Lemma retry_loop_counter (body : M W round_end) :
  (forall g w c g1 w1,
      body g w = Done c g1 w1 ->
      same_setup g g1 /\ cur_retry g1 = cur_retry g) ->
  forall fuel ps e (g : Globals) (w : W) rc e' g' w',
    cur_retry g = Some rc ->
    retry_loop body fuel ps e g w = Done e' g' w' ->
    same_setup g g' /\
    exists rc', cur_retry g' = Some rc' /\ rc <= rc' /\
                (rc' <= maxRetrys g \/ rc' = rc).
Proof.
  intros Hbody fuel ps e g w rc e' g' w' Hrc Hrun.
  pose (Inv := fun (_ : Z) (_ : goerror) (g1 : Globals) (_ : W) =>
    same_setup g g1 /\
    exists rc1, cur_retry g1 = Some rc1 /\ rc <= rc1 /\
                (rc1 <= maxRetrys g \/ rc1 = rc)).
  assert (HInv0 : Inv ps e g w).
  { split; [apply same_setup_refl|]. exists rc. repeat split; auto; lia. }
  apply (fun Hs He => retry_loop_rule body Inv (fun _ g1 _ => Inv 0 None g1 w)
                        Hs He _ _ _ _ _ _ _ _ HInv0 Hrun).
  - intros ps1 e1 g1 w1 rc1 c g2 w2 (Hsame & rcx & Hx & Hle & Hbound) Hrc1 Hlt Hb.
    rewrite Hrc1 in Hx. inversion Hx; subst rcx. clear Hx.
    apply Hbody in Hb as [Hstep Hkeep].
    assert (Hsame2 : same_setup g g2) by (eapply same_setup_trans; eauto).
    assert (Hmax : maxRetrys g1 = maxRetrys g) by apply Hsame.
    destruct c as [eb|ps2 e2].
    + split; [exact Hsame2|]. exists rc1. rewrite Hkeep. auto.
    + intros g3 Hp. apply retry_post_shape in Hp as (rc2 & Hrc2 & -> & _).
      rewrite Hkeep, Hrc1 in Hrc2. inversion Hrc2; subst rc2.
      split.
      * eapply same_setup_trans; [exact Hsame2|apply same_setup_retryCnt].
      * exists (rc1 + 1). split; [|split; [lia|left; lia]].
        unfold cur_retry. simpl. eapply idx_upd_eq.
        unfold cur_retry in Hkeep, Hrc1. rewrite Hkeep. exact Hrc1.
  - intros ps1 e1 g1 w1 rc1 Hinv _ _. exact Hinv.
Qed.

Lemma getSerialNumber_setup (g : Globals) (w : W) e g' w' :
  ready g ->
  getSerialNumber g w = Done e g' w' ->
  same_setup g g' /\
  exists rc', cur_retry g' = Some rc' /\ 0 <= rc' /\
              (rc' <= maxRetrys g \/ rc' = 0).
Proof.
  intros Hready Hrun. rewrite getSerialNumber_unfold in Hrun by assumption.
  destruct (retry_loop_counter sn_round sn_round_setup _ _ _ _ _ 0 _ _ _
              (cur_retry_sn_start g Hready) Hrun) as (Hsame & rc' & Hrc' & Hle & Hb).
  split.
  - eapply same_setup_trans; [|exact Hsame].
    unfold sn_start.
    set (g1 := set_serNoStr (upd (serNoStr g) (adrCounter g) []) g).
    eapply same_setup_trans;
      [exact (same_setup_serNoStr (adrCounter g) [] g)|].
    exact (same_setup_retryCnt (adrCounter g1) 0 g1).
  - exists rc'. repeat split; auto.
Qed.

Lemma getMeasurement_setup (g : Globals) (w : W) rc e g' w' :
  cur_retry g = Some rc ->
  getMeasurement g w = Done e g' w' ->
  same_setup g g' /\
  exists rc', cur_retry g' = Some rc' /\ rc <= rc' /\
              (rc' <= maxRetrys g \/ rc' = rc).
Proof.
  intros Hrc Hrun. rewrite getMeasurement_unfold in Hrun.
  exact (retry_loop_counter mea_round mea_round_setup _ _ _ _ _ rc _ _ _
           Hrc Hrun).
Qed.

End CommandFacts.

(** ** How the commands end *)

Section CommandEnds.

Context {W : Type} `{Environment W}.

(** Left by [break], the serial-number loop returns nil. *)
Lemma getSerialNumber_break (g : Globals) (w : W) e g' w' rc' :
  ready g ->
  getSerialNumber g w = Done e g' w' ->
  cur_retry g' = Some rc' -> rc' < maxRetrys g -> e = None.
Proof.
  intros Hready Hrun. rewrite getSerialNumber_unfold in Hrun by assumption.
  pose (Inv := fun (_ : Z) (_ : goerror) (g1 : Globals) (_ : W) =>
    maxRetrys g1 = maxRetrys g).
  pose (Post := fun (e1 : goerror) (g1 : Globals) (_ : W) =>
    forall rc1, cur_retry g1 = Some rc1 -> rc1 < maxRetrys g -> e1 = None).
  assert (HInv0 : Inv 0 None (sn_start g) w) by reflexivity.
  assert (HPost : Post e g' w').
  { apply (fun Hs He => retry_loop_rule sn_round Inv Post Hs He
                          _ _ _ _ _ _ _ _ HInv0 Hrun).
    - intros ps e1 g1 w1 rc c g2 w2 Hmax Hrc Hlt Hb.
      apply sn_round_shape in Hb as (r & ms & mr & _ & -> & _ & _ & Hcases).
      destruct Hcases as [(_ & ->)|(e2 & _ & ->)].
      + intros rc1 _ _. reflexivity.
      + intros g3 Hp. apply retry_post_shape in Hp as (? & _ & -> & _).
        exact Hmax.
    - intros ps e1 g1 w1 rc Hmax Hrc Hge rc1 Hrc1 Hlt.
      rewrite Hrc in Hrc1. inversion Hrc1; subst. unfold Inv in Hmax. lia. }
  intros Hrc' Hlt. exact (HPost rc' Hrc' Hlt).
Qed.

(** X13. With a positive retry bound, [getSerialNumber] returns, its retry
    counter ends between 0 and [maxRetrys], and it returns nil exactly
    when the counter ended below [maxRetrys], that is when its loop was
    left by [break] on an answer without error. *)
Theorem getSerialNumber_nil_iff_answered (g : Globals) (w : W) :
  ready g -> 0 < maxRetrys g ->
  exists e g' w' rc',
    getSerialNumber g w = Done e g' w' /\
    cur_retry g' = Some rc' /\ 0 <= rc' <= maxRetrys g /\
    (e = None <-> rc' < maxRetrys g).
Proof.
  intros Hready Hmax.
  destruct (getSerialNumber_returns g w Hready) as (e & g' & w' & Hrun).
  destruct (getSerialNumber_setup g w e g' w' Hready Hrun)
    as (Hsame & rc' & Hrc' & Hpos & Hbound).
  exists e, g', w', rc'. split; [exact Hrun|]. split; [exact Hrc'|].
  split; [lia|]. split.
  - intros ->. destruct (Z.lt_ge_cases rc' (maxRetrys g)) as [|Hge]; [assumption|].
    exfalso.
    destruct (getSerialNumber_post g w None g' w' Hready Hrun)
      as (_ & _ & _ & _ & Hlast).
    destruct Hlast as [Hne _]; [|assumption|congruence].
    exists rc'. split; [exact Hrc'|].
    destruct Hsame as (-> & _). exact Hge.
  - intros Hlt. eapply getSerialNumber_break; eauto.
Qed.

(** X14. [getMeasurement] returns, and its retry counter never goes back.
    If the counter ends below [maxRetrys], the command succeeded: it
    returns nil and the timestamp of the slot is the clock reading at the
    end of the successful query, the timestamps of the other slots being
    as before.  If the counter ends at or above [maxRetrys], no timestamp
    has changed. *)
Theorem getMeasurement_stamps_on_success (g : Globals) (w : W) (rc : Z) :
  ready g -> cur_retry g = Some rc -> 0 <= rc ->
  exists e g' w' rc',
    getMeasurement g w = Done e g' w' /\
    cur_retry g' = Some rc' /\ rc <= rc' /\
    (rc' < maxRetrys g ->
     e = None /\
     idx (timestamp g') (adrCounter g) = Some (time_Now w') /\
     forall i, i <> adrCounter g ->
               idx (timestamp g') i = idx (timestamp g) i) /\
    (maxRetrys g <= rc' -> timestamp g' = timestamp g).
Proof.
  intros Hready Hrc Hpos.
  destruct (getMeasurement_returns g w rc Hready Hrc Hpos)
    as (e & g' & w' & Hrun).
  destruct (getMeasurement_setup g w rc e g' w' Hrc Hrun)
    as (Hsame & rc' & Hrc' & Hle & _).
  exists e, g', w', rc'. split; [exact Hrun|]. split; [exact Hrc'|].
  split; [exact Hle|]. split.
  - pose proof Hrun as Hloop. rewrite getMeasurement_unfold in Hloop.
    pose (Inv := fun (_ : Z) (_ : goerror) (g1 : Globals) (_ : W) =>
      timestamp g1 = timestamp g /\ adrCounter g1 = adrCounter g /\
      maxRetrys g1 = maxRetrys g).
    pose (Post := fun (e1 : goerror) (g1 : Globals) (w1 : W) =>
      forall rc1, cur_retry g1 = Some rc1 -> rc1 < maxRetrys g ->
        e1 = None /\
        idx (timestamp g1) (adrCounter g) = Some (time_Now w1) /\
        forall i, i <> adrCounter g ->
                  idx (timestamp g1) i = idx (timestamp g) i).
    assert (HInv0 : Inv 0 None g (snd (port_Read w))) by (repeat split).
    assert (HPost : Post e g' w').
    { apply (fun Hs He => retry_loop_rule mea_round Inv Post Hs He
                            _ _ _ _ _ _ _ _ HInv0 Hloop).
      - intros ps e1 g1 w1 rc1 c g2 w2 (Ht & Hc & Hm) Hrc1 Hlt Hb.
        apply mea_round_shape in Hb
          as (ps2 & e2 & gq & _ & (ms & mr & -> & _ & _) & Hcases).
        destruct Hcases as [(_ & -> & -> & _ & t0 & Ht0 & ->)
                           |[(_ & -> & _ & n & _ & ->)|(_ & -> & _ & ->)]].
        + intros rcx _ _. split; [reflexivity|]. simpl.
          rewrite Hc in *. rewrite Ht in *. split.
          * eapply idx_upd_eq. exact Ht0.
          * intros i Hi. apply idx_upd_ne. congruence.
        + intros g3 Hp. apply retry_post_shape in Hp as (? & _ & -> & _).
          unfold Inv. simpl. auto.
        + intros g3 Hp. apply retry_post_shape in Hp as (? & _ & -> & _).
          unfold Inv. simpl. auto.
      - intros ps e1 g1 w1 rc1 (Ht & Hc & Hm) Hrc1 Hge rcx Hx Hlt.
        rewrite Hrc1 in Hx. inversion Hx; subst. lia. }
    intros Hlt. exact (HPost rc' Hrc' Hlt).
  - intros Hge.
    destruct (getMeasurement_post g w rc e g' w' Hrc Hrun) as (Ht & _).
    + exists rc'. split; [exact Hrc'|].
      destruct Hsame as (-> & _). exact Hge.
    + exact Ht.
Qed.

End CommandEnds.

Lemma getSerialNumber_nil_iff_answered_witness :
  exists e g' w' rc',
    getSerialNumber one_device (scripted [ReadTimeout; ack_frame] 0)
      = Done e g' w' /\
    cur_retry g' = Some rc' /\ 0 <= rc' <= maxRetrys one_device /\
    (e = None <-> rc' < maxRetrys one_device).
Proof.
  apply (getSerialNumber_nil_iff_answered (W := Sim)).
  - exact ready_one_device.
  - reflexivity.
Defined.

Lemma getMeasurement_stamps_on_success_witness :
  exists e g' w' rc',
    getMeasurement one_device (scripted [ReadTimeout; ack_frame] 5) = Done e g' w' /\
    cur_retry g' = Some rc' /\ 0 <= rc'.
Proof.
  destruct (getMeasurement_stamps_on_success (W := Sim) one_device
              (scripted [ReadTimeout; ack_frame] 5) 0)
    as (e & g' & w' & rc' & Hrun & Hrc' & Hle & _).
  - exact ready_one_device.
  - reflexivity.
  - lia.
  - exists e, g', w', rc'. auto.
Defined.

(** ** A scan pass *)

Lemma well_configured_setup (g g' : Globals) :
  same_setup g g' -> well_configured g -> well_configured g'.
Proof.
  intros (_ & _ & _ & Hsa & _ & Hn & Hok) (Hg & Hcount & Hslots).
  unfold well_configured. rewrite Hsa, Hn. auto.
Qed.

Lemma well_configured_cursor (g : Globals) (k : Z) :
  well_configured g -> well_configured (set_adrCounter k g).
Proof. intros H. exact H. Qed.

Lemma well_configured_ready (g : Globals) :
  well_configured g -> 0 <= adrCounter g < numAdresses g -> ready g.
Proof.
  intros (Hok & Hcount & Hslots) Hcur.
  split; [exact Hok|]. split; [lia|]. now apply Hslots.
Qed.

Section ScanFacts.

Context {W : Type} `{Environment W}.

(** From any cursor within the configured slots the address loop runs to
    the end. *)
Lemma scan_loop_completes (fuel : nat) :
  forall (g : Globals) (w : W),
    well_configured g ->
    0 <= adrCounter g <= numAdresses g ->
    (Z.to_nat (numAdresses g - adrCounter g) < fuel)%nat ->
    exists g' w',
      scan_loop fuel g w = Done tt g' w' /\
      adrCounter g' = numAdresses g /\
      scanAddress g' = scanAddress g /\ numAdresses g' = numAdresses g /\
      well_configured g'.
Proof.
  induction fuel as [|fuel IH]; intros g w Hwell Hcur Hfuel; [lia|].
  cbn [scan_loop]. unfold bind at 1. unfold get at 1.
  destruct (Z.ltb_spec (adrCounter g) (numAdresses g)) as [Hlt|Hge].
  - assert (Hready : ready g) by (apply well_configured_ready; [assumption|lia]).
    destruct (getSerialNumber_returns g w Hready) as (e1 & g1 & w1 & E1).
    destruct (getSerialNumber_setup g w e1 g1 w1 Hready E1)
      as (Hs1 & rc1 & Hrc1 & Hpos1 & _).
    assert (Hwell1 : well_configured g1) by (eapply well_configured_setup; eauto).
    assert (Hc1 : adrCounter g1 = adrCounter g) by apply Hs1.
    assert (Hn1 : numAdresses g1 = numAdresses g) by apply Hs1.
    assert (Hready1 : ready g1)
      by (apply well_configured_ready; [assumption|lia]).
    destruct (getMeasurement_returns g1 w1 rc1 Hready1 Hrc1 Hpos1)
      as (e2 & g2 & w2 & E2).
    destruct (getMeasurement_setup g1 w1 rc1 e2 g2 w2 Hrc1 E2) as (Hs2 & _).
    assert (Hs : same_setup g g2) by (eapply same_setup_trans; eauto).
    assert (Hwell2 : well_configured g2) by (eapply well_configured_setup; eauto).
    unfold bind at 1. rewrite E1.
    unfold bind at 1. rewrite E2.
    unfold bind at 1. unfold effect at 1.
    unfold bind at 1. unfold modify at 1.
    destruct Hs as (_ & _ & _ & Hsa & Hc & Hn & _).
    destruct (IH (set_adrCounter (adrCounter g2 + 1) g2)
                (time_Sleep (100 * Millisecond) w2))
      as (g' & w' & E & Hend & Hsa' & Hn' & Hwell').
    + exact Hwell2.
    + simpl. lia.
    + simpl. lia.
    + exists g', w'. split; [exact E|]. simpl in *.
      split; [congruence|]. split; [congruence|]. split; [congruence|].
      exact Hwell'.
  - unfold ret. exists g, w. split; [reflexivity|].
    split; [lia|]. split; [reflexivity|]. split; [reflexivity|assumption].
Qed.

(** X15. A scan pass over a well-formed configuration always runs to the
    end, whatever the devices answer or fail to answer: no outcome of a
    command for one address stops the pass.  It ends with the cursor on
    the number of addresses, and the address table is unchanged. *)
Theorem scan_pass_completes (g : Globals) (w : W) :
  well_configured g ->
  exists g' w',
    scan_loop (scan_fuel g) (set_adrCounter 0 g) w = Done tt g' w' /\
    adrCounter g' = numAdresses g /\
    scanAddress g' = scanAddress g /\ numAdresses g' = numAdresses g /\
    well_configured g'.
Proof.
  intros Hwell.
  destruct (scan_loop_completes (scan_fuel g) (set_adrCounter 0 g) w)
    as (g' & w' & E & Hrest).
  - exact Hwell.
  - simpl. destruct Hwell as (_ & Hcount & _). lia.
  - simpl. unfold scan_fuel. lia.
  - exists g', w'. split; [exact E|exact Hrest].
Qed.

Lemma idx_nth {A} (l : list A) (i : Z) (d : A) :
  0 <= i < Z.of_nat (length l) -> idx l i = Some (nth (Z.to_nat i) l d).
Proof.
  intros Hi. destruct (idx_in_range l i Hi) as [x Hx]. rewrite Hx.
  unfold idx in Hx. destruct (Z.ltb_spec i 0); [lia|].
  f_equal. symmetry. now apply nth_lookup_Some.
Qed.

Lemma persist_loop_fold (fuel : nat) :
  forall i (g : Globals) (w : W),
    arrays_ok g -> 0 <= i -> numAdresses g <= MAXNUMADR ->
    (Z.to_nat (numAdresses g - i) < fuel)%nat ->
    persist_loop fuel i g w
    = Done tt g
        (fold_left (hand_over g)
           (seq (Z.to_nat i) (Z.to_nat (numAdresses g - i))) w).
Proof.
  induction fuel as [|fuel IH]; intros i g w Hok Hi Hn Hfuel; [lia|].
  cbn [persist_loop]. unfold bind at 1. unfold get at 1.
  destruct (Z.ltb_spec i (numAdresses g)) as [Hlt|Hge].
  - pose proof Hok as (_ & Hs & Hv & _ & Ht & _).
    unfold bind at 1. unfold load at 1.
    rewrite (idx_nth (serNoStr g) i [])
      by (rewrite Hs; unfold MAXNUMADR in *; lia).
    unfold bind at 1. unfold load at 1.
    rewrite (idx_nth (valueStr g) i [])
      by (rewrite Hv; unfold MAXNUMADR in *; lia).
    unfold bind at 1. unfold load at 1.
    rewrite (idx_nth (timestamp g) i 0)
      by (rewrite Ht; unfold MAXNUMADR in *; lia).
    unfold bind at 1. unfold effect at 1.
    rewrite IH; [|exact Hok|lia|lia|lia].
    replace (Z.to_nat (numAdresses g - i))
      with (S (Z.to_nat (numAdresses g - (i + 1)))) by lia.
    replace (Z.to_nat (i + 1)) with (S (Z.to_nat i)) by lia.
    reflexivity.
  - replace (Z.to_nat (numAdresses g - i)) with O by lia.
    reflexivity.
Qed.

(** X16. The database loop hands over the reading of every configured
    slot once, in slot order, each with the serial number, value and
    timestamp of its own slot; it changes no global, the scan cursor
    included, and it always runs to the end. *)
Theorem persist_loop_hands_over_each_slot (g : Globals) (w : W) :
  arrays_ok g -> 0 <= numAdresses g <= MAXNUMADR ->
  persist_loop (scan_fuel g) 0 g w
  = Done tt g
      (fold_left (hand_over g) (seq 0 (Z.to_nat (numAdresses g))) w).
Proof.
  intros Hok Hn.
  rewrite persist_loop_fold; [|assumption|lia|lia|unfold scan_fuel; lia].
  now rewrite Z.sub_0_r.
Qed.

(** X17. The scan budget is charged before the port is opened: when the
    delay has passed and opening the port fails, the pass is given up
    without any read or write and the remaining count is one less; with
    one scan left and a bounded budget the loop then returns, so that scan
    is never made. *)
Theorem failed_open_uses_up_a_scan
    (fuel : nat) (n lastScan : Z) (g : Globals) (w w1 : W) :
  0 < n ->
  (time_Since w lastScan <? minScanDelay g) = false ->
  serial_OpenPort w = (false, w1) ->
  main_loop (S fuel) n lastScan g w = main_loop fuel (n - 1) lastScan g w1 /\
  (n = 1 -> numScans g <> 0 ->
   main_loop (S (S fuel)) n lastScan g w = Done tt g w1).
Proof.
  intros Hn Hdelay Hopen.
  assert (Hstep : forall f, main_loop (S f) n lastScan g w
                            = main_loop f (n - 1) lastScan g w1).
  { intros f. cbn [main_loop]. unfold bind at 1. unfold get at 1.
    unfold scanning. destruct (Z.ltb_spec 0 n); [|lia].
    rewrite orb_true_r.
    unfold bind at 1. unfold world at 1. rewrite Hdelay.
    unfold bind at 1. unfold world at 1. rewrite Hopen.
    reflexivity. }
  split; [apply Hstep|].
  intros -> Hbounded. rewrite Hstep.
  cbn [main_loop]. unfold bind, get, ret, scanning.
  apply Z.eqb_neq in Hbounded. rewrite Hbounded. reflexivity.
Qed.

End ScanFacts.

Lemma scan_pass_completes_witness :
  exists g' w',
    scan_loop (scan_fuel (configured [1; 2]%N))
      (set_adrCounter 0 (configured [1; 2]%N)) (scripted [ack_frame] 0)
      = Done tt g' w' /\
    adrCounter g' = 2.
Proof.
  destruct (scan_pass_completes (W := Sim) (configured [1; 2]%N)
              (scripted [ack_frame] 0)) as (g' & w' & E & Hend & _).
  - split; [unfold arrays_ok; repeat split; reflexivity|].
    split; [vm_compute; split; discriminate|].
    intros k Hk. change (numAdresses (configured [1; 2]%N)) with 2 in Hk.
    assert (Hcases : k = 0 \/ k = 1) by lia.
    destruct Hcases as [->| ->].
    + exists 1%N. split; reflexivity.
    + exists 2%N. split; reflexivity.
  - exists g', w'. split; [exact E|exact Hend].
Defined.

Lemma persist_loop_hands_over_each_slot_witness :
  persist_loop (scan_fuel with_reading) 0 with_reading (scripted [] 0)
  = Done tt with_reading
      (sim_Persist (bytes_of "SN001") (bytes_of "23.5") 7 (scripted [] 0)).
Proof.
  rewrite (persist_loop_hands_over_each_slot (W := Sim)).
  - reflexivity.
  - unfold arrays_ok. repeat split; reflexivity.
  - vm_compute. split; discriminate.
Defined.

Lemma failed_open_uses_up_a_scan_witness :
  main_loop 2 1 0 one_device
    (mkSim [] [] [] (2 ^ 62) [false] [])
  = Done tt one_device (mkSim [] [] [] (2 ^ 62) [] []).
Proof.
  destruct (failed_open_uses_up_a_scan (W := Sim) 0 1 0 one_device
              (mkSim [] [] [] (2 ^ 62) [false] [])
              (mkSim [] [] [] (2 ^ 62) [] [])) as [_ Hend].
  - lia.
  - reflexivity.
  - reflexivity.
  - apply Hend; [reflexivity|vm_compute; discriminate].
Defined.

(** ** A whole bounded run *)

Section RunFacts.

Context {W : Type} `{Environment W}.


End RunFacts.


(** ** Loading the configuration *)

Lemma scan_until_quote_shorter (scanner : list gostring) :
  forall result,
    (length (snd (scan_until_quote scanner result)) <= length scanner)%nat.
Proof.
  induction scanner as [|line rest IH]; intros result; simpl; [lia|].
  destruct (has_quote line); simpl; [lia|].
  specialize (IH (result ++ line)). lia.
Qed.

Section LoadConfigFacts.

Variable ParseFloat_duration : gostring -> option Z.
Variable runes : gostring -> list Z.
Variable Digit_table : Z -> bool.
Variable White_Space_table : Z -> bool.

Lemma addresses_kept_refl (g : Globals) : addresses_kept g g.
Proof. unfold addresses_kept. auto. Qed.

Lemma addresses_kept_trans (g1 g2 g3 : Globals) :
  addresses_kept g1 g2 -> addresses_kept g2 g3 -> addresses_kept g1 g3.
Proof. unfold addresses_kept. intuition congruence. Qed.

Lemma config_line_keeps (line : gostring) (scanner : list gostring)
    (st : ConfigState) :
  let '(st', scanner') := config_line ParseFloat_duration line scanner st in
  addresses_kept (cs_globals st) (cs_globals st') /\
  (length scanner' <= length scanner)%nat /\
  (Contains line (bytes_of "scanAddresses") = false ->
   scanner' = scanner /\ cs_addresses st' = cs_addresses st) /\
  (Contains line (bytes_of "SerialDevice") = false ->
   serialDeviceStr (cs_settings st') = serialDeviceStr (cs_settings st)).
Proof.
  assert (Hsame : forall g (s1 s2 : Settings) (a : gostring) (sc : list gostring),
             (Contains line (bytes_of "SerialDevice") = false ->
              serialDeviceStr s2 = serialDeviceStr s1) ->
             addresses_kept g g /\
             (length sc <= length sc)%nat /\
             (Contains line (bytes_of "scanAddresses") = false ->
              sc = sc /\ a = a) /\
             (Contains line (bytes_of "SerialDevice") = false ->
              serialDeviceStr s2 = serialDeviceStr s1)).
  { intros g s1 s2 a sc Hdev.
    split; [apply addresses_kept_refl|]. split; [lia|]. split; auto. }
  assert (Hglob : forall g g' (s1 : Settings) (a : gostring) (sc : list gostring),
             addresses_kept g g' ->
             addresses_kept g g' /\
             (length sc <= length sc)%nat /\
             (Contains line (bytes_of "scanAddresses") = false ->
              sc = sc /\ a = a) /\
             (Contains line (bytes_of "SerialDevice") = false ->
              serialDeviceStr s1 = serialDeviceStr s1)).
  { intros g g' s1 a sc Hk.
    split; [exact Hk|]. split; [lia|]. split; auto. }
  unfold config_line.
  destruct (Contains line (bytes_of "db.host")); [now apply Hsame|].
  destruct (Contains line (bytes_of "db.user")); [now apply Hsame|].
  destruct (Contains line (bytes_of "db.passwd")); [now apply Hsame|].
  destruct (Contains line (bytes_of "db.name")); [now apply Hsame|].
  destruct (Contains line (bytes_of "SerialDevice")) eqn:Edev;
    [apply Hsame; discriminate|].
  destruct (Contains line (bytes_of "minScanDelaySeconds")).
  { destruct (ParseFloat_duration (extractQuotedValue line)).
    - apply Hglob. unfold addresses_kept, arrays_ok. simpl. auto.
    - now apply Hsame. }
  destruct (Contains line (bytes_of "numberOfScans")).
  { destruct (ParseInt64 (extractQuotedValue line)).
    - apply Hglob. unfold addresses_kept, arrays_ok. simpl. auto.
    - now apply Hsame. }
  destruct (Contains line (bytes_of "scanAddresses")) eqn:Eadr.
  - unfold extractAddresses.
    pose proof (scan_until_quote_shorter scanner line) as Hshort.
    destruct (scan_until_quote scanner line) as [result scanner'].
    simpl in *. split; [apply addresses_kept_refl|].
    split; [exact Hshort|]. split; [discriminate|reflexivity].
  - now apply Hsame.
Qed.

Lemma config_loop_returns (fuel : nat) :
  forall scanner st,
    (length scanner < fuel)%nat ->
    exists st',
      config_loop ParseFloat_duration fuel scanner st = Some st' /\
      addresses_kept (cs_globals st) (cs_globals st').
Proof.
  induction fuel as [|fuel IH]; intros scanner st Hfuel; [lia|].
  destruct scanner as [|line rest]; simpl.
  - exists st. split; [reflexivity|apply addresses_kept_refl].
  - pose proof (config_line_keeps line rest st) as Hline.
    destruct (config_line ParseFloat_duration line rest st) as [st1 rest1].
    destruct Hline as (Hkept & Hshort & _).
    destruct (IH rest1 st1) as (st' & E & Hkept'); [simpl in Hfuel; lia|].
    exists st'. split; [exact E|].
    eapply addresses_kept_trans; eauto.
Qed.

Lemma config_loop_without_list (fuel : nat) :
  forall scanner st,
    (length scanner < fuel)%nat ->
    Forall (fun l => Contains l (bytes_of "scanAddresses") = false) scanner ->
    exists st',
      config_loop ParseFloat_duration fuel scanner st = Some st' /\
      cs_addresses st' = cs_addresses st /\
      addresses_kept (cs_globals st) (cs_globals st') /\
      (Forall (fun l => Contains l (bytes_of "SerialDevice") = false) scanner ->
       serialDeviceStr (cs_settings st') = serialDeviceStr (cs_settings st)).
Proof.
  induction fuel as [|fuel IH]; intros scanner st Hfuel Hno; [lia|].
  destruct scanner as [|line rest]; simpl.
  - exists st. split; [reflexivity|]. split; [reflexivity|].
    split; [apply addresses_kept_refl|reflexivity].
  - inversion Hno as [|? ? Hline Hrest]; subst.
    pose proof (config_line_keeps line rest st) as Hstep.
    destruct (config_line ParseFloat_duration line rest st) as [st1 rest1].
    destruct Hstep as (Hkept & _ & Hsame & Hdev).
    destruct (Hsame Hline) as [-> Hadr].
    destruct (IH rest st1) as (st' & E & Hadr' & Hkept' & Hdev');
      [simpl in Hfuel; lia|assumption|].
    exists st'. split; [exact E|]. split; [congruence|].
    split; [eapply addresses_kept_trans; eauto|].
    intros Hnodev. inversion Hnodev as [|? ? Hd Hds]; subst.
    rewrite Hdev' by assumption. now apply Hdev.
Qed.

(** X19. A file in which no line holds the word scanAddresses makes
    [loadConfig] fail with the no-addresses error: no address is stored,
    and the serial device does not get its default, since the function
    returns before it reaches that step. *)
Theorem loadConfig_without_address_list
    (lines : list gostring) (db : Settings) (g : Globals) :
  Forall (fun l => Contains l (bytes_of "scanAddresses") = false) lines ->
  exists db' g',
    loadConfig ParseFloat_duration runes Digit_table White_Space_table
      lines db g = ConfigDone ConfigNoAddresses db' g' /\
    numAdresses g' = numAdresses g /\ scanAddress g' = scanAddress g /\
    (Forall (fun l => Contains l (bytes_of "SerialDevice") = false) lines ->
     serialDeviceStr db' = serialDeviceStr db).
Proof.
  intros Hno. unfold loadConfig.
  destruct (config_loop_without_list (S (length lines)) lines
              (mkConfigState db g [])) as (st' & E & Hadr & Hkept & Hdev);
    [lia|assumption|].
  rewrite E. simpl in Hadr. rewrite Hadr.
  exists (cs_settings st'), (cs_globals st').
  split; [reflexivity|].
  destruct Hkept as (Hn & Hsa & _). simpl in *. auto.
Qed.

(** X20. With the globals as declared, [loadConfig] returns for every
    file: it neither runs past the address array nor loops for ever, and
    the globals it leaves hold between 0 and [MAXNUMADR] addresses in
    arrays of their declared length. *)
Theorem loadConfig_total_and_bounded
    (lines : list gostring) (db : Settings) (g : Globals) :
  arrays_ok g -> numAdresses g = 0 ->
  exists r db' g',
    loadConfig ParseFloat_duration runes Digit_table White_Space_table
      lines db g = ConfigDone r db' g' /\
    0 <= numAdresses g' <= MAXNUMADR /\ arrays_ok g'.
Proof.
  intros Hok Hzero. unfold loadConfig.
  destruct (config_loop_returns (S (length lines)) lines
              (mkConfigState db g [])) as (st' & E & Hn & Hsa & Hok');
    [lia|].
  rewrite E. simpl in Hn, Hsa, Hok'.
  destruct (cs_addresses st') as [|c astr].
  - eexists _, _, _. split; [reflexivity|].
    rewrite Hn, Hzero. unfold MAXNUMADR. split; [lia|auto].
  - destruct (extractAdresses_total_and_bounded Digit_table White_Space_table
                (runes (c :: astr)) (cs_globals st'))
      as (sa & n & Ex & Hbound & _ & Hok2); [auto|congruence|].
    rewrite Ex. eexists _, _, _. split; [reflexivity|].
    split; [exact Hbound|exact Hok2].
Qed.

End LoadConfigFacts.

Lemma loadConfig_without_address_list_witness :
  exists db' g',
    loadConfig (fun _ => None) (map Z.of_N) (fun _ => false) (fun _ => false)
      [bytes_of "db.host = " ++ [quote] ++ bytes_of "localhost" ++ [quote];
       bytes_of "numberOfScans = " ++ [quote] ++ bytes_of "3" ++ [quote]]
      initial_settings initial_globals
    = ConfigDone ConfigNoAddresses db' g' /\
    numAdresses g' = 0 /\ serialDeviceStr db' = [].
Proof.
  destruct (loadConfig_without_address_list (fun _ => None) (map Z.of_N)
              (fun _ => false) (fun _ => false)
              [bytes_of "db.host = " ++ [quote] ++ bytes_of "localhost" ++ [quote];
               bytes_of "numberOfScans = " ++ [quote] ++ bytes_of "3" ++ [quote]]
              initial_settings initial_globals)
    as (db' & g' & E & Hn & _ & Hdev).
  - repeat constructor.
  - exists db', g'. split; [exact E|]. split; [exact Hn|].
    apply Hdev. repeat constructor.
Defined.

Lemma loadConfig_total_and_bounded_witness :
  exists r db' g',
    loadConfig (fun _ => None) (map Z.of_N) (fun _ => false) (fun _ => false)
      [bytes_of "scanAddresses = " ++ [quote] ++ bytes_of "1,2,"; 
       bytes_of "3" ++ [quote]]
      initial_settings initial_globals
    = ConfigDone r db' g' /\
    0 <= numAdresses g' <= MAXNUMADR /\ arrays_ok g'.
Proof.
  apply loadConfig_total_and_bounded.
  - unfold arrays_ok. repeat split; reflexivity.
  - reflexivity.
Defined.

(** ** The end of a bounded run *)

Lemma sim_sleeps_clock (k : nat) (d : Z) (w : Sim) :
  sim_clock (Nat.iter k (sim_Sleep d) w) = sim_clock w + Z.of_nat k * d.
Proof.
  induction k as [|k IH]; [simpl; lia|].
  rewrite Nat.iter_succ. unfold sim_Sleep at 1. cbn [sim_clock].
  rewrite IH. lia.
Qed.

(** On the scripted world the clock advances with every sleep, so every
    delay a [Duration] can hold passes. *)
Lemma sim_clock_advances (delay : Z) :
  delay <= maxDuration -> clock_advances (W := Sim) delay.
Proof.
  intros Hd w lastScan.
  exists (Z.to_nat (Z.max 0 (delay + lastScan - sim_clock w))).
  unfold time_Since.
  change (time_Now (Nat.iter ?k (time_Sleep ?d) w))
    with (sim_clock (Nat.iter k (sim_Sleep d) w)).
  rewrite sim_sleeps_clock. apply Z.ltb_ge.
  unfold saturate, Millisecond, maxDuration, minDuration in *. lia.
Qed.

Section BoundedRun.

Context {W : Type} `{Environment W}.

Lemma retry_loop_minScanDelay (body : M W round_end) :
  (forall g w c g1 w1,
     body g w = Done c g1 w1 -> minScanDelay g1 = minScanDelay g) ->
  forall fuel ps e g w e' g' w',
    retry_loop body fuel ps e g w = Done e' g' w' ->
    minScanDelay g' = minScanDelay g.
Proof.
  intros Hbody fuel ps e g w e' g' w' Hrun.
  apply (fun Hs He => retry_loop_rule body
           (fun _ _ g1 _ => minScanDelay g1 = minScanDelay g)
           (fun _ g1 _ => minScanDelay g1 = minScanDelay g)
           Hs He _ _ _ _ _ _ _ _ eq_refl Hrun).
  - intros ps1 e1 g1 w1 rc c g2 w2 Hinv _ _ Hb.
    apply Hbody in Hb. destruct c as [eb|ps2 e2]; [congruence|].
    intros g3 Hp. apply retry_post_shape in Hp as (? & _ & -> & _).
    simpl. congruence.
  - auto.
Qed.

Lemma sn_round_minScanDelay (g : Globals) (w : W) c g1 w1 :
  sn_round g w = Done c g1 w1 -> minScanDelay g1 = minScanDelay g.
Proof.
  intros Hr. apply sn_round_shape in Hr as (? & ? & ? & _ & -> & _).
  reflexivity.
Qed.

Lemma mea_round_minScanDelay (g : Globals) (w : W) c g1 w1 :
  mea_round g w = Done c g1 w1 -> minScanDelay g1 = minScanDelay g.
Proof.
  intros Hr.
  apply mea_round_shape in Hr as (? & ? & gq & _ & (? & ? & -> & _) & Hcases).
  destruct Hcases as [(_ & _ & _ & _ & ? & _ & ->)
                     |[(_ & _ & _ & ? & _ & ->)|(_ & _ & _ & ->)]];
    reflexivity.
Qed.

Lemma scan_loop_minScanDelay fuel : forall (g : Globals) (w : W) g' w',
  scan_loop fuel g w = Done tt g' w' -> minScanDelay g' = minScanDelay g.
Proof.
  induction fuel as [|fuel IH]; intros g w g' w' Hrun; [discriminate|].
  simpl in Hrun. unfold bind at 1 in Hrun. unfold get at 1 in Hrun.
  destruct (adrCounter g <? numAdresses g).
  - unfold bind at 1 in Hrun.
    destruct (getSerialNumber g w) as [e1 g1 w1| |] eqn:E1; try discriminate.
    unfold bind at 1 in Hrun.
    destruct (getMeasurement g1 w1) as [e2 g2 w2| |] eqn:E2; try discriminate.
    assert (H1 : minScanDelay g1 = minScanDelay g).
    { revert E1. unfold getSerialNumber, load_cur. run.
      destruct (idx (serNoStr g) (adrCounter g)); [|discriminate].
      cbn [retryCnt adrCounter set_serNoStr].
      destruct (idx (retryCnt g) (adrCounter g)); [|discriminate].
      intros E1.
      now apply (retry_loop_minScanDelay sn_round sn_round_minScanDelay)
        in E1. }
    assert (H2 : minScanDelay g2 = minScanDelay g1).
    { rewrite getMeasurement_unfold in E2.
      now apply (retry_loop_minScanDelay mea_round mea_round_minScanDelay)
        in E2. }
    run. apply IH in Hrun. simpl in Hrun. congruence.
  - run. now inversion Hrun.
Qed.

(** With a bounded budget the loop returns as soon as it is entered with
    no scan left, without touching the globals or the world. *)
Lemma main_loop_done (fuel : nat) (n lastScan : Z) (g : Globals) (w : W) :
  numScans g <> 0 -> n <= 0 ->
  scanning g n = false /\ main_loop (S fuel) n lastScan g w = Done tt g w.
Proof.
  intros Hbounded Hzero.
  assert (Hguard : scanning g n = false).
  { unfold scanning. apply orb_false_iff. split.
    - now apply Z.eqb_neq.
    - apply Z.ltb_ge. exact Hzero. }
  split; [exact Hguard|].
  simpl. unfold bind, get. rewrite Hguard. reflexivity.
Qed.

(** One turn of the loop past the delay test: it takes one scan off the
    budget, whether the port opens or not, and goes round again with the
    configuration as it was. *)
Lemma main_loop_pass (n lastScan : Z) (g : Globals) (w : W) :
  well_configured g -> 0 < n ->
  (time_Since w lastScan <? minScanDelay g) = false ->
  exists g' w' lastScan',
    (forall fuel,
       main_loop (S fuel) n lastScan g w
       = main_loop fuel (n - 1) lastScan' g' w') /\
    well_configured g' /\ numScans g' = numScans g /\
    minScanDelay g' = minScanDelay g.
Proof.
  intros Hwell Hn Hdelay.
  assert (Hguard : scanning g n = true).
  { unfold scanning. destruct (Z.ltb_spec 0 n); [|lia]. apply orb_true_r. }
  assert (Hdec : (if 0 <? n then n - 1 else n) = n - 1)
    by (destruct (Z.ltb_spec 0 n); [reflexivity|lia]).
  destruct (serial_OpenPort w) as [opened w1] eqn:Hopen.
  destruct opened.
  - destruct (scan_loop_completes (scan_fuel g) (set_adrCounter 0 g)
                (snd (port_Read w1)))
      as (g2 & w2 & Escan & _ & _ & Hn2 & Hwell2).
    + exact Hwell.
    + simpl. destruct Hwell as (_ & Hcount & _). lia.
    + simpl. unfold scan_fuel. lia.
    + simpl in Hn2.
      exists g2,
        (port_Close
           (fold_left (hand_over g2) (seq 0 (Z.to_nat (numAdresses g2))) w2)),
        (time_Now w2).
      split; [|split; [exact Hwell2|split]].
      * intros fuel. cbn [main_loop]. unfold bind at 1. unfold get at 1.
        rewrite Hguard.
        unfold bind at 1. unfold world at 1. rewrite Hdelay, Hdec.
        unfold bind at 1. unfold world at 1. rewrite Hopen. cbn [negb].
        unfold bind at 1. rewrite ReadStrPort_returns.
        unfold bind at 1. unfold modify at 1.
        unfold bind at 1. rewrite Escan.
        unfold bind at 1. unfold world at 1.
        assert (Hfuel : scan_fuel g = scan_fuel g2)
          by (unfold scan_fuel; now rewrite Hn2).
        rewrite Hfuel.
        unfold bind at 1.
        rewrite persist_loop_fold;
          [|apply Hwell2|lia|apply Hwell2|unfold scan_fuel; lia].
        rewrite Z.sub_0_r.
        unfold bind at 1. unfold effect at 1. reflexivity.
      * apply scan_loop_numScans in Escan. exact Escan.
      * apply scan_loop_minScanDelay in Escan. exact Escan.
  - exists g, w1, lastScan.
    split; [|split; [exact Hwell|split; reflexivity]].
    intros fuel. cbn [main_loop]. unfold bind at 1. unfold get at 1.
    rewrite Hguard.
    unfold bind at 1. unfold world at 1. rewrite Hdelay, Hdec.
    unfold bind at 1. unfold world at 1. rewrite Hopen. reflexivity.
Qed.

(** While the delay test holds the loop back it only sleeps; once the
    clock has advanced far enough the loop is at the same place with the
    test passed. *)
Lemma main_loop_waits (n : Z) (g : Globals) :
  scanning g n = true ->
  forall (k : nat) (w : W) (lastScan : Z),
    (time_Since (Nat.iter k (time_Sleep (250 * Millisecond)) w) lastScan
       <? minScanDelay g) = false ->
    exists (k' : nat) (w1 : W),
      (time_Since w1 lastScan <? minScanDelay g) = false /\
      forall fuel,
        main_loop (k' + fuel)%nat n lastScan g w
        = main_loop fuel n lastScan g w1.
Proof.
  intros Hguard. induction k as [|k IH]; intros w lastScan Hk.
  - exists 0%nat, w. split; [exact Hk|reflexivity].
  - destruct (time_Since w lastScan <? minScanDelay g) eqn:Hnow.
    + rewrite Nat.iter_succ_r in Hk.
      destruct (IH _ _ Hk) as (k' & w1 & Hpass & Hrun).
      exists (S k'), w1. split; [exact Hpass|].
      intros fuel. cbn [Nat.add main_loop]. unfold bind at 1. unfold get at 1.
      rewrite Hguard.
      unfold bind at 1. unfold world at 1. rewrite Hnow.
      unfold bind at 1. unfold effect at 1. apply Hrun.
    + exists 0%nat, w. split; [exact Hnow|reflexivity].
Qed.

(** A bounded run comes to its end: every turn past the delay test takes
    a scan off the budget, and with no scan left the loop returns. *)
Lemma bounded_run_returns (m : nat) :
  forall (n lastScan : Z) (g : Globals) (w : W),
    well_configured g -> numScans g <> 0 ->
    clock_advances (W := W) (minScanDelay g) ->
    n <= Z.of_nat m ->
    exists fuel g' w',
      main_loop fuel n lastScan g w = Done tt g' w' /\
      numScans g' = numScans g.
Proof.
  induction m as [|m IH]; intros n lastScan g w Hwell Hbounded Hclock Hm.
  - exists 1%nat, g, w. split; [|reflexivity].
    apply main_loop_done; [assumption|lia].
  - destruct (Z_le_gt_dec n 0) as [Hle|Hgt].
    + exists 1%nat, g, w. split; [|reflexivity].
      now apply main_loop_done.
    + assert (Hguard : scanning g n = true).
      { unfold scanning. destruct (Z.ltb_spec 0 n); [|lia]. apply orb_true_r. }
      destruct (Hclock w lastScan) as [k Hk].
      destruct (main_loop_waits n g Hguard k w lastScan Hk)
        as (k' & w1 & Hpass & Hwait).
      destruct (main_loop_pass n lastScan g w1 Hwell) as
        (g2 & w2 & lastScan2 & Hturn & Hwell2 & Hn2 & Hd2); [lia|exact Hpass|].
      destruct (IH (n - 1) lastScan2 g2 w2) as (fuel & g' & w' & Hrun & Hn');
        [exact Hwell2|congruence|now rewrite Hd2|lia|].
      exists (k' + S fuel)%nat, g', w'.
      rewrite Hwait, Hturn. split; [exact Hrun|congruence].
Qed.

Lemma well_configured_zero_counters (g : Globals) :
  well_configured g -> well_configured (zero_counters g).
Proof.
  intros (Hok & Hcount & Hslots).
  split; [|split; [exact Hcount|exact Hslots]].
  unfold arrays_ok, zero_counters in *.
  cbn [retryCnt serNoStr valueStr scanAddress timestamp msgSent msgReceived
       msgNAK set_msgSent set_msgReceived set_msgNAK].
  rewrite !repeat_length. intuition.
Qed.

End BoundedRun.

(** C6, as the code has it. With a bounded scan count and every
    configured address below 32: once no scan is left the guard of the
    main loop is false, and the loop returns without issuing a scan or
    touching the world; every turn of the loop that gets past the delay
    test takes one scan off the budget, whether or not the port opens, so
    that the turn that takes the last one is followed by the return of
    the loop; and when the clock advances while the program sleeps, the
    loop, and with it [main], returns from every budget: the process ends
    by itself. *)
Theorem bounded_scan_loop_returns {W} `{Environment W}
    (n lastScan : Z) (g : Globals) (w : W) :
  well_configured g -> numScans g <> 0 ->
  (n <= 0 ->
   scanning g n = false /\
   forall fuel, main_loop (S fuel) n lastScan g w = Done tt g w) /\
  (0 < n -> (time_Since w lastScan <? minScanDelay g) = false ->
   exists g' w' lastScan',
     (forall fuel,
        main_loop (S fuel) n lastScan g w
        = main_loop fuel (n - 1) lastScan' g' w') /\
     numScans g' = numScans g /\
     (n = 1 ->
      forall fuel, main_loop (S (S fuel)) n lastScan g w = Done tt g' w')) /\
  (clock_advances (W := W) (minScanDelay g) ->
   (exists fuel g' w', main_loop fuel n lastScan g w = Done tt g' w') /\
   (exists fuel g' w', main_scan fuel g w = Done tt g' w')).
Proof.
  intros Hwell Hbounded. split; [|split].
  - intros Hzero. split.
    + now apply (main_loop_done 0 n lastScan g w).
    + intros fuel. now apply main_loop_done.
  - intros Hn Hdelay.
    destruct (main_loop_pass n lastScan g w Hwell Hn Hdelay)
      as (g' & w' & lastScan' & Hturn & _ & Hn' & _).
    exists g', w', lastScan'. split; [exact Hturn|]. split; [exact Hn'|].
    intros -> fuel. rewrite Hturn.
    apply main_loop_done; [congruence|lia].
  - intros Hclock. split.
    + destruct (bounded_run_returns (Z.to_nat n) n lastScan g w
                  Hwell Hbounded Hclock) as (fuel & g' & w' & Hrun & _); [lia|].
      eauto.
    + destruct (bounded_run_returns (Z.to_nat (numScans g)) (numScans g) 0
                  (zero_counters g) w) as (fuel & g' & w' & Hrun & _).
      * now apply well_configured_zero_counters.
      * exact Hbounded.
      * exact Hclock.
      * lia.
      * exists fuel, g', w'. unfold main_scan. run. exact Hrun.
Qed.

Lemma well_configured_one_device : well_configured one_device.
Proof.
  split; [unfold arrays_ok; repeat split; reflexivity|].
  split; [vm_compute; split; discriminate|].
  intros k Hk. change (numAdresses one_device) with 1 in Hk.
  assert (k = 0) as -> by lia.
  exists 1%N. split; reflexivity.
Qed.

Lemma bounded_scan_loop_returns_witness :
  (exists fuel g' w',
     main_loop fuel 1 0 one_device (scripted [] 0) = Done tt g' w') /\
  (exists fuel g' w', main_scan fuel one_device (scripted [] 0) = Done tt g' w').
Proof.
  destruct (bounded_scan_loop_returns (W := Sim) 1 0 one_device (scripted [] 0))
    as (_ & _ & Hends).
  - exact well_configured_one_device.
  - vm_compute. discriminate.
  - apply Hends. apply sim_clock_advances. vm_compute. discriminate.
Defined.

(** C6 as the specification words it fails on this run: one device,
    [numScans = 1], a clock far from the zero time.  The single scan is
    made (three frames are written, one row is handed to the database) and
    then [main] returns. *)
Lemma bounded_scan_ends_process :
  exists g' w',
    main_scan 2 one_device
      (scripted [ReadTimeout; ack_frame; ReadTimeout; nak_frame; ack_frame]
         (2 ^ 62)) = Done tt g' w' /\
    numScans one_device = 1 /\
    length (sim_sent w') = 3%nat /\
    length (sim_db w') = 1%nat.
Proof.
  exists_run (main_scan 2 one_device
                (scripted [ReadTimeout; ack_frame; ReadTimeout; nak_frame; ack_frame]
                   (2 ^ 62))).
  by_eval.
Qed.
